(** * pyspatialopt: coverage stores and covering-model builders

    Shallow embedding of [pyspatialopt/models/covering.py].

    - A Python dict is an association list in insertion order
      ([Dict.t]); [d[k]] is [Dict.get], [d[k] = v] is [Dict.set]
      (replaces in place when the key is present, appends otherwise).
    - Python exceptions are the constructors of [pyerr].
    - Numbers (ints and floats of the source) are rationals [Q].
    - The pulp objects the builders create (variables, affine
      expressions, constraints, the problem) are records; a builder is a
      computation in the state-and-exception monad [M], whose state logs
      every [LpVariable] created and holds the problem under construction,
      so that the state at a raised exception is observable. *)

From Stdlib Require Import String Ascii List QArith Qround Bool Lia DecimalNat Lqa.
Import ListNotations.

Local Open Scope string_scope.
Local Open Scope Q_scope.

(** ** Python dicts *)

Module Dict.
Definition t (V : Type) : Type := list (string * V).

Section Ops.
Context {V : Type}.

(** [d[k]] (and [k in d]) *)
Fixpoint get (k : string) (d : t V) : option V :=
  match d with
  | [] => None
  | (k', v) :: r => if String.eqb k k' then Some v else get k r
  end.

Definition mem (k : string) (d : t V) : bool :=
  match get k d with Some _ => true | None => false end.

(** [d[k] = v] *)
Fixpoint set (k : string) (v : V) (d : t V) : t V :=
  match d with
  | [] => [(k, v)]
  | (k', v') :: r =>
      if String.eqb k k' then (k', v) :: r else (k', v') :: set k v r
  end.

Definition keys (d : t V) : list string := map fst d.
End Ops.
End Dict.

(** ** Values and exceptions *)

(** Facility metadata is opaque to the module; only its equality is used. *)
Definition meta := string.

(** The value stored under ["serviceableDemand"]: a number, except where
    [merge_coverages] stores a coverage dict there. *)
Inductive pyval :=
| PyNum (q : Q)
| PyDict (m : Dict.t Q).

Inductive pyerr :=
| KeyError (k : string)
| ValueError (msg : string)
| TypeError (msg : string)
| IndexError
| ZeroDivisionError
| PulpError (msg : string).

Inductive result (A : Type) : Type :=
| Ok (a : A)
| Err (e : pyerr).
Arguments Ok {A} a.
Arguments Err {A} e.

Definition rbind {A B} (r : result A) (f : A -> result B) : result B :=
  match r with Ok a => f a | Err e => Err e end.

Notation "'let?' x ':=' r 'in' k" := (rbind r (fun x => k))
  (at level 200, x name, r at level 100, k at level 200).

(** [d[k]] raising [KeyError] *)
Definition getr {V} (k : string) (d : Dict.t V) : result V :=
  match Dict.get k d with Some v => Ok v | None => Err (KeyError k) end.

(** [for x in l: acc = f(acc, x)], stopping at the first exception *)
Fixpoint rfold {A X} (f : A -> X -> result A) (a : A) (l : list X) : result A :=
  match l with
  | [] => Ok a
  | x :: r => let? a' := f a x in rfold f a' r
  end.

(** ** Coverage dicts *)

(** [coverage_dict["demand"][id]] *)
Record DemandRecord := mkDemandRecord {
  d_demand : Q;                          (** ["demand"] *)
  serviceableDemand : pyval;             (** ["serviceableDemand"] *)
  d_coverage : Dict.t (Dict.t Q)         (** ["coverage"]: type -> id -> value *)
}.

(** A coverage dict of kind ["binary"] or ["partial"]. *)
Record Coverage := mkCoverage {
  ctype : string;                        (** [["type"]["type"]] *)
  cmode : string;                        (** [["type"]["mode"]] *)
  facilities : Dict.t (Dict.t meta);     (** ["facilities"] *)
  demand : Dict.t DemandRecord;          (** ["demand"] *)
  totalServiceableDemand : Q             (** ["totalServiceableDemand"] *)
}.

Definition set_sd (r : DemandRecord) (v : pyval) : DemandRecord :=
  mkDemandRecord r.(d_demand) v r.(d_coverage).
Definition set_dcov (r : DemandRecord) (cv : Dict.t (Dict.t Q)) : DemandRecord :=
  mkDemandRecord r.(d_demand) r.(serviceableDemand) cv.
Definition set_demand_rec (d : string) (r : DemandRecord) (c : Coverage) : Coverage :=
  mkCoverage c.(ctype) c.(cmode) c.(facilities) (Dict.set d r c.(demand))
    c.(totalServiceableDemand).
Definition set_facilities (f : Dict.t (Dict.t meta)) (c : Coverage) : Coverage :=
  mkCoverage c.(ctype) c.(cmode) f c.(demand) c.(totalServiceableDemand).
Definition set_total (t : Q) (c : Coverage) : Coverage :=
  mkCoverage c.(ctype) c.(cmode) c.(facilities) c.(demand) t.

(** ** [validate_coverage] *)

Definition validate_coverage (ty mode : string) (modes types : list string)
  : option pyerr :=
  if negb (existsb (String.eqb ty) types) then Some (ValueError "Expected types")
  else if negb (existsb (String.eqb mode) modes) then Some (ValueError "Expected modes")
  else None.

(** ** [update_serviceable_demand]

    The store is mutated in place; the result is the store as left by the
    call together with the exception it raised, if any.  [sd] is the
    second argument, read through [sd["demand"][id]["serviceableDemand"]]. *)

(** [total += v] *)
Definition py_add (acc : Q) (v : pyval) : result Q :=
  match v with
  | PyNum q => Ok (acc + q)
  | PyDict _ => Err (TypeError "unsupported operand type(s) for +=")
  end.

Fixpoint update_loop (ids : list string) (sd cov : Coverage) (total : Q)
  : Coverage * result Q :=
  match ids with
  | [] => (cov, Ok total)
  | d :: rest =>
      match Dict.get d sd.(demand) with
      | None => (cov, Err (KeyError d))
      | Some r' =>
          match Dict.get d cov.(demand) with
          | None => (cov, Err (KeyError d))
          | Some r =>
              let cov' := set_demand_rec d (set_sd r r'.(serviceableDemand)) cov in
              match py_add total r'.(serviceableDemand) with
              | Err e => (cov', Err e)
              | Ok total' => update_loop rest sd cov' total'
              end
          end
      end
  end.

Definition update_serviceable_demand (coverage sd : Coverage)
  : Coverage * option pyerr :=
  match update_loop (Dict.keys coverage.(demand)) sd coverage 0 with
  | (c, Ok total) => (set_total total c, None)
  | (c, Err e) => (c, Some e)
  end.

(** ** [merge_coverages] *)

(** Python [==] on facility dicts: same size, and every entry of one is
    an entry of the other. *)
Definition dict_eqb (a b : Dict.t meta) : bool :=
  Nat.eqb (length a) (length b) &&
  forallb (fun kv => match Dict.get (fst kv) b with
                     | Some v' => String.eqb (snd kv) v'
                     | None => false
                     end) a.

(** Python [==] on the [(name, facility dict)] items of ["facilities"] *)
Definition item_eqb (x y : string * Dict.t meta) : bool :=
  String.eqb (fst x) (fst y) && dict_eqb (snd x) (snd y).

(** Python [!=] on the sets of demand keys *)
Definition set_eqb (a b : list string) : bool :=
  forallb (fun k => existsb (String.eqb k) b) a &&
  forallb (fun k => existsb (String.eqb k) a) b.

(** [for facility_type in coverage["facilities"].items(): ...] *)
Fixpoint check_facility_items (items acc : list (string * Dict.t meta))
  : result (list (string * Dict.t meta)) :=
  match items with
  | [] => Ok acc
  | it :: r =>
      if existsb (item_eqb it) acc then Err (ValueError "Conflicting facility types")
      else check_facility_items r (acc ++ [it])
  end.

(** The first loop of [merge_coverages]; returns [coverage_type] and
    [demand_keys]. *)
Fixpoint merge_check (cs : list Coverage) (coverage_type : option string)
    (facility_types : list (string * Dict.t meta)) (demand_keys : list (list string))
  : result (option string * list (list string)) :=
  match cs with
  | [] => Ok (coverage_type, demand_keys)
  | c :: r =>
      let ct := match coverage_type with None => c.(ctype) | Some t => t end in
      match validate_coverage c.(ctype) c.(cmode) ["coverage"] [ct] with
      | Some e => Err e
      | None =>
          let? ft := check_facility_items c.(facilities) facility_types in
          merge_check r (Some ct) ft (demand_keys ++ [Dict.keys c.(demand)])
      end
  end.

Definition demand_keys_invalid (dk : list (list string)) : bool :=
  existsb (fun keys => existsb (fun keys2 => negb (set_eqb keys keys2)) dk) dk.

(** [for facility_type in coverage["facilities"].keys(): ...] *)
Definition merge_facilities (mf cf : Dict.t (Dict.t meta)) : Dict.t (Dict.t meta) :=
  fold_left (fun m tf =>
               let m1 := if Dict.mem (fst tf) m then m else Dict.set (fst tf) [] m in
               Dict.set (fst tf) (snd tf) m1) cf mf.

(** [master["demand"][demand]["coverage"][facility_type][fac] = ...] and the
    serviceable-demand update that follows it; [cd] is
    [coverage["demand"][demand]] of the store being merged in. *)
Definition merge_entry (coverage_type : string) (cd : DemandRecord) (d T : string)
    (master : Coverage) (fv : string * Q) : result Coverage :=
  let? r := getr d master.(demand) in
  let? mT := getr T r.(d_coverage) in
  let r1 := set_dcov r (Dict.set T (Dict.set (fst fv) (snd fv) mT) r.(d_coverage)) in
  let master1 := set_demand_rec d r1 master in
  if String.eqb coverage_type "Binary" && Qeq_bool (snd fv) 1 then
    let? sv := getr "demand" cd.(d_coverage) in
    let? r2 := getr d master1.(demand) in
    Ok (set_demand_rec d (set_sd r2 (PyDict sv)) master1)
  else Ok master1.

(** [for facility_type in coverage["demand"][demand]["coverage"].keys(): ...] *)
Definition merge_type (coverage_type : string) (cd : DemandRecord) (d : string)
    (master : Coverage) (tf : string * Dict.t Q) : result Coverage :=
  let? r := getr d master.(demand) in
  let master1 :=
    if Dict.mem (fst tf) r.(d_coverage) then master
    else set_demand_rec d (set_dcov r (Dict.set (fst tf) [] r.(d_coverage))) master in
  rfold (merge_entry coverage_type cd d (fst tf)) master1 (snd tf).

(** One iteration of [for c in coverages[1:]] *)
Definition merge_one (coverage_type : string) (master c : Coverage) : result Coverage :=
  let master1 := set_facilities (merge_facilities master.(facilities) c.(facilities)) master in
  rfold (fun m dr => rfold (merge_type coverage_type (snd dr) (fst dr)) m (snd dr).(d_coverage))
    master1 c.(demand).

(** [merge_coverages(coverages)]; the inputs are deep-copied, so they are
    values here. *)
Definition merge_coverages (coverages : list Coverage) : result Coverage :=
  let? chk := merge_check coverages None [] [] in
  if demand_keys_invalid (snd chk) then Err (ValueError "Demand Keys Invalid")
  else
    match coverages, fst chk with
    | c0 :: rest, Some coverage_type => rfold (merge_one coverage_type) c0 rest
    | _, _ => Err IndexError   (* [coverages[0]] of an empty list *)
    end.

(** ** pulp objects *)

Inductive LpCategory := LpInteger | LpContinuous.

(** The identity of a variable object: the dict of the builder that holds
    it and its key there ([demand_vars] with its name prefix,
    [facility_vars], [adtc_vars], or the dummy of [create_lscp_model]).
    pulp keys expressions by the variable object, not by its name. *)
Inductive vid :=
| VDemand (prefix d : string)
| VFac (ftype fid : string)
| VPair (key : string)
| VDummy (d : string).

Definition vid_eqb (a b : vid) : bool :=
  match a, b with
  | VDemand p d, VDemand p' d' => String.eqb p p' && String.eqb d d'
  | VFac t f, VFac t' f' => String.eqb t t' && String.eqb f f'
  | VPair k, VPair k' => String.eqb k k'
  | VDummy d, VDummy d' => String.eqb d d'
  | _, _ => false
  end.

(** [pulp.LpVariable(name, lowBound, upBound, cat)] *)
Record LpVariable := mkLpVariable {
  v_id : vid;
  v_name : string;
  lowBound : option Q;
  upBound : option Q;
  cat : LpCategory
}.

(** [pulp.LpAffineExpression]: an insertion-ordered map from variables to
    coefficients, and a constant. *)
Record LpAffineExpression := mkAff {
  terms : list (vid * Q);
  constant : Q
}.

Definition aff_empty : LpAffineExpression := mkAff [] 0.

(** [LpAffineExpression(v)] *)
Definition aff_var (v : LpVariable) : LpAffineExpression := mkAff [(v.(v_id), 1)] 0.

(** [addterm(key, value)] *)
Fixpoint addterm (ts : list (vid * Q)) (x : vid) (c : Q) : list (vid * Q) :=
  match ts with
  | [] => [(x, c)]
  | (y, c') :: r => if vid_eqb x y then (y, c' + c) :: r else (y, c') :: addterm r x c
  end.

(** [e.addInPlace(other, sign)] for an expression [other] *)
Definition aff_add (e o : LpAffineExpression) (sign : Q) : LpAffineExpression :=
  mkAff (fold_left (fun ts vc => addterm ts (fst vc) (snd vc * sign)) o.(terms) e.(terms))
        (e.(constant) + o.(constant) * sign).

(** [e.addInPlace(other, sign)] for a dict [other]: each of its values *)
Definition aff_add_values (e : LpAffineExpression) (o : Dict.t LpVariable) (sign : Q)
  : LpAffineExpression :=
  fold_left (fun acc kv => aff_add acc (aff_var (snd kv)) sign) o e.

(** [other * e] for a number [other]: the empty expression when it is 0 *)
Definition aff_scale (c : Q) (e : LpAffineExpression) : LpAffineExpression :=
  if Qeq_bool c 0 then aff_empty
  else mkAff (map (fun vc => (fst vc, c * snd vc)) e.(terms)) (e.(constant) * c).

(** [pulp.lpSum(list)] *)
Definition lpSum (l : list LpAffineExpression) : LpAffineExpression :=
  fold_left (fun acc e => aff_add acc e 1) l aff_empty.

Inductive LpConstraintSense := LpConstraintLE | LpConstraintGE | LpConstraintEQ.

(** [pulp.LpConstraint]: [expression (sense) 0] *)
Record LpConstraint := mkLpConstraint {
  c_expr : LpAffineExpression;
  c_sense : LpConstraintSense
}.

(** [e <= rhs], [e >= rhs], [e == rhs] *)
Definition cmp (e : LpAffineExpression) (s : LpConstraintSense) (rhs : Q) : LpConstraint :=
  mkLpConstraint (mkAff e.(terms) (e.(constant) - rhs)) s.

Inductive LpSense := LpMinimize | LpMaximize.

Record LpProblem := mkLpProblem {
  p_name : string;
  p_sense : LpSense;
  objective : LpAffineExpression;
  constraints : list (string * LpConstraint);
  lastUnused : nat
}.

(** [pulp.LpProblem(name, sense)] *)
Definition empty_problem (name : string) (s : LpSense) : LpProblem :=
  mkLpProblem name s aff_empty [] 0.

(** Constraint names: pulp replaces each of the characters [-+[] ] of a
    name by [_] ([LpAffineExpression.trans]). *)
Definition illegal_char (ch : ascii) : bool :=
  existsb (Ascii.eqb ch) ["-"; "+"; "["; "]"; " "]%char.

Fixpoint translate_name (s : string) : string :=
  match s with
  | EmptyString => EmptyString
  | String ch r => String (if illegal_char ch then "_"%char else ch) (translate_name r)
  end.

Fixpoint string_of_uint (d : Decimal.uint) : string :=
  match d with
  | Decimal.Nil => EmptyString
  | Decimal.D0 r => String "0" (string_of_uint r)
  | Decimal.D1 r => String "1" (string_of_uint r)
  | Decimal.D2 r => String "2" (string_of_uint r)
  | Decimal.D3 r => String "3" (string_of_uint r)
  | Decimal.D4 r => String "4" (string_of_uint r)
  | Decimal.D5 r => String "5" (string_of_uint r)
  | Decimal.D6 r => String "6" (string_of_uint r)
  | Decimal.D7 r => String "7" (string_of_uint r)
  | Decimal.D8 r => String "8" (string_of_uint r)
  | Decimal.D9 r => String "9" (string_of_uint r)
  end.

(** ["_C%d" % n] *)
Definition auto_name (n : nat) : string := "_C" ++ string_of_uint (Nat.to_uint n).

(** The loop of [unusedConstraintName] from [lastUnused + 1]; it ends
    within [length names + 1] steps. *)
Fixpoint unused_index (fuel n : nat) (names : list string) : nat :=
  match fuel with
  | O => n
  | S f => if existsb (String.eqb (auto_name n)) names then unused_index f (S n) names else n
  end.

(** ** The builder monad: state and exceptions *)

Record BState := mkBState {
  created : list LpVariable;     (** every [LpVariable] constructed, in order *)
  prob : LpProblem               (** the problem under construction *)
}.

(** Before [pulp.LpProblem(...)] is called, the problem slot is a
    placeholder. *)
Definition init_state : BState := mkBState [] (empty_problem EmptyString LpMinimize).

Definition M (A : Type) : Type := BState -> BState * result A.

Definition ret {A} (a : A) : M A := fun s => (s, Ok a).
Definition raise {A} (e : pyerr) : M A := fun s => (s, Err e).
Definition bind {A B} (m : M A) (k : A -> M B) : M B :=
  fun s => match m s with
           | (s', Ok a) => k a s'
           | (s', Err e) => (s', Err e)
           end.

Notation "x <- m ;; k" := (bind m (fun x => k))
  (at level 61, m at next level, right associativity).
Notation "m ;;; k" := (bind m (fun _ => k))
  (at level 61, right associativity).

Definition liftR {A} (r : result A) : M A :=
  match r with Ok a => ret a | Err e => raise e end.

(** [for x in l: acc = f(acc, x)] *)
Fixpoint foldM {A X} (f : A -> X -> M A) (a : A) (l : list X) : M A :=
  match l with
  | [] => ret a
  | x :: r => bind (f a x) (fun a' => foldM f a' r)
  end.

Definition forM_ {X} (l : list X) (f : X -> M unit) : M unit :=
  foldM (fun _ x => f x) tt l.

(** [pulp.LpVariable(name, low, up, cat)] *)
Definition new_var (i : vid) (name : string) (low up : option Q) (c : LpCategory)
  : M LpVariable :=
  fun s => let v := mkLpVariable i name low up c in
           (mkBState (s.(created) ++ [v]) s.(prob), Ok v).

(** [prob = pulp.LpProblem(name, sense)] *)
Definition new_problem (name : string) (sn : LpSense) : M unit :=
  fun s => (mkBState s.(created) (empty_problem name sn), Ok tt).

(** [prob += expression] *)
Definition set_objective (e : LpAffineExpression) : M unit :=
  fun s => let p := s.(prob) in
           (mkBState s.(created)
              (mkLpProblem p.(p_name) p.(p_sense) e p.(constraints) p.(lastUnused)), Ok tt).

(** [prob += constraint, name] ([name = None]: [prob += constraint]),
    i.e. [addConstraint], which refuses a name already in use. *)
Definition add_constraint (c : LpConstraint) (name : option string) : M unit :=
  fun s =>
    let p := s.(prob) in
    let names := map fst p.(constraints) in
    let '(nm, lu) :=
      match name with
      | Some n => (translate_name n, p.(lastUnused))
      | None => let i := unused_index (S (length names)) (S p.(lastUnused)) names in
                (auto_name i, i)
      end in
    if existsb (String.eqb nm) names
    then (s, Err (PulpError ("overlapping constraint names: " ++ nm)))
    else (mkBState s.(created)
            (mkLpProblem p.(p_name) p.(p_sense) p.(objective)
               (p.(constraints) ++ [(nm, c)]) lu), Ok tt).

Definition get_prob : M LpProblem := fun s => (s, Ok s.(prob)).

Definition getM {V} (k : string) (d : Dict.t V) : M V := liftR (getr k d).

(** ** Pieces shared by the builders *)

Definition validateM (ty mode : string) (modes types : list string) : M unit :=
  match validate_coverage ty mode modes types with
  | Some e => raise e
  | None => ret tt
  end.

(** [facility_vars[T][f]] *)
Definition get2 (T f : string) (fv : Dict.t (Dict.t LpVariable)) : M LpVariable :=
  m <- getM T fv ;; getM f m.

(** [demand_vars[id] = pulp.LpVariable(prefix + delineator + id, low, up, cat)]
    for every demand id *)
Definition make_demand_vars {X} (prefix delineator : string) (low up : option Q)
    (c : LpCategory) (ds : Dict.t X) : M (Dict.t LpVariable) :=
  foldM (fun acc dr =>
           v <- new_var (VDemand prefix (fst dr)) (prefix ++ delineator ++ fst dr) low up c ;;
           ret (Dict.set (fst dr) v acc)) [] ds.

(** [facility_vars[T] = {}; facility_vars[T][f] = pulp.LpVariable(T + delineator + f, 0, up, cat)] *)
Definition make_facility_vars (delineator : string) (up : option Q) (c : LpCategory)
    (facs : Dict.t (Dict.t meta)) : M (Dict.t (Dict.t LpVariable)) :=
  foldM (fun acc tf =>
           foldM (fun acc2 fm =>
                    v <- new_var (VFac (fst tf) (fst fm)) (fst tf ++ delineator ++ fst fm)
                           (Some 0) up c ;;
                    m <- getM (fst tf) acc2 ;;
                    ret (Dict.set (fst tf) (Dict.set (fst fm) v m) acc2))
                 (Dict.set (fst tf) [] acc) (snd tf)) [] facs.

(** [[facility_vars[T][f] for T in facilities for f in facilities[T]]] *)
Definition all_facility_terms (facs : Dict.t (Dict.t meta)) (fv : Dict.t (Dict.t LpVariable))
  : M (list LpAffineExpression) :=
  foldM (fun acc tf =>
           foldM (fun acc2 fm => v <- get2 (fst tf) (fst fm) fv ;; ret (acc2 ++ [aff_var v])%list)
                 acc (snd tf)) [] facs.

(** The summands of a coverage constraint: [facility_vars[T][f]], or
    [coverage[T][f] * facility_vars[T][f]] when [weighted]. *)
Definition coverage_terms (weighted : bool) (fv : Dict.t (Dict.t LpVariable))
    (cov : Dict.t (Dict.t Q)) : M (list LpAffineExpression) :=
  foldM (fun acc tf =>
           foldM (fun acc2 fq =>
                    v <- get2 (fst tf) (fst fq) fv ;;
                    ret (acc2 ++ [if weighted then aff_scale (snd fq) (aff_var v) else aff_var v])%list)
                 acc (snd tf)) [] cov.

(** [coverage_dict["demand"][id][demand_var]] *)
Definition raw_weight (demand_var : string) (r : DemandRecord) : pyval :=
  if String.eqb demand_var "serviceableDemand" then r.(serviceableDemand) else PyNum r.(d_demand).

(** The same value used as a number ([*], [+=]): a dict raises [TypeError]. *)
Definition weight (demand_var : string) (r : DemandRecord) : result Q :=
  match raw_weight demand_var r with
  | PyNum q => Ok q
  | PyDict _ => Err (TypeError "must be real number, not dict")
  end.

(** [e <= value] / [e >= value] for a value read from the store: pulp
    subtracts every value of a dict operand from the constant. *)
Definition cmp_val (e : LpAffineExpression) (s : LpConstraintSense) (v : pyval) : LpConstraint :=
  match v with
  | PyNum q => cmp e s q
  | PyDict m => mkLpConstraint (mkAff e.(terms) (fold_left (fun acc kv => acc - snd kv) m e.(constant))) s
  end.

(** [[coverage_dict["demand"][id][demand_var] * demand_vars[id] for id in ...]] *)
Definition weighted_demand_terms (demand_var : string) (ds : Dict.t DemandRecord)
    (demand_vars : Dict.t LpVariable) : M (list LpAffineExpression) :=
  foldM (fun acc dr =>
           w <- liftR (weight demand_var (snd dr)) ;;
           v <- getM (fst dr) demand_vars ;;
           ret (acc ++ [aff_scale w (aff_var v)])%list) [] ds.

(** ["NumTotalFacilities"] and ["Num" + T] *)
Definition facility_count_constraints (facs : Dict.t (Dict.t meta))
    (fv : Dict.t (Dict.t LpVariable)) (num_fac : Dict.t Q) : M unit :=
  to_sum <- all_facility_terms facs fv ;;
  total <- getM "total" num_fac ;;
  add_constraint (cmp (lpSum to_sum) LpConstraintLE total) (Some "NumTotalFacilities") ;;;
  forM_ facs (fun tf =>
    if Dict.mem (fst tf) num_fac && negb (String.eqb (fst tf) "total") then
      ts <- foldM (fun acc fm => v <- get2 (fst tf) (fst fm) fv ;; ret (acc ++ [aff_var v])%list)
              [] (snd tf) ;;
      n <- getM (fst tf) num_fac ;;
      add_constraint (cmp (lpSum ts) LpConstraintLE n) (Some ("Num" ++ fst tf))
    else ret tt).

(** [lpSum(to_sum) - 1 * var] *)
Definition sum_minus (to_sum : list LpAffineExpression) (v : LpVariable) : LpAffineExpression :=
  aff_add (lpSum to_sum) (aff_scale 1 (aff_var v)) (-1).

Definition demand_var_of (use_serviceable_demand : bool) : string :=
  if use_serviceable_demand then "serviceableDemand" else "demand".

(** [psi > 100.0 or psi < 0.0] *)
Definition out_of_range (lo hi x : Q) : bool :=
  negb (Qle_bool x hi) || negb (Qle_bool lo x).

(** ** [create_mclp_model] (no [model_file]) *)

Definition create_mclp_model (coverage_dict : Coverage) (num_fac : Dict.t Q)
    (delineator : string) (use_serviceable_demand : bool) : M LpProblem :=
  let demand_var := demand_var_of use_serviceable_demand in
  validateM coverage_dict.(ctype) coverage_dict.(cmode) ["coverage"] ["binary"] ;;;
  demand_vars <- make_demand_vars "Y" delineator (Some 0) (Some 1) LpInteger coverage_dict.(demand) ;;
  facility_vars <- make_facility_vars delineator (Some 1) LpInteger coverage_dict.(facilities) ;;
  new_problem "MCLP" LpMaximize ;;;
  obj <- weighted_demand_terms demand_var coverage_dict.(demand) demand_vars ;;
  set_objective (lpSum obj) ;;;
  forM_ coverage_dict.(demand) (fun dr =>
    to_sum <- coverage_terms false facility_vars (snd dr).(d_coverage) ;;
    y <- getM (fst dr) demand_vars ;;
    (* [pulp.lpSum(to_sum) - demand_vars[demand_id] >= 0] *)
    add_constraint (cmp (aff_add (lpSum to_sum) (aff_var y) (-1)) LpConstraintGE 0)
      (Some ("D" ++ fst dr))) ;;;
  facility_count_constraints coverage_dict.(facilities) facility_vars num_fac ;;;
  get_prob.

(** ** [create_mclp_cc_model] (no [model_file]) *)

Definition create_mclp_cc_model (coverage_dict : Coverage) (num_fac : Dict.t Q)
    (delineator : string) (use_serviceable_demand : bool) : M LpProblem :=
  let demand_var := demand_var_of use_serviceable_demand in
  validateM coverage_dict.(ctype) coverage_dict.(cmode) ["coverage"] ["partial"] ;;;
  demand_vars <- make_demand_vars "Y" delineator (Some 0) None LpContinuous coverage_dict.(demand) ;;
  facility_vars <- make_facility_vars delineator (Some 1) LpInteger coverage_dict.(facilities) ;;
  new_problem "MCLP" LpMaximize ;;;
  obj <- weighted_demand_terms demand_var coverage_dict.(demand) demand_vars ;;
  set_objective (lpSum obj) ;;;
  forM_ coverage_dict.(demand) (fun dr =>
    to_sum <- coverage_terms true facility_vars (snd dr).(d_coverage) ;;
    y <- getM (fst dr) demand_vars ;;
    add_constraint (cmp (sum_minus to_sum y) LpConstraintGE 0) (Some ("D" ++ fst dr)) ;;;
    add_constraint (cmp_val (aff_var y) LpConstraintLE (raw_weight demand_var (snd dr))) None) ;;;
  facility_count_constraints coverage_dict.(facilities) facility_vars num_fac ;;;
  get_prob.

(** ** [create_threshold_model] (no [model_file]) *)

Definition threshold_constraint (demand_var : string) (ds : Dict.t DemandRecord)
    (demand_vars : Dict.t LpVariable) (scale_weight : bool) (psi : Q) (name : option string)
  : M unit :=
  sum_demand <- foldM (fun acc dr => w <- liftR (weight demand_var (snd dr)) ;; ret (acc + w))
                  0 ds ;;
  to_sum <- foldM (fun acc dr =>
              (if Qeq_bool sum_demand 0 then raise ZeroDivisionError else ret tt) ;;;
              scaled_demand <-
                (if scale_weight
                 then w <- liftR (weight demand_var (snd dr)) ;; ret ((100 / sum_demand) * w)
                 else ret (100 / sum_demand)) ;;
              y <- getM (fst dr) demand_vars ;;
              ret (acc ++ [aff_scale scaled_demand (aff_var y)])%list) [] ds ;;
  add_constraint (cmp (lpSum to_sum) LpConstraintGE psi) name.

Definition create_threshold_model (coverage_dict : Coverage) (psi : Q)
    (delineator : string) (use_serviceable_demand : bool) : M LpProblem :=
  let demand_var := demand_var_of use_serviceable_demand in
  validateM coverage_dict.(ctype) coverage_dict.(cmode) ["coverage"] ["binary"] ;;;
  (if out_of_range 0 100 psi then raise (ValueError "psi weight must be between 100 and 0")
   else ret tt) ;;;
  demand_vars <- make_demand_vars "Y" delineator (Some 0) (Some 1) LpInteger coverage_dict.(demand) ;;
  facility_vars <- make_facility_vars delineator (Some 1) LpInteger coverage_dict.(facilities) ;;
  new_problem "ThresholdModel" LpMinimize ;;;
  obj <- all_facility_terms coverage_dict.(facilities) facility_vars ;;
  set_objective (lpSum obj) ;;;
  forM_ coverage_dict.(demand) (fun dr =>
    to_sum <- coverage_terms false facility_vars (snd dr).(d_coverage) ;;
    y <- getM (fst dr) demand_vars ;;
    add_constraint (cmp (sum_minus to_sum y) LpConstraintGE 0) (Some ("D" ++ fst dr))) ;;;
  threshold_constraint demand_var coverage_dict.(demand) demand_vars true psi None ;;;
  get_prob.

(** ** [create_cc_threshold_model] (no [model_file]) *)

Definition create_cc_threshold_model (coverage_dict : Coverage) (psi : Q)
    (delineator : string) (use_serviceable_demand : bool) : M LpProblem :=
  let demand_var := demand_var_of use_serviceable_demand in
  validateM coverage_dict.(ctype) coverage_dict.(cmode) ["coverage"] ["partial"] ;;;
  (if out_of_range 0 100 psi then raise (ValueError "psi weight must be between 100 and 0")
   else ret tt) ;;;
  demand_vars <- make_demand_vars "Y" delineator (Some 0) None LpContinuous coverage_dict.(demand) ;;
  facility_vars <- make_facility_vars delineator (Some 1) LpInteger coverage_dict.(facilities) ;;
  new_problem "ThresholdModel" LpMinimize ;;;
  obj <- all_facility_terms coverage_dict.(facilities) facility_vars ;;
  set_objective (lpSum obj) ;;;
  forM_ coverage_dict.(demand) (fun dr =>
    to_sum <- coverage_terms true facility_vars (snd dr).(d_coverage) ;;
    y <- getM (fst dr) demand_vars ;;
    add_constraint (cmp (sum_minus to_sum y) LpConstraintGE 0) (Some ("D" ++ fst dr)) ;;;
    add_constraint (cmp_val (aff_var y) LpConstraintLE (raw_weight demand_var (snd dr))) None) ;;;
  threshold_constraint demand_var coverage_dict.(demand) demand_vars false psi (Some "Threshold") ;;;
  get_prob.

(** ** [create_backup_model] (no [model_file]) *)

Definition create_backup_model (coverage_dict : Coverage) (num_fac : Dict.t Q)
    (delineator : string) (use_serviceable_demand : bool) : M LpProblem :=
  let demand_var := demand_var_of use_serviceable_demand in
  validateM coverage_dict.(ctype) coverage_dict.(cmode) ["coverage"] ["binary"] ;;;
  demand_vars <- make_demand_vars "U" delineator (Some 0) (Some 1) LpInteger coverage_dict.(demand) ;;
  facility_vars <- make_facility_vars delineator None LpInteger coverage_dict.(facilities) ;;
  new_problem "BCLP" LpMaximize ;;;
  obj <- weighted_demand_terms demand_var coverage_dict.(demand) demand_vars ;;
  set_objective (lpSum obj) ;;;
  forM_ coverage_dict.(demand) (fun dr =>
    to_sum <- coverage_terms false facility_vars (snd dr).(d_coverage) ;;
    u <- getM (fst dr) demand_vars ;;
    add_constraint (cmp (sum_minus to_sum u) LpConstraintGE 1) (Some ("D" ++ fst dr))) ;;;
  facility_count_constraints coverage_dict.(facilities) facility_vars num_fac ;;;
  get_prob.

(** ** [create_lscp_model] (no [model_file]) *)

(** [pulp.LpVariable("__dummy{}{}".format(delineator, demand_id), 0, 0, pulp.LpInteger)] *)
Definition lscp_dummy (delineator d : string) : LpVariable :=
  mkLpVariable (VDummy d) ("__dummy" ++ delineator ++ d) (Some 0) (Some 0) LpInteger.

Definition create_lscp_model (coverage_dict : Coverage) (delineator : string) : M LpProblem :=
  validateM coverage_dict.(ctype) coverage_dict.(cmode) ["coverage"] ["binary"] ;;;
  demand_vars <- make_demand_vars "Y" delineator (Some 0) (Some 1) LpInteger coverage_dict.(demand) ;;
  facility_vars <- make_facility_vars delineator (Some 1) LpInteger coverage_dict.(facilities) ;;
  new_problem "LSCP" LpMinimize ;;;
  obj <- all_facility_terms coverage_dict.(facilities) facility_vars ;;
  set_objective (lpSum obj) ;;;
  forM_ coverage_dict.(demand) (fun dr =>
    to_sum <- coverage_terms false facility_vars (snd dr).(d_coverage) ;;
    to_sum <- (match to_sum with
               | [] => let dv := lscp_dummy delineator (fst dr) in
                       v <- new_var dv.(v_id) dv.(v_name) dv.(lowBound) dv.(upBound) dv.(cat) ;;
                       ret [aff_var v]
               | _ => ret to_sum
               end) ;;
    add_constraint (cmp (lpSum to_sum) LpConstraintGE 1) (Some ("D" ++ fst dr))) ;;;
  get_prob.

(** ** [create_bclpcc_model] (no [model_file]) *)

Definition create_bclpcc_model (coverage_dict : Coverage) (num_fac : Dict.t Q) (backup_weight : Q)
    (delineator : string) (use_serviceable_demand : bool) : M LpProblem :=
  let demand_var := demand_var_of use_serviceable_demand in
  validateM coverage_dict.(ctype) coverage_dict.(cmode) ["coverage"] ["partial"] ;;;
  (if out_of_range 0 1 backup_weight then raise (ValueError "Backup weight must be between 0 and 1")
   else ret tt) ;;;
  let primary_weight := 1 - backup_weight in
  vars <- foldM (fun acc dr =>
            let d := fst dr in
            w <- new_var (VDemand "W" d) ("W" ++ delineator ++ d) (Some 0) None LpContinuous ;;
            y <- new_var (VDemand "Y" d) ("Y" ++ delineator ++ d) None None LpContinuous ;;
            z <- new_var (VDemand "Z" d) ("Z" ++ delineator ++ d) (Some 0) None LpContinuous ;;
            ret (Dict.set d w (fst (fst acc)), Dict.set d y (snd (fst acc)), Dict.set d z (snd acc)))
          ([], [], []) coverage_dict.(demand) ;;
  let primary_vars := fst (fst vars) in
  let backup_vars := snd (fst vars) in
  let overall_vars := snd vars in
  facility_vars <- make_facility_vars delineator None LpInteger coverage_dict.(facilities) ;;
  new_problem "BCLPCC" LpMaximize ;;;
  obj <- foldM (fun acc dr =>
           y <- getM (fst dr) backup_vars ;;
           w <- getM (fst dr) primary_vars ;;
           ret (acc ++ [aff_add (aff_scale backup_weight (aff_var y))
                                (aff_scale primary_weight (aff_var w)) 1])%list) [] coverage_dict.(demand) ;;
  set_objective (lpSum obj) ;;;
  forM_ coverage_dict.(demand) (fun dr =>
    let d := fst dr in
    let wt := raw_weight demand_var (snd dr) in
    to_sum <- coverage_terms true facility_vars (snd dr).(d_coverage) ;;
    z <- getM d overall_vars ;;
    add_constraint (cmp (sum_minus to_sum z) LpConstraintGE 0) (Some ("D" ++ d)) ;;;
    w <- getM d primary_vars ;;
    add_constraint (cmp_val (aff_var w) LpConstraintLE wt) (Some ("primarydemand" ++ d)) ;;;
    (* [primary_vars[demand_id] - overall_vars <= ...]: the whole dict *)
    add_constraint (cmp_val (aff_add_values (aff_var w) overall_vars (-1)) LpConstraintLE wt)
      (Some ("primaryoverall" ++ d)) ;;;
    y <- getM d backup_vars ;;
    add_constraint (cmp_val (aff_add (aff_var z) (aff_var y) (-1)) LpConstraintGE wt)
      (Some ("overallbackup" ++ d)) ;;;
    w2 <- liftR (weight demand_var (snd dr)) ;;
    add_constraint (cmp (aff_var z) LpConstraintLE (2 * w2)) (Some ("overalldemand" ++ d))) ;;;
  facility_count_constraints coverage_dict.(facilities) facility_vars num_fac ;;;
  get_prob.

(** ** [create_traumah_model] (no [model_file])

    A TraumaH coverage dict: the coverage of a demand unit lists, under
    ["TraumaCenter"], dicts [{"TraumaCenter": id}] and, under ["ADTCPair"],
    dicts [{"AirDepot": id, "TraumaCenter": id}]. *)

Record TraumaDemand := mkTraumaDemand {
  t_demand : Q;                          (** ["demand"] *)
  tc_coverage : list (Dict.t string);    (** [["coverage"]["TraumaCenter"]] *)
  adtc_coverage : list (Dict.t string)   (** [["coverage"]["ADTCPair"]] *)
}.

Record TraumaCoverage := mkTraumaCoverage {
  ttype : string;
  tmode : string;
  tfacilities : Dict.t (Dict.t meta);
  tdemand : Dict.t TraumaDemand
}.

(** [s.split(sep)] for a one-character separator *)
Fixpoint split_char (sep : ascii) (s : string) : list string :=
  match s with
  | EmptyString => [EmptyString]
  | String ch r =>
      if Ascii.eqb ch sep then EmptyString :: split_char sep r
      else match split_char sep r with
           | w :: ws => String ch w :: ws
           | [] => [String ch EmptyString]
           end
  end.

(** [l[i]] *)
Definition py_index {A} (l : list A) (i : nat) : M A :=
  match nth_error l i with Some a => ret a | None => raise IndexError end.

(** ["Z{}{}{}{}".format(delineator, ad_id, delineator, tc_id)] *)
Definition adtc_key (delineator ad_id tc_id : string) : string :=
  "Z" ++ delineator ++ ad_id ++ delineator ++ tc_id.

(** [facility_vars[T][adtc_id.split("$")[i]]] *)
Definition pair_endpoint (facility_vars : Dict.t (Dict.t LpVariable)) (T adtc_id : string) (i : nat)
  : M LpVariable :=
  m <- getM T facility_vars ;;
  k <- py_index (split_char "$"%char adtc_id) i ;;
  getM k m.

Definition create_traumah_model (coverage_dict : TraumaCoverage) (num_ad num_tc : Z)
    (delineator : string) : M LpProblem :=
  validateM coverage_dict.(ttype) coverage_dict.(tmode) ["coverage"] ["traumah"] ;;;
  vars <- foldM (fun acc dr =>
            let d := fst dr in
            y <- new_var (VDemand "Y" d) ("Y" ++ delineator ++ d) (Some 0) (Some 1) LpInteger ;;
            v <- new_var (VDemand "V" d) ("V" ++ delineator ++ d) (Some 0) (Some 1) LpInteger ;;
            u <- new_var (VDemand "U" d) ("U" ++ delineator ++ d) (Some 0) (Some 1) LpInteger ;;
            ret (Dict.set d y (fst (fst acc)), Dict.set d v (snd (fst acc)), Dict.set d u (snd acc)))
          ([], [], []) coverage_dict.(tdemand) ;;
  let demand_vars := fst (fst vars) in
  let ground_vars := snd (fst vars) in
  let air_vars := snd vars in
  facility_vars <- make_facility_vars delineator (Some 1) LpInteger coverage_dict.(tfacilities) ;;
  ads <- getM "AirDepot" coverage_dict.(tfacilities) ;;
  adtc_vars <- foldM (fun acc am =>
                 tcs <- getM "TraumaCenter" coverage_dict.(tfacilities) ;;
                 foldM (fun acc2 tm =>
                          let key := adtc_key delineator (fst am) (fst tm) in
                          z <- new_var (VPair key) key (Some 0) (Some 1) LpInteger ;;
                          ret (Dict.set key z acc2)) acc tcs) [] ads ;;
  new_problem "TRAUMAH" LpMaximize ;;;
  obj <- foldM (fun acc dr =>
           y <- getM (fst dr) demand_vars ;;
           ret (acc ++ [aff_scale (snd dr).(t_demand) (aff_var y)])%list) [] coverage_dict.(tdemand) ;;
  set_objective (lpSum obj) ;;;
  ads <- getM "AirDepot" coverage_dict.(tfacilities) ;;
  num_ad_sum <- foldM (fun acc am => v <- get2 "AirDepot" (fst am) facility_vars ;;
                                     ret (acc ++ [aff_var v])%list) [] ads ;;
  add_constraint (cmp (lpSum num_ad_sum) LpConstraintEQ (inject_Z num_ad)) (Some "NumAirDepot") ;;;
  tcs <- getM "TraumaCenter" coverage_dict.(tfacilities) ;;
  num_tc_sum <- foldM (fun acc tm => v <- get2 "TraumaCenter" (fst tm) facility_vars ;;
                                     ret (acc ++ [aff_var v])%list) [] tcs ;;
  add_constraint (cmp (lpSum num_tc_sum) LpConstraintEQ (inject_Z num_tc)) (Some "NumTraumaCenter") ;;;
  (* ground air logical conditions *)
  forM_ coverage_dict.(tdemand) (fun dr =>
    y <- getM (fst dr) demand_vars ;;
    v <- getM (fst dr) ground_vars ;;
    u <- getM (fst dr) air_vars ;;
    add_constraint (cmp (aff_add (aff_add (aff_var y) (aff_var v) (-1)) (aff_var u) (-1))
                      LpConstraintLE 0) (Some ("AIR_GROUND_" ++ fst dr))) ;;;
  (* ground constraints *)
  forM_ coverage_dict.(tdemand) (fun dr =>
    to_sum <- foldM (fun acc tc => k <- getM "TraumaCenter" tc ;;
                                   fvar <- get2 "TraumaCenter" k facility_vars ;;
                                   ret (acc ++ [aff_var fvar])%list) [] (snd dr).(tc_coverage) ;;
    v <- getM (fst dr) ground_vars ;;
    add_constraint (cmp (aff_add (aff_var v) (lpSum to_sum) (-1)) LpConstraintLE 0)
      (Some ("GND_" ++ fst dr))) ;;;
  (* air constraints *)
  forM_ coverage_dict.(tdemand) (fun dr =>
    to_sum <- foldM (fun acc adtc_pair =>
                       ad_id <- getM "AirDepot" adtc_pair ;;
                       tc_id <- getM "TraumaCenter" adtc_pair ;;
                       z <- getM (adtc_key delineator ad_id tc_id) adtc_vars ;;
                       ret (acc ++ [aff_var z])%list) [] (snd dr).(adtc_coverage) ;;
    u <- getM (fst dr) air_vars ;;
    add_constraint (cmp (aff_add (aff_var u) (lpSum to_sum) (-1)) LpConstraintLE 0)
      (Some ("AIR_" ++ fst dr))) ;;;
  (* ground and air logical constraints of each pair *)
  forM_ adtc_vars (fun kz =>
    let adtc_id := fst kz in
    z <- getM adtc_id adtc_vars ;;
    tc <- pair_endpoint facility_vars "TraumaCenter" adtc_id 2 ;;
    add_constraint (cmp (aff_add (aff_var z) (aff_var tc) (-1)) LpConstraintLE 0)
      (Some ("GND_" ++ adtc_id)) ;;;
    z' <- getM adtc_id adtc_vars ;;
    ad <- pair_endpoint facility_vars "AirDepot" adtc_id 1 ;;
    add_constraint (cmp (aff_add (aff_var z') (aff_var ad) (-1)) LpConstraintLE 0)
      (Some ("AIR_" ++ adtc_id))) ;;;
  get_prob.

(** ** Reading a problem: assignments, feasibility, lookups *)

(** The value of an affine expression under an assignment [sigma]. *)
Definition eval_aff (sigma : vid -> Q) (e : LpAffineExpression) : Q :=
  fold_right (fun vc acc => snd vc * sigma (fst vc) + acc) e.(constant) e.(terms).

Definition sat_b (sigma : vid -> Q) (c : LpConstraint) : bool :=
  match c.(c_sense) with
  | LpConstraintLE => Qle_bool (eval_aff sigma c.(c_expr)) 0
  | LpConstraintGE => Qle_bool 0 (eval_aff sigma c.(c_expr))
  | LpConstraintEQ => Qeq_bool (eval_aff sigma c.(c_expr)) 0
  end.

Definition is_integral (q : Q) : bool := Qeq_bool (inject_Z (Qfloor q)) q.

(** Bounds and category of a variable. *)
Definition var_ok_b (sigma : vid -> Q) (v : LpVariable) : bool :=
  match v.(lowBound) with Some l => Qle_bool l (sigma v.(v_id)) | None => true end &&
  match v.(upBound) with Some u => Qle_bool (sigma v.(v_id)) u | None => true end &&
  match v.(cat) with LpInteger => is_integral (sigma v.(v_id)) | LpContinuous => true end.

(** [sigma] satisfies every constraint of [p] and the bounds of the
    variables [vs]. *)
Definition feasible (p : LpProblem) (vs : list LpVariable) (sigma : vid -> Q) : bool :=
  forallb (fun nc => sat_b sigma (snd nc)) p.(constraints) && forallb (var_ok_b sigma) vs.

(** The siting variables of the facilities covering a demand unit. *)
Definition covering_vids (cov : Dict.t (Dict.t Q)) : list vid :=
  flat_map (fun tf => map (fun fq => VFac (fst tf) (fst fq)) (snd tf)) cov.

Definition cover_sum (sigma : vid -> Q) (cov : Dict.t (Dict.t Q)) : Q :=
  fold_right (fun v acc => sigma v + acc) 0 (covering_vids cov).

(** Number of covering facilities sited (value at least 1). *)
Definition sited_count (sigma : vid -> Q) (cov : Dict.t (Dict.t Q)) : nat :=
  length (filter (fun v => Qle_bool 1 (sigma v)) (covering_vids cov)).

(** [store["demand"][d]["coverage"][T]] *)
Definition lookup_cov (d T : string) (c : Coverage) : option (Dict.t Q) :=
  match Dict.get d c.(demand) with
  | Some r => Dict.get T r.(d_coverage)
  | None => None
  end.

(** [store["demand"][d]["serviceableDemand"]] *)
Definition sd_of (d : string) (c : Coverage) : option pyval :=
  option_map serviceableDemand (Dict.get d c.(demand)).

(** ** Concrete inputs *)

(** Partial coverage, two demand units covered by one facility. *)
Definition ex_partial : Coverage :=
  mkCoverage "partial" "coverage" [("F", [("f1", "site 1")])]
    [("a", mkDemandRecord 10 (PyNum 10) [("F", [("f1", 1#2)])]);
     ("b", mkDemandRecord 20 (PyNum 20) [("F", [("f1", 1)])])] 30.

(** Two stores defining facility type ["T"], with different or equal metadata. *)
Definition ex_store_T (m : meta) : Coverage :=
  mkCoverage "binary" "coverage" [("T", [("f1", m)])]
    [("d", mkDemandRecord 10 (PyNum 10) [])] 10.

(** Two binary stores; the second covers ["d"] and has a different
    serviceable demand. *)
Definition ex_bin_A (ty : string) : Coverage :=
  mkCoverage ty "coverage" [("TA", [("a1", "site a1")])]
    [("d", mkDemandRecord 10 (PyNum 0) [])] 0.
Definition ex_bin_B (ty : string) : Coverage :=
  mkCoverage ty "coverage" [("TB", [("b1", "site b1")])]
    [("d", mkDemandRecord 10 (PyNum 10) [("TB", [("b1", 1)])])] 10.

(** Two partial stores with disjoint facility types and different
    serviceable demand for ["d"]. *)
Definition ex_par_A : Coverage :=
  mkCoverage "partial" "coverage" [("TA", [("a1", "site a1")])]
    [("d", mkDemandRecord 10 (PyNum 4) [("TA", [("a1", 1#2)])])] 4.
Definition ex_par_B : Coverage :=
  mkCoverage "partial" "coverage" [("TB", [("b1", "site b1")])]
    [("d", mkDemandRecord 10 (PyNum 6) [("TB", [("b1", 1#2)])])] 6.

(** A store with two demand units and an update missing the second. *)
Definition ex_upd_store : Coverage :=
  mkCoverage "binary" "coverage" [("F", [("f1", "site 1")])]
    [("a", mkDemandRecord 1 (PyNum 1) []); ("b", mkDemandRecord 1 (PyNum 1) [])] 2.
Definition ex_upd_sd : Coverage :=
  mkCoverage "binary" "coverage" [("F", [("f1", "site 1")])]
    [("a", mkDemandRecord 1 (PyNum 5) [])] 5.

(** One facility covering one demand unit; [total = 2]. *)
Definition ex_backup : Coverage :=
  mkCoverage "binary" "coverage" [("F", [("f1", "site 1")])]
    [("d", mkDemandRecord 10 (PyNum 10) [("F", [("f1", 1)])])] 10.

(** The facility sited twice (value 2) and the backup indicator at 1. *)
Definition ex_backup_sigma (v : vid) : Q :=
  match v with
  | VFac _ _ => 2
  | VDemand _ _ => 1
  | _ => 0
  end.

(** No demand units at all. *)
Definition ex_no_demand (ty : string) : Coverage :=
  mkCoverage ty "coverage" [("F", [("f1", "site 1")])] [] 0.

(** One air depot, one trauma center, one demand unit reachable both ways. *)
Definition ex_traumah : TraumaCoverage :=
  mkTraumaCoverage "traumah" "coverage"
    [("AirDepot", [("a1", "depot 1")]); ("TraumaCenter", [("t1", "center 1")])]
    [("d1", mkTraumaDemand 5 [[("TraumaCenter", "t1")]]
                             [[("AirDepot", "a1"); ("TraumaCenter", "t1")]])].

Definition ex_lscp_empty : Coverage :=
  mkCoverage "binary" "coverage" [("F", [("f1", "site 1")])]
    [("a", mkDemandRecord 1 (PyNum 1) [("F", [("f1", 1)])]);
     ("b", mkDemandRecord 1 (PyNum 1) [])] 2.

Definition ex_zero_weight (ty : string) : Coverage :=
  mkCoverage ty "coverage" [("F", [("f1", "site 1")])]
    [("a", mkDemandRecord 0 (PyNum 0) [("F", [("f1", 1)])])] 0.

(** ** Reasoning predicates *)

(** [wpe m Q E s]: run from [s], [m] either returns [a] in a state
    satisfying [Q a], or raises [e] in a state satisfying [E e]. *)
Definition wpe {A} (m : M A) (Q : A -> BState -> Prop) (E : pyerr -> BState -> Prop)
  (s : BState) : Prop :=
  match m s with
  | (s', Ok a) => Q a s'
  | (s', Err e) => E e s'
  end.

Definition no_range_error {A} (m : M A) : Prop :=
  forall s, wpe m (fun _ _ => True)
              (fun e _ => e <> ValueError "psi weight must be between 100 and 0") s.

Definition ext (s s' : BState) : Prop :=
  (exists l, s'.(created) = (s.(created) ++ l)%list) /\
  (exists l, s'.(prob).(constraints) = (s.(prob).(constraints) ++ l)%list).

Definition ext_m {A} (m : M A) : Prop :=
  forall s, wpe m (fun _ s' => ext s s') (fun _ _ => True) s.

Definition fv_labelled (fv : Dict.t (Dict.t LpVariable)) : Prop :=
  forall T mv f v, Dict.get T fv = Some mv -> Dict.get f mv = Some v -> v.(v_id) = VFac T f.

Definition fv_complete (facs : Dict.t (Dict.t meta)) (fv : Dict.t (Dict.t LpVariable)) : Prop :=
  forall T fs f, In (T, fs) facs -> In f (Dict.keys fs) ->
    exists mv v, Dict.get T fv = Some mv /\ Dict.get f mv = Some v.

Definition cover_terms (weighted : bool) (cov : Dict.t (Dict.t Q)) : list LpAffineExpression :=
  flat_map (fun tf => map (fun fq => let e := mkAff [(VFac (fst tf) (fst fq), 1)] 0 in
                                     if weighted then aff_scale (snd fq) e else e) (snd tf)) cov.

Definition coverage_refs_ok (c : Coverage) : Prop :=
  forall d r T fq f, In (d, r) c.(demand) -> In (T, fq) r.(d_coverage) -> In f (Dict.keys fq) ->
    exists fs, In (T, fs) c.(facilities) /\ In f (Dict.keys fs).

Definition weight_sum (demand_var : string) (ds : Dict.t DemandRecord) : Q :=
  fold_right (fun dr acc => match raw_weight demand_var (snd dr) with
                            | PyNum q => q
                            | PyDict _ => 0
                            end + acc) 0 ds.

Definition d_names (pre : Dict.t DemandRecord) (p : LpProblem) : Prop :=
  forall nm, In nm (map fst p.(constraints)) ->
    In nm (map (fun dr => translate_name ("D" ++ fst dr)%string) pre) \/
    exists k, nm = auto_name k /\ (k <= p.(lastUnused))%nat.

Definition store_ok (c : Coverage) : Prop :=
  NoDup (Dict.keys c.(facilities)) /\ NoDup (Dict.keys c.(demand)) /\
  forall d r, In (d, r) c.(demand) ->
    NoDup (Dict.keys r.(d_coverage)) /\
    forall T fq, In (T, fq) r.(d_coverage) -> In T (Dict.keys c.(facilities)) /\ NoDup (Dict.keys fq).

(** ** Reading the built problems *)

(** The value of a number read from the store; a dict counts 0. *)
Definition num_or_zero (v : pyval) : Q :=
  match v with PyNum q => q | PyDict _ => 0 end.

(** The siting variables of all facilities of a store, in store order. *)
Definition facility_vids (facs : Dict.t (Dict.t meta)) : list vid :=
  flat_map (fun tf => map (fun fm => VFac (fst tf) (fst fm)) (snd tf)) facs.

(** [sum sigma(v)] over a list of variables. *)
Definition vsum (sigma : vid -> Q) (l : list vid) : Q :=
  fold_right (fun v acc => sigma v + acc) 0 l.

(** [sum coverage[T][f] * x_T_f] over the facilities covering a demand unit. *)
Definition weighted_cover_sum (sigma : vid -> Q) (cov : Dict.t (Dict.t Q)) : Q :=
  fold_right (fun tf acc => fold_right (fun fq acc2 => snd fq * sigma (VFac (fst tf) (fst fq)) + acc2)
                              0 (snd tf) + acc) 0 cov.

(** [sum w_d * sigma(prefix_d)] over the demand units. *)
Definition demand_value (sigma : vid -> Q) (demand_var prefix : string) (ds : Dict.t DemandRecord) : Q :=
  fold_right (fun dr acc => num_or_zero (raw_weight demand_var (snd dr)) *
                            sigma (VDemand prefix (fst dr)) + acc) 0 ds.

(** The facility-count rows of a problem. *)
Definition facility_limits (facs : Dict.t (Dict.t meta)) (num_fac : Dict.t Q) (p : LpProblem) : Prop :=
  (exists total, Dict.get "total" num_fac = Some total /\
     In ("NumTotalFacilities", cmp (lpSum (map (fun i => mkAff [(i, 1)] 0) (facility_vids facs)))
                                  LpConstraintLE total) p.(constraints)) /\
  (forall T fs, In (T, fs) facs -> Dict.mem T num_fac = true -> T <> "total" ->
     exists n, Dict.get T num_fac = Some n /\
       In (translate_name ("Num" ++ T), cmp (lpSum (map (fun i => mkAff [(i, 1)] 0) (facility_vids [(T, fs)])))
                                          LpConstraintLE n) p.(constraints)).

(** [s'] extends [s] (variables and rows) and has the same objective and sense. *)
Definition keeps (s s' : BState) : Prop :=
  ext s s' /\ s'.(prob).(objective) = s.(prob).(objective) /\ s'.(prob).(p_sense) = s.(prob).(p_sense).

(** On success, [m] only extends the state and keeps objective and sense. *)
Definition keeps_m {A} (m : M A) : Prop :=
  forall s, wpe m (fun _ s' => keeps s s') (fun _ _ => True) s.

(** [demand_vars[d]] of [create_mclp_model] and [create_threshold_model]. *)
Definition mclp_Y (delin d : string) : LpVariable :=
  mkLpVariable (VDemand "Y" d) ("Y" ++ delin ++ d)%string (Some 0) (Some 1) LpInteger.

(** What the facility-count rows impose on every feasible assignment. *)
Definition facility_bounds (facs : Dict.t (Dict.t meta)) (num_fac : Dict.t Q) (p : LpProblem)
    (vs : list LpVariable) : Prop :=
  (exists total, Dict.get "total" num_fac = Some total /\
     forall sigma, feasible p vs sigma = true -> vsum sigma (facility_vids facs) <= total) /\
  (forall T fs, In (T, fs) facs -> Dict.mem T num_fac = true -> T <> "total" ->
     exists n, Dict.get T num_fac = Some n /\
       forall sigma, feasible p vs sigma = true -> vsum sigma (facility_vids [(T, fs)]) <= n).

(** [demand_vars[d]] of [create_mclp_cc_model] and [create_cc_threshold_model]. *)
Definition mclp_cc_Y (delin d : string) : LpVariable :=
  mkLpVariable (VDemand "Y" d) ("Y" ++ delin ++ d)%string (Some 0) None LpContinuous.

(** [sum sigma(prefix_d)] over the demand units. *)
Definition demand_sum (sigma : vid -> Q) (prefix : string) (ds : Dict.t DemandRecord) : Q :=
  fold_right (fun dr acc => sigma (VDemand prefix (fst dr)) + acc) 0 ds.

(** On every state, [m] does not raise [e0]. *)
Definition avoids {A} (e0 : pyerr) (m : M A) : Prop :=
  forall s, wpe m (fun _ _ => True) (fun e _ => e <> e0) s.


(** [b] has the type, mode and [totalServiceableDemand] of [a]. *)
Definition same_header (a b : Coverage) : Prop :=
  b.(ctype) = a.(ctype) /\ b.(cmode) = a.(cmode) /\ b.(totalServiceableDemand) = a.(totalServiceableDemand).

(** [sum demand_d * sigma(Y_d)] over the demand units of a TraumaH store. *)
Definition trauma_objective (sigma : vid -> Q) (ds : Dict.t TraumaDemand) : Q :=
  fold_right (fun dr acc => (snd dr).(t_demand) * sigma (VDemand "Y" (fst dr)) + acc) 0 ds.

(** [demand_vars[d]], [ground_vars[d]] and [air_vars[d]] of [create_traumah_model]. *)
Definition trauma_var (prefix delin d : string) : LpVariable :=
  mkLpVariable (VDemand prefix d) (prefix ++ delin ++ d) (Some 0) (Some 1) LpInteger.

(** * Properties *)

(** Running a builder on a concrete input: name its final state and problem. *)
Ltac exists_run :=
  lazymatch goal with
  | |- exists s p, ?m ?s0 = (s, Ok p) /\ _ =>
      let r := eval vm_compute in (m s0) in
      lazymatch r with
      | (?s', Ok ?p') => exists s', p'; split; [vm_compute; reflexivity | ]
      end
  end.

Ltac exists_merge :=
  lazymatch goal with
  | |- exists M, ?e = Ok M /\ _ =>
      let r := eval vm_compute in e in
      lazymatch r with
      | Ok ?m => exists m; split; [vm_compute; reflexivity | ]
      end
  end.

(** ** Concrete runs *)

(** C1 (code_bug): in [create_bclpcc_model], the ["primaryoverall"] row of
    demand ["a"] subtracts the overall variable of every demand unit
    (["a"] and ["b"]), not only [Z$a]: [W$a - Z$a - Z$b <= 10]. *)
Theorem bclpcc_primaryoverall_subtracts_all :
  exists s p,
    create_bclpcc_model ex_partial [("total", 1)] (1#2) "$" false init_state = (s, Ok p) /\
    Dict.get "primaryoveralla" p.(constraints) =
      Some (mkLpConstraint
              (mkAff [(VDemand "W" "a", 1); (VDemand "Z" "a", -1); (VDemand "Z" "b", -1)] (-10))
              LpConstraintLE).
Proof. exists_run. vm_compute. reflexivity. Qed.

(** C5 (code_bug): with the delineator ["#"], [create_traumah_model] raises
    [IndexError] while adding the pair constraints, because it splits the
    pair keys on ["$"]; with ["$"] the same input yields both pair rows. *)
Theorem traumah_pair_rows_need_dollar :
  snd (create_traumah_model ex_traumah 1 1 "#" init_state) = Err IndexError /\
  exists s p,
    create_traumah_model ex_traumah 1 1 "$" init_state = (s, Ok p) /\
    Dict.get "GND_Z$a1$t1" p.(constraints) =
      Some (mkLpConstraint (mkAff [(VPair "Z$a1$t1", 1); (VFac "TraumaCenter" "t1", -1)] 0)
              LpConstraintLE) /\
    Dict.get "AIR_Z$a1$t1" p.(constraints) =
      Some (mkLpConstraint (mkAff [(VPair "Z$a1$t1", 1); (VFac "AirDepot" "a1", -1)] 0)
              LpConstraintLE).
Proof.
  split; [vm_compute; reflexivity |].
  exists_run. split; vm_compute; reflexivity.
Qed.

(** C2 (code_bug): two stores sharing the facility type ["T"] are merged
    without error when their metadata differ (the second silently replaces
    the first); only identical metadata raise "Conflicting facility types". *)
Theorem merge_shared_type_needs_equal_metadata :
  (exists M, merge_coverages [ex_store_T "depot"; ex_store_T "hospital"] = Ok M /\
             Dict.get "T" M.(facilities) = Some [("f1", "hospital")]) /\
  merge_coverages [ex_store_T "depot"; ex_store_T "depot"] =
    Err (ValueError "Conflicting facility types").
Proof. split; [exists_merge; vm_compute; reflexivity | vm_compute; reflexivity]. Qed.

(** C3 (code_bug): merging binary stores never overwrites the serviceable
    demand: for stores tagged ["binary"] (the tag the builders accept) the
    merged ["d"] keeps the first store's value 0 although the second store
    covers ["d"] with value 10; for stores tagged ["Binary"] the merge
    raises [KeyError "demand"]. *)
Theorem merge_binary_serviceable_demand :
  (exists M, merge_coverages [ex_bin_A "binary"; ex_bin_B "binary"] = Ok M /\
             sd_of "d" M = Some (PyNum 0)) /\
  merge_coverages [ex_bin_A "Binary"; ex_bin_B "Binary"] = Err (KeyError "demand").
Proof. split; [exists_merge; vm_compute; reflexivity | vm_compute; reflexivity]. Qed.

(** C4 (counterexample): [merge([A, B])] and [merge([B, A])] give demand
    ["d"] different serviceable demands (4 and 6). *)
Lemma merge_order_changes_serviceable_demand :
  exists M1 M2,
    merge_coverages [ex_par_A; ex_par_B] = Ok M1 /\
    merge_coverages [ex_par_B; ex_par_A] = Ok M2 /\
    sd_of "d" M1 <> sd_of "d" M2.
Proof.
  exists (match merge_coverages [ex_par_A; ex_par_B] with Ok m => m | Err _ => ex_par_A end),
         (match merge_coverages [ex_par_B; ex_par_A] with Ok m => m | Err _ => ex_par_A end).
  split; [vm_compute; reflexivity | split; [vm_compute; reflexivity |]].
  vm_compute. discriminate.
Qed.

(** C6 (counterexample): an update missing demand ["b"] fails with
    [KeyError "b"] after overwriting the serviceable demand of ["a"]. *)
Lemma update_missing_id_leaves_partial_update :
  exists c',
    update_serviceable_demand ex_upd_store ex_upd_sd = (c', Some (KeyError "b")) /\
    sd_of "a" c' = Some (PyNum 5) /\ sd_of "a" ex_upd_store = Some (PyNum 1).
Proof.
  exists (fst (update_serviceable_demand ex_upd_store ex_upd_sd)).
  vm_compute. repeat split.
Qed.

(** C7 (counterexample): in the backup model of [ex_backup], siting the
    only covering facility with value 2 and setting the backup indicator
    to 1 is feasible, with a single covering facility sited. *)
Lemma backup_single_site_counted_twice :
  exists s p,
    create_backup_model ex_backup [("total", 2)] "$" false init_state = (s, Ok p) /\
    feasible p s.(created) ex_backup_sigma = true /\
    sited_count ex_backup_sigma [("F", [("f1", 1)])] = 1%nat /\
    ex_backup_sigma (VDemand "U" "d") = 1.
Proof. exists_run. vm_compute. repeat split. Qed.

(** C10 (counterexample): with no demand unit the demand weights sum to
    zero, yet both threshold builders return a problem. *)
Lemma threshold_no_demand_returns_problem :
  (exists s p, create_threshold_model (ex_no_demand "binary") 50 "$" false init_state = (s, Ok p)
               /\ True) /\
  (exists s p, create_cc_threshold_model (ex_no_demand "partial") 50 "$" false init_state = (s, Ok p)
               /\ True).
Proof. split; exists_run; exact I. Qed.

(** ** General properties *)

(** ** Dicts *)

Lemma get_set_same {V} (k : string) (v : V) (d : Dict.t V) :
  Dict.get k (Dict.set k v d) = Some v.
Proof.
  induction d as [|[k' v'] r IH]; simpl.
  - rewrite String.eqb_refl; reflexivity.
  - destruct (String.eqb k k') eqn:E; simpl; rewrite E; auto.
Qed.

Lemma get_set_other {V} (k k' : string) (v : V) (d : Dict.t V) :
  k <> k' -> Dict.get k (Dict.set k' v d) = Dict.get k d.
Proof.
  intros Hne. induction d as [|[k1 v1] r IH]; simpl.
  - apply String.eqb_neq in Hne. rewrite Hne. reflexivity.
  - destruct (String.eqb k' k1) eqn:E1; simpl.
    + apply String.eqb_eq in E1; subst k1.
      apply String.eqb_neq in Hne. rewrite Hne. reflexivity.
    + destruct (String.eqb k k1); auto.
Qed.

Lemma get_set {V} (k k' : string) (v : V) (d : Dict.t V) :
  Dict.get k (Dict.set k' v d) = if String.eqb k k' then Some v else Dict.get k d.
Proof.
  destruct (String.eqb k k') eqn:E.
  - apply String.eqb_eq in E; subst; apply get_set_same.
  - apply String.eqb_neq in E; apply get_set_other; exact E.
Qed.

Lemma get_In {V} (k : string) (v : V) (d : Dict.t V) :
  Dict.get k d = Some v -> In (k, v) d.
Proof.
  induction d as [|[k1 v1] r IH]; simpl; [discriminate|].
  destruct (String.eqb k k1) eqn:E; intros H.
  - apply String.eqb_eq in E; inversion H; subst; auto.
  - auto.
Qed.

Lemma In_get {V} (k : string) (v : V) (d : Dict.t V) :
  In (k, v) d -> exists v', Dict.get k d = Some v'.
Proof.
  induction d as [|[k1 v1] r IH]; simpl; [tauto|].
  destruct (String.eqb k k1) eqn:E; intros [H|H]; eauto.
  inversion H; subst. rewrite String.eqb_refl in E. discriminate.
Qed.

Lemma In_get_NoDup {V} (k : string) (v : V) (d : Dict.t V) :
  NoDup (Dict.keys d) -> In (k, v) d -> Dict.get k d = Some v.
Proof.
  induction d as [|[k1 v1] r IH]; simpl; [tauto|].
  intros Hnd [H|H]; inversion Hnd; subst.
  - inversion H; subst. rewrite String.eqb_refl. reflexivity.
  - destruct (String.eqb k k1) eqn:E.
    + apply String.eqb_eq in E; subst.
      exfalso. apply H2. apply (in_map fst) in H. exact H.
    + auto.
Qed.

Lemma keys_set_present {V} (k : string) (v : V) (d : Dict.t V) :
  Dict.get k d <> None -> Dict.keys (Dict.set k v d) = Dict.keys d.
Proof.
  induction d as [|[k1 v1] r IH]; simpl; [tauto|].
  destruct (String.eqb k k1) eqn:E; simpl; intros H; auto.
  f_equal; auto.
Qed.

(** ** Weakest preconditions in the builder monad *)


Lemma wpe_ret {A} (a : A) Q E s : Q a s -> wpe (ret a) Q E s.
Proof. unfold wpe, ret; auto. Qed.

Lemma wpe_raise {A} (e : pyerr) (Q : A -> BState -> Prop) E s : E e s -> wpe (raise e) Q E s.
Proof. unfold wpe, raise; auto. Qed.

Lemma wpe_bind {A B} (m : M A) (k : A -> M B) Q E s :
  wpe m (fun a s' => wpe (k a) Q E s') E s -> wpe (bind m k) Q E s.
Proof. unfold wpe, bind. destruct (m s) as [s' [a|e]]; auto. Qed.

Lemma wpe_mono {A} (m : M A) (Q Q' : A -> BState -> Prop) (E E' : pyerr -> BState -> Prop) s :
  wpe m Q E s -> (forall a s', Q a s' -> Q' a s') -> (forall e s', E e s' -> E' e s') ->
  wpe m Q' E' s.
Proof. unfold wpe. destruct (m s) as [s' [a|e]]; auto. Qed.

Lemma wpe_foldM {A X} (f : A -> X -> M A) (L : list X) (I : list X -> A -> BState -> Prop) (E : pyerr -> BState -> Prop) :
  (forall pre x post a s, L = (pre ++ x :: post)%list -> I pre a s -> wpe (f a x) (I (pre ++ [x])%list) E s) ->
  forall a s, I [] a s -> wpe (foldM f a L) (I L) E s.
Proof.
  intros Hstep.
  assert (G : forall rest pre a s, L = (pre ++ rest)%list -> I pre a s ->
                wpe (foldM f a rest) (I L) E s).
  { induction rest as [|x rest IH]; intros pre a s HL HI; simpl.
    - apply wpe_ret. rewrite app_nil_r in HL. subst. exact HI.
    - apply wpe_bind. eapply wpe_mono; [exact (Hstep pre x rest a s HL HI)| |auto].
      intros a' s' H. apply (IH (pre ++ [x])%list); auto.
      rewrite <- app_assoc. exact HL. }
  intros a s H. exact (G L [] a s eq_refl H).
Qed.

Lemma wpe_run {A} (m : M A) Q E s s' a :
  wpe m Q E s -> m s = (s', Ok a) -> Q a s'.
Proof. unfold wpe. intros H E'. rewrite E' in H. exact H. Qed.

Lemma wpe_run_err {A} (m : M A) Q E s s' e :
  wpe m Q E s -> m s = (s', Err e) -> E e s'.
Proof. unfold wpe. intros H E'. rewrite E' in H. exact H. Qed.

(** ** No step but the range check raises the range error *)


Lemma nre_bind {A B} (m : M A) (k : A -> M B) :
  no_range_error m -> (forall a, no_range_error (k a)) -> no_range_error (bind m k).
Proof.
  intros Hm Hk s. apply wpe_bind. eapply wpe_mono; [apply Hm| |auto].
  intros a s' _. apply Hk.
Qed.

Lemma nre_foldM {A X} (f : A -> X -> M A) a (l : list X) :
  (forall a x, no_range_error (f a x)) -> no_range_error (foldM f a l).
Proof.
  intros Hf. revert a. induction l as [|x r IH]; intros a s; simpl.
  - apply wpe_ret; auto.
  - apply (nre_bind _ _ (Hf a x) IH).
Qed.

Lemma nre_ret {A} (a : A) : no_range_error (ret a).
Proof. intros s; apply wpe_ret; auto. Qed.

Lemma nre_raise {A} (e : pyerr) :
  e <> ValueError "psi weight must be between 100 and 0" -> no_range_error (@raise A e).
Proof. intros H s; apply wpe_raise; auto. Qed.

Lemma nre_liftR {A} (r : result A) :
  (forall e, r = Err e -> e <> ValueError "psi weight must be between 100 and 0") ->
  no_range_error (liftR r).
Proof.
  intros H. destruct r as [a|e]; simpl; [apply nre_ret | apply nre_raise; auto].
Qed.

Lemma nre_getM {V} k (d : Dict.t V) : no_range_error (getM k d).
Proof.
  apply nre_liftR. unfold getr. destruct (Dict.get k d); intros e H; inversion H; discriminate.
Qed.

Lemma nre_weight dv r : no_range_error (liftR (weight dv r)).
Proof.
  apply nre_liftR. unfold weight. destruct (raw_weight dv r); intros e H; inversion H; discriminate.
Qed.

Lemma nre_new_var i n lo up c : no_range_error (new_var i n lo up c).
Proof. intros s; unfold wpe, new_var; auto. Qed.

Lemma nre_new_problem n sn : no_range_error (new_problem n sn).
Proof. intros s; unfold wpe, new_problem; auto. Qed.

Lemma nre_set_objective e : no_range_error (set_objective e).
Proof. intros s; unfold wpe, set_objective; auto. Qed.

Lemma nre_get_prob : no_range_error get_prob.
Proof. intros s; unfold wpe, get_prob; auto. Qed.

Lemma nre_add_constraint c n : no_range_error (add_constraint c n).
Proof.
  intros s; unfold wpe, add_constraint.
  destruct n as [n|]; destruct (existsb _ _); auto; discriminate.
Qed.

Lemma nre_validateM t m ms ts : no_range_error (validateM t m ms ts).
Proof.
  unfold validateM, validate_coverage.
  destruct (negb _); [apply nre_raise; discriminate|].
  destruct (negb _); [apply nre_raise; discriminate| apply nre_ret].
Qed.

Ltac nre_step :=
  match goal with
  | |- no_range_error (bind _ _) => apply nre_bind; intros
  | |- no_range_error (foldM _ _ _) => apply nre_foldM; intros
  | |- no_range_error (forM_ _ _) => unfold forM_; apply nre_foldM; intros
  | |- no_range_error (ret _) => apply nre_ret
  | |- no_range_error (getM _ _) => apply nre_getM
  | |- no_range_error (liftR (weight _ _)) => apply nre_weight
  | |- no_range_error (new_var _ _ _ _ _) => apply nre_new_var
  | |- no_range_error (new_problem _ _) => apply nre_new_problem
  | |- no_range_error (set_objective _) => apply nre_set_objective
  | |- no_range_error get_prob => apply nre_get_prob
  | |- no_range_error (add_constraint _ _) => apply nre_add_constraint
  | |- no_range_error (validateM _ _ _ _) => apply nre_validateM
  | |- no_range_error (raise _) => apply nre_raise; discriminate
  | |- no_range_error (if ?b then _ else _) => destruct b
  | |- no_range_error (get2 _ _ _) => unfold get2
  | |- no_range_error (make_demand_vars _ _ _ _ _ _) => unfold make_demand_vars
  | |- no_range_error (make_facility_vars _ _ _ _) => unfold make_facility_vars
  | |- no_range_error (all_facility_terms _ _) => unfold all_facility_terms
  | |- no_range_error (coverage_terms _ _ _) => unfold coverage_terms
  | |- no_range_error (threshold_constraint _ _ _ _ _ _) => unfold threshold_constraint
  | |- no_range_error _ => progress cbv beta zeta
  end.

Lemma threshold_no_range_error c psi delin usd :
  out_of_range 0 100 psi = false -> no_range_error (create_threshold_model c psi delin usd).
Proof. intros H. unfold create_threshold_model. rewrite H. repeat nre_step. Qed.

Lemma cc_threshold_no_range_error c psi delin usd :
  out_of_range 0 100 psi = false -> no_range_error (create_cc_threshold_model c psi delin usd).
Proof. intros H. unfold create_cc_threshold_model. rewrite H. repeat nre_step. Qed.

Lemma out_of_range_iff lo hi x : out_of_range lo hi x = false <-> lo <= x <= hi.
Proof.
  unfold out_of_range. rewrite orb_false_iff, !negb_false_iff, !Qle_bool_iff. tauto.
Qed.

(** C9 (confirmed): for [psi < 0] or [psi > 100] both threshold builders
    raise before touching the state (so before any variable is created),
    and on a store with a valid type and mode the error is the range error
    "psi weight must be between 100 and 0"; for [0 <= psi <= 100] neither
    builder raises the range error. *)
Theorem threshold_psi_range (c : Coverage) (psi : Q) (delineator : string)
    (use_serviceable_demand : bool) (s : BState) :
  ((psi < 0 \/ 100 < psi) ->
     (exists e, create_threshold_model c psi delineator use_serviceable_demand s = (s, Err e)) /\
     (exists e, create_cc_threshold_model c psi delineator use_serviceable_demand s = (s, Err e)) /\
     (c.(ctype) = "binary" -> c.(cmode) = "coverage" ->
        create_threshold_model c psi delineator use_serviceable_demand s =
          (s, Err (ValueError "psi weight must be between 100 and 0"))) /\
     (c.(ctype) = "partial" -> c.(cmode) = "coverage" ->
        create_cc_threshold_model c psi delineator use_serviceable_demand s =
          (s, Err (ValueError "psi weight must be between 100 and 0")))) /\
  (0 <= psi <= 100 ->
     snd (create_threshold_model c psi delineator use_serviceable_demand s)
       <> Err (ValueError "psi weight must be between 100 and 0") /\
     snd (create_cc_threshold_model c psi delineator use_serviceable_demand s)
       <> Err (ValueError "psi weight must be between 100 and 0")).
Proof.
  split.
  - intros Hout.
    assert (H : out_of_range 0 100 psi = true).
    { destruct (out_of_range 0 100 psi) eqn:E; auto.
      apply out_of_range_iff in E. exfalso. destruct Hout; destruct E; apply (Qlt_not_le _ _ H); auto. }
    unfold create_threshold_model, create_cc_threshold_model, bind, validateM.
    rewrite H. cbn [ret raise].
    repeat split.
    + destruct (validate_coverage _ _ _ _); cbn [raise ret]; eauto.
    + destruct (validate_coverage _ _ _ _); cbn [raise ret]; eauto.
    + intros Ht Hm. rewrite Ht, Hm. reflexivity.
    + intros Ht Hm. rewrite Ht, Hm. reflexivity.
  - intros Hin. apply out_of_range_iff in Hin.
    pose proof (threshold_no_range_error c psi delineator use_serviceable_demand Hin s) as H1.
    pose proof (cc_threshold_no_range_error c psi delineator use_serviceable_demand Hin s) as H2.
    unfold wpe in H1, H2.
    destruct (create_threshold_model _ _ _ _ s) as [s1 [a1|e1]];
    destruct (create_cc_threshold_model _ _ _ _ s) as [s2 [a2|e2]]; simpl;
      split; intros HH; inversion HH; subst; auto.
Qed.

Lemma set_sd_idem r v : set_sd (set_sd r v) v = set_sd r v.
Proof. reflexivity. Qed.

Lemma update_loop_missing (sd : Coverage) (d0 : string) (post : list string) :
  Dict.get d0 sd.(demand) = None ->
  forall pre cov total,
    (forall d, In d pre -> exists r' q, Dict.get d sd.(demand) = Some r' /\
                                        r'.(serviceableDemand) = PyNum q) ->
    (forall d, In d pre -> Dict.get d cov.(demand) <> None) ->
    exists c',
      update_loop (pre ++ d0 :: post)%list sd cov total = (c', Err (KeyError d0)) /\
      c'.(ctype) = cov.(ctype) /\ c'.(cmode) = cov.(cmode) /\
      c'.(facilities) = cov.(facilities) /\
      c'.(totalServiceableDemand) = cov.(totalServiceableDemand) /\
      Dict.keys c'.(demand) = Dict.keys cov.(demand) /\
      (forall d r r', In d pre -> Dict.get d cov.(demand) = Some r ->
         Dict.get d sd.(demand) = Some r' ->
         Dict.get d c'.(demand) = Some (set_sd r r'.(serviceableDemand))) /\
      (forall d, ~ In d pre -> Dict.get d c'.(demand) = Dict.get d cov.(demand)).
Proof.
  intros H0. induction pre as [|x pre IH]; intros cov total Hsd Hcov.
  - exists cov. simpl. rewrite H0. repeat split; auto. intros d r r' [].
  - destruct (Hsd x (or_introl eq_refl)) as [r' [q [Hr' Hq]]].
    destruct (Dict.get x cov.(demand)) as [r|] eqn:Hr;
      [| exfalso; exact (Hcov x (or_introl eq_refl) Hr)].
    set (cov1 := set_demand_rec x (set_sd r r'.(serviceableDemand)) cov).
    assert (G1 : forall d, Dict.get d cov1.(demand) =
                   if String.eqb d x then Some (set_sd r r'.(serviceableDemand))
                   else Dict.get d cov.(demand)).
    { intros d. unfold cov1, set_demand_rec. simpl. apply get_set. }
    destruct (IH cov1 (total + q)) as [c' [Hrun [Ht [Hm [Hf [Htot [Hk [Hin Hout]]]]]]]].
    { intros d Hd. apply Hsd. right. exact Hd. }
    { intros d Hd. rewrite G1. destruct (String.eqb d x); [discriminate|].
      apply Hcov. right. exact Hd. }
    exists c'. simpl. rewrite Hr', Hr.
    replace (py_add total (serviceableDemand r')) with (@Ok Q (total + q)) by (rewrite Hq; reflexivity).
    fold cov1. rewrite Hrun.
    repeat split; auto.
    + rewrite Hk. unfold cov1, set_demand_rec. simpl. apply keys_set_present. rewrite Hr. discriminate.
    + intros d r0 r0' [Hd|Hd] Hr0 Hr0'.
      * subst d. rewrite Hr in Hr0. inversion Hr0; subst r0. rewrite Hr' in Hr0'.
        inversion Hr0'; subst r0'.
        destruct (in_dec String.string_dec x pre) as [Hx|Hx].
        -- rewrite (Hin x (set_sd r r'.(serviceableDemand)) r'); auto.
           rewrite G1, String.eqb_refl. reflexivity.
        -- rewrite (Hout x Hx), G1, String.eqb_refl. reflexivity.
      * destruct (String.eqb d x) eqn:Edx.
        -- apply String.eqb_eq in Edx. subst d. rewrite Hr in Hr0. inversion Hr0; subst r0.
           rewrite Hr' in Hr0'. inversion Hr0'; subst r0'.
           rewrite (Hin x (set_sd r r'.(serviceableDemand)) r'); auto.
           rewrite G1, String.eqb_refl. reflexivity.
        -- apply (Hin d r0 r0'); auto. rewrite G1, Edx. exact Hr0.
    + intros d Hd. rewrite Hout by (intros Hd'; apply Hd; right; exact Hd').
      rewrite G1. destruct (String.eqb d x) eqn:Edx; auto.
      apply String.eqb_eq in Edx. subst d. exfalso. apply Hd. left. reflexivity.
Qed.

(** C6 (corrected): if the update lacks the demand id [d0] and every id
    before [d0] in store order has a numeric serviceable demand in the
    update, [update_serviceable_demand] raises [KeyError d0]; the records
    before [d0] have already been overwritten in place, the later records
    and [totalServiceableDemand] are unchanged. *)
Theorem update_serviceable_demand_missing_id (c sd : Coverage) (pre post : list string)
    (d0 : string) :
  Dict.keys c.(demand) = (pre ++ d0 :: post)%list ->
  (forall d, In d pre -> exists r' q, Dict.get d sd.(demand) = Some r' /\
                                      r'.(serviceableDemand) = PyNum q) ->
  Dict.get d0 sd.(demand) = None ->
  exists c',
    update_serviceable_demand c sd = (c', Some (KeyError d0)) /\
    c'.(ctype) = c.(ctype) /\ c'.(cmode) = c.(cmode) /\
    c'.(facilities) = c.(facilities) /\
    c'.(totalServiceableDemand) = c.(totalServiceableDemand) /\
    Dict.keys c'.(demand) = Dict.keys c.(demand) /\
    (forall d r r', In d pre -> Dict.get d c.(demand) = Some r ->
       Dict.get d sd.(demand) = Some r' ->
       Dict.get d c'.(demand) = Some (set_sd r r'.(serviceableDemand))) /\
    (forall d, ~ In d pre -> Dict.get d c'.(demand) = Dict.get d c.(demand)).
Proof.
  intros Hk Hsd H0.
  destruct (update_loop_missing sd d0 post H0 pre c 0 Hsd) as [c' [Hrun Hrest]].
  { intros d Hd. assert (Hin : In d (Dict.keys c.(demand))).
    { rewrite Hk. apply in_or_app. left. exact Hd. }
    unfold Dict.keys in Hin. apply in_map_iff in Hin. destruct Hin as [[k r] [Hkd Hin]].
    simpl in Hkd. subst k. destruct (In_get _ _ _ Hin) as [v Hv]. rewrite Hv. discriminate. }
  assert (Hu : update_serviceable_demand c sd = (c', Some (KeyError d0)))
    by (unfold update_serviceable_demand; rewrite Hk, Hrun; reflexivity).
  exists c'. split; [exact Hu | exact Hrest].
Qed.





Local Open Scope list_scope.

Lemma ext_refl s : ext s s.
Proof. split; exists []; rewrite app_nil_r; reflexivity. Qed.

Lemma ext_trans s1 s2 s3 : ext s1 s2 -> ext s2 s3 -> ext s1 s3.
Proof.
  intros [[l1 H1] [k1 K1]] [[l2 H2] [k2 K2]]. split.
  - exists (l1 ++ l2). rewrite H2, H1, app_assoc. reflexivity.
  - exists (k1 ++ k2). rewrite K2, K1, app_assoc. reflexivity.
Qed.

Lemma ext_bind {A B} (m : M A) (k : A -> M B) :
  ext_m m -> (forall a, ext_m (k a)) -> ext_m (bind m k).
Proof.
  intros Hm Hk s. apply wpe_bind. eapply wpe_mono; [apply Hm| |auto].
  intros a s' Hs'. eapply wpe_mono; [apply Hk| |auto].
  intros b s'' H. exact (ext_trans _ _ _ Hs' H).
Qed.

Lemma ext_foldM {A X} (f : A -> X -> M A) a (l : list X) :
  (forall a x, ext_m (f a x)) -> ext_m (foldM f a l).
Proof.
  intros Hf. revert a. induction l as [|x r IH]; intros a; simpl.
  - intros s. apply wpe_ret. apply ext_refl.
  - apply ext_bind; auto.
Qed.

Lemma ext_ret {A} (a : A) : ext_m (ret a).
Proof. intros s; apply wpe_ret, ext_refl. Qed.

Lemma ext_liftR {A} (r : result A) : ext_m (liftR r).
Proof. intros s; destruct r; unfold wpe; simpl; auto using ext_refl. Qed.

Lemma ext_getM {V} k (d : Dict.t V) : ext_m (getM k d).
Proof. apply ext_liftR. Qed.

Lemma ext_new_var i n lo up c : ext_m (new_var i n lo up c).
Proof.
  intros s; unfold wpe, new_var; simpl. split; [exists [mkLpVariable i n lo up c] | exists []];
    simpl; rewrite ?app_nil_r; reflexivity.
Qed.

Lemma ext_set_objective e : ext_m (set_objective e).
Proof.
  intros s; unfold wpe, set_objective; simpl. split; exists []; simpl; rewrite app_nil_r; reflexivity.
Qed.

Lemma ext_add_constraint c n : ext_m (add_constraint c n).
Proof.
  intros s; unfold wpe, add_constraint.
  destruct (match n with Some _ => _ | None => _ end) as [nm lu].
  destruct (existsb _ _); simpl; auto.
  split; [exists [] | exists [(nm, c)]]; simpl; rewrite ?app_nil_r; reflexivity.
Qed.

Ltac ext_step :=
  match goal with
  | |- ext_m (bind _ _) => apply ext_bind; intros
  | |- ext_m (foldM _ _ _) => apply ext_foldM; intros
  | |- ext_m (forM_ _ _) => unfold forM_; apply ext_foldM; intros
  | |- ext_m (ret _) => apply ext_ret
  | |- ext_m (getM _ _) => apply ext_getM
  | |- ext_m (liftR _) => apply ext_liftR
  | |- ext_m (new_var _ _ _ _ _) => apply ext_new_var
  | |- ext_m (set_objective _) => apply ext_set_objective
  | |- ext_m (add_constraint _ _) => apply ext_add_constraint
  | |- ext_m (if ?b then _ else _) => destruct b
  | |- ext_m (get2 _ _ _) => unfold get2
  | |- ext_m (all_facility_terms _ _) => unfold all_facility_terms
  | |- ext_m (coverage_terms _ _ _) => unfold coverage_terms
  | |- ext_m (weighted_demand_terms _ _ _) => unfold weighted_demand_terms
  | |- ext_m (facility_count_constraints _ _ _) => unfold facility_count_constraints
  | |- ext_m _ => progress cbv beta zeta
  end.

Lemma ext_weighted_demand_terms dv ds dvars : ext_m (weighted_demand_terms dv ds dvars).
Proof. repeat ext_step. Qed.

Lemma ext_facility_count_constraints facs fv nf : ext_m (facility_count_constraints facs fv nf).
Proof. repeat ext_step. Qed.

(** [add_constraint] with a name and without one *)

Lemma existsb_eqb_In (x : string) l : existsb (String.eqb x) l = true <-> In x l.
Proof.
  rewrite existsb_exists. split.
  - intros [y [Hy E]]. apply String.eqb_eq in E. subst. exact Hy.
  - intros H. exists x. split; auto. apply String.eqb_refl.
Qed.

Lemma wpe_add_constraint_named c n s :
  wpe (add_constraint c (Some n))
    (fun _ s' => s'.(created) = s.(created) /\ s'.(prob).(lastUnused) = s.(prob).(lastUnused) /\
                 s'.(prob).(constraints) = s.(prob).(constraints) ++ [(translate_name n, c)])
    (fun _ s' => s' = s /\ In (translate_name n) (map fst s.(prob).(constraints))) s.
Proof.
  unfold wpe, add_constraint. simpl.
  destruct (existsb _ _) eqn:E; simpl.
  - split; auto. apply existsb_eqb_In. exact E.
  - auto.
Qed.

Lemma wpe_add_constraint_unnamed c s :
  let names := map fst s.(prob).(constraints) in
  let i := unused_index (S (length names)) (S s.(prob).(lastUnused)) names in
  wpe (add_constraint c None)
    (fun _ s' => s'.(created) = s.(created) /\ s'.(prob).(lastUnused) = i /\
                 s'.(prob).(constraints) = s.(prob).(constraints) ++ [(auto_name i, c)])
    (fun _ s' => s' = s /\ In (auto_name i) names) s.
Proof.
  unfold wpe, add_constraint. simpl.
  destruct (existsb _ _) eqn:E; simpl.
  - split; auto. apply existsb_eqb_In. exact E.
  - auto.
Qed.

(** [make_demand_vars] always succeeds. *)
Lemma wpe_make_demand_vars {X} prefix delin low up c (ds : Dict.t X) s :
  wpe (make_demand_vars prefix delin low up c ds)
    (fun dv s' =>
       s' = mkBState (s.(created) ++ map (fun dr => mkLpVariable (VDemand prefix (fst dr))
                                                      (prefix ++ delin ++ fst dr)%string low up c) ds)
              s.(prob) /\
       forall d, In d (Dict.keys ds) ->
         Dict.get d dv = Some (mkLpVariable (VDemand prefix d) (prefix ++ delin ++ d)%string low up c))
    (fun _ _ => False) s.
Proof.
  unfold make_demand_vars.
  apply (wpe_foldM _ ds (fun pre acc s' =>
    s' = mkBState (s.(created) ++ map (fun dr => mkLpVariable (VDemand prefix (fst dr))
                                                 (prefix ++ delin ++ fst dr)%string low up c) pre)
           s.(prob) /\
    forall d, In d (Dict.keys pre) ->
      Dict.get d acc = Some (mkLpVariable (VDemand prefix d) (prefix ++ delin ++ d)%string low up c))).
  - intros pre x post acc s' _ [Hs Hacc]. subst s'.
    apply wpe_bind. unfold wpe at 1, new_var. simpl. apply wpe_ret. split.
    + rewrite map_app, app_assoc. reflexivity.
    + intros d Hd. rewrite get_set. destruct (String.eqb d (fst x)) eqn:E.
      * apply String.eqb_eq in E. subst. reflexivity.
      * apply Hacc. unfold Dict.keys in Hd. rewrite map_app in Hd. apply in_app_or in Hd.
        destruct Hd as [Hd|[Hd|[]]]; auto. apply String.eqb_neq in E. congruence.
  - split; [destruct s; simpl; rewrite app_nil_r; reflexivity | intros d []].
Qed.

(** [make_facility_vars] always succeeds; its variables are those of
    their keys, and with distinct type names every facility has one. *)
Lemma wpe_make_facility_vars delin up c facs s :
  wpe (make_facility_vars delin up c facs)
    (fun fv s' => s'.(prob) = s.(prob) /\ (exists l, s'.(created) = s.(created) ++ l) /\
                  fv_labelled fv /\ (NoDup (Dict.keys facs) -> fv_complete facs fv))
    (fun _ _ => False) s.
Proof.
  unfold make_facility_vars.
  apply (wpe_foldM _ facs (fun pre fv s' =>
    s'.(prob) = s.(prob) /\ (exists l, s'.(created) = s.(created) ++ l) /\
    fv_labelled fv /\ (NoDup (Dict.keys facs) -> fv_complete pre fv))).
  - intros pre [T fs] post acc s1 Hfacs [Hp [[l Hl] [Hlab Hcomp]]]. simpl.
    eapply (wpe_mono _ (fun fv s' => s'.(prob) = s1.(prob) /\
        (exists l, s'.(created) = s1.(created) ++ l) /\ fv_labelled fv /\
        (exists mv, Dict.get T fv = Some mv /\ forall f, In f (Dict.keys fs) -> exists v, Dict.get f mv = Some v) /\
        (forall T', T' <> T -> Dict.get T' fv = Dict.get T' acc))
        _ (fun _ _ => False)).
    + apply (wpe_foldM _ fs (fun pre2 fv s' => s'.(prob) = s1.(prob) /\
        (exists l, s'.(created) = s1.(created) ++ l) /\ fv_labelled fv /\
        (exists mv, Dict.get T fv = Some mv /\ forall f, In f (Dict.keys pre2) -> exists v, Dict.get f mv = Some v) /\
        (forall T', T' <> T -> Dict.get T' fv = Dict.get T' acc))).
      * intros pre2 [f m] post2 acc2 s2 _ [Hp2 [[l2 Hl2] [Hlab2 [[mv [Hmv Hmvf]] Hoth]]]]. simpl.
        apply wpe_bind. unfold wpe at 1, new_var. simpl.
        apply wpe_bind. unfold getM, getr. rewrite Hmv. simpl. apply wpe_ret.
        simpl. split; [exact Hp2|]. split; [exists (l2 ++ [mkLpVariable (VFac T f) (T ++ delin ++ f)%string (Some 0) up c]); rewrite Hl2, app_assoc; reflexivity|].
        split; [|split].
        -- intros T' mv' f' v' HT' Hf'. rewrite get_set in HT'.
           destruct (String.eqb T' T) eqn:ET.
           ++ apply String.eqb_eq in ET. subst T'. inversion HT'; subst mv'.
              rewrite get_set in Hf'. destruct (String.eqb f' f) eqn:Ef.
              ** apply String.eqb_eq in Ef. subst. inversion Hf'; subst. reflexivity.
              ** apply (Hlab2 T mv f' v'); auto.
           ++ apply (Hlab2 T' mv' f' v'); auto.
        -- exists (Dict.set f (mkLpVariable (VFac T f) (T ++ delin ++ f)%string (Some 0) up c) mv).
           rewrite get_set_same. split; auto. intros f' Hf'. rewrite get_set.
           destruct (String.eqb f' f) eqn:Ef; eauto.
           apply Hmvf. unfold Dict.keys in Hf'. rewrite map_app in Hf'. apply in_app_or in Hf'.
           destruct Hf' as [Hf'|[Hf'|[]]]; auto. simpl in Hf'. apply String.eqb_neq in Ef. congruence.
        -- intros T' HT'. rewrite get_set_other by exact HT'. apply Hoth. exact HT'.
      * split; [reflexivity|]. split; [exists []; rewrite app_nil_r; reflexivity|]. split; [|split].
        -- intros T' mv f v HT' Hf. rewrite get_set in HT'. destruct (String.eqb T' T).
           ++ inversion HT'; subst. discriminate.
           ++ eapply Hlab; eauto.
        -- exists []. rewrite get_set_same. split; auto. intros f [].
        -- intros T' HT'. apply get_set_other. exact HT'.
    + intros fv s' [Hp' [[l' Hl'] [Hlab' [[mv [Hmv Hmvf]] Hoth]]]]. split; [congruence|].
      split; [exists (l ++ l'); rewrite Hl', Hl, app_assoc; reflexivity|]. split; [exact Hlab'|].
      intros Hnd0 T' fs' f HT' Hf. pose proof Hnd0 as Hnd. unfold Dict.keys in Hnd. rewrite Hfacs, map_app in Hnd.
      apply NoDup_remove_2 in Hnd. simpl in Hnd.
      apply in_app_or in HT'. destruct HT' as [HT'|[HT'|[]]].
      * assert (Hne : T' <> T).
        { intros ->. apply Hnd. apply in_or_app. left. apply (in_map fst) in HT'. exact HT'. }
        rewrite Hoth by exact Hne.
        exact (Hcomp Hnd0 T' fs' f HT' Hf).
      * inversion HT'; subst. destruct (Hmvf f Hf) as [v Hv]. eauto.
    + auto.
  - split; [reflexivity|]. split; [exists []; rewrite app_nil_r; reflexivity|]. split.
    + intros T mv f v H. discriminate.
    + intros _ T fs f [].
Qed.


Lemma wpe_get2 {B} T f fv s (k : LpVariable -> M B) Q E :
  (forall mv v, Dict.get T fv = Some mv -> Dict.get f mv = Some v -> wpe (k v) Q E s) ->
  ((forall mv, Dict.get T fv = Some mv -> Dict.get f mv = None) -> forall e, E e s) ->
  wpe (bind (get2 T f fv) k) Q E s.
Proof.
  intros Hok Herr. unfold get2, getM, getr, bind, liftR, ret, raise.
  destruct (Dict.get T fv) as [mv|] eqn:HT.
  - destruct (Dict.get f mv) as [v|] eqn:Hf.
    + apply (Hok mv v); auto.
    + unfold wpe. apply Herr. intros mv' H. inversion H; subst; auto.
  - unfold wpe. apply Herr. intros mv' H. discriminate.
Qed.

Lemma cover_terms_app w (a b : Dict.t (Dict.t Q)) :
  cover_terms w (a ++ b) = cover_terms w a ++ cover_terms w b.
Proof. unfold cover_terms. apply flat_map_app. Qed.

(** [coverage_terms]: with labelled facility variables, the terms are
    those of [cover_terms]; it raises only on a missing reference. *)
Lemma wpe_coverage_terms (w : bool) fv cov s (E0 : Prop) :
  fv_labelled fv ->
  (forall T fq f, In (T, fq) cov -> In f (Dict.keys fq) ->
     (exists mv v, Dict.get T fv = Some mv /\ Dict.get f mv = Some v) \/ E0) ->
  wpe (coverage_terms w fv cov) (fun ts s' => s' = s /\ ts = cover_terms w cov)
    (fun _ s' => s' = s /\ E0) s.
Proof.
  intros Hlab Hrefs. unfold coverage_terms.
  apply (wpe_foldM _ cov (fun pre acc s' => s' = s /\ acc = cover_terms w pre)).
  - intros pre [T fq] post acc s1 Hcov [-> ->]. simpl.
    eapply wpe_mono.
    { apply (wpe_foldM _ fq (fun pre2 acc2 s' => s' = s /\
             acc2 = cover_terms w pre ++
                    map (fun fq0 => let e := mkAff [(VFac T (fst fq0), 1)] 0 in
                                    if w then aff_scale (snd fq0) e else e) pre2)
             (fun _ s' => s' = s /\ E0)).
      + intros pre2 [f q] post2 acc2 s2 Hfq [-> ->].
        simpl. apply wpe_get2.
        * intros mv v HT Hf. apply wpe_ret. split; auto.
          rewrite map_app, app_assoc. simpl. unfold aff_var.
          rewrite (Hlab T mv f v HT Hf). reflexivity.
        * intros Hnone e. split; auto.
          destruct (Hrefs T fq f) as [[mv [v [HT Hf]]]|H]; auto.
          -- rewrite Hcov. apply in_or_app. right. left. reflexivity.
          -- rewrite Hfq. unfold Dict.keys. rewrite map_app. apply in_or_app. right. left. reflexivity.
          -- rewrite (Hnone mv HT) in Hf. discriminate.
      + split; auto. rewrite app_nil_r. reflexivity. }
    { intros a s' [Hs Ha]. split; [exact Hs|]. rewrite Ha, cover_terms_app.
      unfold cover_terms at 3. simpl. rewrite app_nil_r. reflexivity. }
    { auto. }
  - split; reflexivity.
Qed.

Lemma wpe_all_facility_terms facs fv s :
  fv_complete facs fv ->
  wpe (all_facility_terms facs fv) (fun _ s' => s' = s) (fun _ _ => False) s.
Proof.
  intros Hc. unfold all_facility_terms.
  apply (wpe_foldM _ facs (fun _ _ s' => s' = s)); [|reflexivity].
  intros pre [T fs] post acc s1 Hfacs ->. simpl.
  apply (wpe_foldM _ fs (fun _ _ s' => s' = s)); [|reflexivity].
  intros pre2 [f m] post2 acc2 s2 Hfs ->.
  simpl. apply wpe_get2.
  - intros. apply wpe_ret. reflexivity.
  - intros Hnone e.
    destruct (Hc T fs f) as [mv [v [HT Hf]]].
    + rewrite Hfacs. apply in_or_app. right. left. reflexivity.
    + rewrite Hfs. unfold Dict.keys. rewrite map_app. apply in_or_app. right. left. reflexivity.
    + rewrite (Hnone mv HT) in Hf. discriminate.
Qed.

(** ** Values of expressions *)

Lemma eval_const (sigma : vid -> Q) ts k :
  eval_aff sigma (mkAff ts k) == eval_aff sigma (mkAff ts 0) + k.
Proof.
  unfold eval_aff. simpl. induction ts as [|[x c] r IH]; simpl.
  - ring.
  - rewrite IH. ring.
Qed.

Lemma vid_eqb_eq a b : vid_eqb a b = true -> a = b.
Proof.
  destruct a, b; simpl; try discriminate; intros H;
    repeat match goal with
           | H : _ && _ = true |- _ => apply andb_prop in H; destruct H
           | H : String.eqb _ _ = true |- _ => apply String.eqb_eq in H
           end; subst; reflexivity.
Qed.

Lemma eval_addterm (sigma : vid -> Q) ts x c :
  eval_aff sigma (mkAff (addterm ts x c) 0) == eval_aff sigma (mkAff ts 0) + c * sigma x.
Proof.
  unfold eval_aff. simpl. induction ts as [|[y c'] r IH]; simpl.
  - ring.
  - destruct (vid_eqb x y) eqn:E; simpl.
    + apply vid_eqb_eq in E. subst. ring.
    + rewrite IH. ring.
Qed.

Lemma eval_aff_add (sigma : vid -> Q) e o sign :
  eval_aff sigma (aff_add e o sign) == eval_aff sigma e + sign * eval_aff sigma o.
Proof.
  unfold aff_add. rewrite eval_const.
  rewrite (eval_const sigma e.(terms) e.(constant)), (eval_const sigma o.(terms) o.(constant)).
  destruct e as [ets ek], o as [ots ok]. simpl.
  enough (G : forall ts, eval_aff sigma (mkAff (fold_left (fun ts vc => addterm ts (fst vc) (snd vc * sign)) ots ts) 0)
                 == eval_aff sigma (mkAff ts 0) + sign * eval_aff sigma (mkAff ots 0)).
  { rewrite G. ring. }
  induction ots as [|[x c] r IH]; intros ts; simpl.
  - unfold eval_aff. simpl. ring.
  - rewrite IH, eval_addterm. unfold eval_aff. simpl. ring.
Qed.

Lemma eval_lpSum (sigma : vid -> Q) l :
  eval_aff sigma (lpSum l) == fold_right (fun e acc => eval_aff sigma e + acc) 0 l.
Proof.
  unfold lpSum.
  enough (G : forall a, eval_aff sigma (fold_left (fun acc e => aff_add acc e 1) l a)
                        == eval_aff sigma a + fold_right (fun e acc => eval_aff sigma e + acc) 0 l).
  { rewrite G. assert (H0 : eval_aff sigma aff_empty == 0) by reflexivity. rewrite H0. ring. }
  induction l as [|e r IH]; intros a; simpl.
  - ring.
  - rewrite IH, eval_aff_add. ring.
Qed.

Lemma eval_cmp (sigma : vid -> Q) e sn rhs :
  eval_aff sigma (cmp e sn rhs).(c_expr) == eval_aff sigma e - rhs.
Proof.
  unfold cmp. simpl. rewrite eval_const, (eval_const sigma e.(terms) e.(constant)).
  destruct e. simpl. ring.
Qed.

Lemma eval_scale (sigma : vid -> Q) c e :
  eval_aff sigma (aff_scale c e) == c * eval_aff sigma e.
Proof.
  unfold aff_scale. destruct (Qeq_bool c 0) eqn:E.
  - apply Qeq_bool_iff in E. rewrite E. unfold eval_aff. simpl. ring.
  - rewrite eval_const, (eval_const sigma e.(terms) e.(constant)). destruct e as [ts k]. simpl.
    enough (G : eval_aff sigma (mkAff (map (fun vc => (fst vc, c * snd vc)) ts) 0)
                == c * eval_aff sigma (mkAff ts 0)) by (rewrite G; ring).
    unfold eval_aff. simpl. induction ts as [|[x q] r IH]; simpl; [ring|]. rewrite IH. ring.
Qed.

Lemma cover_terms_unweighted cov :
  cover_terms false cov = map (fun i => mkAff [(i, 1)] 0) (covering_vids cov).
Proof.
  unfold cover_terms, covering_vids.
  induction cov as [|[T fq] r IH]; simpl; [reflexivity|].
  rewrite map_app, IH, map_map. reflexivity.
Qed.

Lemma eval_cover_terms_unweighted (sigma : vid -> Q) cov :
  fold_right (fun e acc => eval_aff sigma e + acc) 0 (cover_terms false cov) == cover_sum sigma cov.
Proof.
  rewrite cover_terms_unweighted. unfold cover_sum.
  induction (covering_vids cov) as [|i r IH]; cbn [map fold_right]; [reflexivity|].
  rewrite IH. unfold eval_aff. simpl. ring.
Qed.

Lemma wpe_new_problem {B} n sn (k : unit -> M B) Q E s :
  wpe (k tt) Q E (mkBState s.(created) (empty_problem n sn)) ->
  wpe (bind (new_problem n sn) k) Q E s.
Proof. unfold wpe, bind, new_problem. auto. Qed.

Lemma wpe_set_objective {B} e (k : unit -> M B) Q E s :
  wpe (k tt) Q E (mkBState s.(created)
                    (mkLpProblem s.(prob).(p_name) s.(prob).(p_sense) e
                       s.(prob).(constraints) s.(prob).(lastUnused))) ->
  wpe (bind (set_objective e) k) Q E s.
Proof. unfold wpe, bind, set_objective. auto. Qed.

Lemma wpe_get_prob (Q : LpProblem -> BState -> Prop) E s : Q s.(prob) s -> wpe get_prob Q E s.
Proof. unfold wpe, get_prob. auto. Qed.

Lemma wpe_getM_some {V B} k (d : Dict.t V) v (kk : V -> M B) Q E s :
  Dict.get k d = Some v -> wpe (kk v) Q E s -> wpe (bind (getM k d) kk) Q E s.
Proof. intros H. unfold getM, getr. rewrite H. unfold wpe, bind, liftR, ret. auto. Qed.

Lemma wpe_validateM {B} ty mode ms ts (k : unit -> M B) Q E s :
  (validate_coverage ty mode ms ts = None -> wpe (k tt) Q E s) ->
  (forall e, validate_coverage ty mode ms ts = Some e -> E e s) ->
  wpe (bind (validateM ty mode ms ts) k) Q E s.
Proof.
  intros Hok Herr. unfold validateM.
  destruct (validate_coverage ty mode ms ts) eqn:V.
  - unfold wpe, bind, raise. apply Herr. reflexivity.
  - unfold bind, ret. apply Hok. reflexivity.
Qed.

Lemma wpe_bind_ext {A B} (m : M A) (k : A -> M B) Q s :
  ext_m m -> (forall a s', ext s s' -> wpe (k a) Q (fun _ _ => True) s') ->
  wpe (bind m k) Q (fun _ _ => True) s.
Proof.
  intros Hm Hk. apply wpe_bind. eapply wpe_mono; [apply Hm| |auto].
  intros a s' H. apply Hk. exact H.
Qed.

Lemma ext_In_created s s' v : ext s s' -> In v s.(created) -> In v s'.(created).
Proof. intros [[l H] _] Hv. rewrite H. apply in_or_app. left. exact Hv. Qed.

Lemma ext_In_constraints s s' nc :
  ext s s' -> In nc s.(prob).(constraints) -> In nc s'.(prob).(constraints).
Proof. intros [_ [l H]] Hv. rewrite H. apply in_or_app. left. exact Hv. Qed.

Lemma In_keys {V} (k : string) (v : V) (d : Dict.t V) : In (k, v) d -> In k (Dict.keys d).
Proof. intros H. apply (in_map fst) in H. exact H. Qed.

Lemma wpe_create_backup_model c num_fac delin usd s0 :
  wpe (create_backup_model c num_fac delin usd)
    (fun p s => p = s.(prob) /\
       forall d r, In (d, r) c.(demand) ->
         In (mkLpVariable (VDemand "U" d) ("U" ++ delin ++ d)%string (Some 0) (Some 1) LpInteger)
            s.(created) /\
         In (translate_name ("D" ++ d)%string,
             cmp (sum_minus (cover_terms false r.(d_coverage))
                    (mkLpVariable (VDemand "U" d) ("U" ++ delin ++ d)%string (Some 0) (Some 1) LpInteger))
                 LpConstraintGE 1) p.(constraints))
    (fun _ _ => True) s0.
Proof.
  unfold create_backup_model. cbv zeta.
  apply wpe_validateM; [intros _ | auto].
  apply wpe_bind. eapply wpe_mono; [apply wpe_make_demand_vars| |auto].
  intros dv s1 [Hs1 Hdv].
  apply wpe_bind. eapply wpe_mono; [apply wpe_make_facility_vars| |auto].
  intros fv s2 [_ [[l2 Hl2] [Hlab _]]].
  apply wpe_new_problem.
  set (s3 := mkBState _ _).
  apply wpe_bind_ext; [apply ext_weighted_demand_terms|]. intros obj s4 H34.
  apply wpe_set_objective. set (s5 := mkBState _ _).
  set (uvar := fun d => mkLpVariable (VDemand "U" d) ("U" ++ delin ++ d)%string (Some 0) (Some 1) LpInteger).
  assert (HU : forall d r, In (d, r) c.(demand) -> In (uvar d) s5.(created)).
  { intros d r Hin. unfold s5. simpl. apply (ext_In_created s3 s4); auto. unfold s3. simpl.
    rewrite Hl2, Hs1. simpl. apply in_or_app. left. apply in_or_app. right.
    apply (in_map (fun dr => mkLpVariable (VDemand "U" (fst dr)) ("U" ++ delin ++ fst dr)%string
                               (Some 0) (Some 1) LpInteger)) in Hin. exact Hin. }
  unfold forM_. apply wpe_bind.
  eapply wpe_mono.
  { apply (wpe_foldM _ c.(demand) (fun pre _ s' => ext s5 s' /\
             forall d r, In (d, r) pre ->
               In (translate_name ("D" ++ d)%string,
                   cmp (sum_minus (cover_terms false r.(d_coverage)) (uvar d)) LpConstraintGE 1)
                  s'.(prob).(constraints)) (fun _ _ => True)).
    - intros pre [d r] post _ s6 Hdem [H56 Hrows]. cbv beta. simpl fst. simpl snd.
      apply wpe_bind. eapply wpe_mono.
      { apply (wpe_coverage_terms false fv r.(d_coverage) s6 True Hlab). intros; right; exact I. }
      2: auto.
      intros ts s7 [-> ->].
      apply (wpe_getM_some _ _ (uvar d)).
      { apply Hdv. rewrite Hdem. unfold Dict.keys. rewrite map_app. apply in_or_app. right. left. reflexivity. }
      eapply wpe_mono; [apply wpe_add_constraint_named| |auto].
      intros _ s8 [Hc8 [_ Hcs8]]. split.
      + apply (ext_trans _ s6); auto. split; [exists []; rewrite Hc8, app_nil_r; reflexivity|].
        exists [(translate_name ("D" ++ d)%string,
                 cmp (sum_minus (cover_terms false r.(d_coverage)) (uvar d)) LpConstraintGE 1)].
        exact Hcs8.
      + intros d' r' Hin'. rewrite Hcs8. apply in_app_or in Hin'. apply in_or_app.
        destruct Hin' as [Hin'|[Hin'|[]]].
        * left. apply Hrows. exact Hin'.
        * inversion Hin'; subst. right. left. reflexivity.
    - split; [apply ext_refl| intros d r []]. }
  2: auto.
  intros _ s9 [H59 Hrows9]. simpl.
  apply wpe_bind_ext; [apply ext_facility_count_constraints|]. intros _ s10 H910.
  apply wpe_get_prob. split; [reflexivity|].
  intros d r Hin. split.
  - apply (ext_In_created s9); auto. apply (ext_In_created s5); auto. apply (HU d r Hin).
  - apply (ext_In_constraints s9); [exact H910 | exact (Hrows9 d r Hin)].
Qed.

Lemma eval_backup_row (sigma : vid -> Q) cov v :
  eval_aff sigma (cmp (sum_minus (cover_terms false cov) v) LpConstraintGE 1).(c_expr)
  == cover_sum sigma cov - sigma v.(v_id) - 1.
Proof.
  rewrite eval_cmp. unfold sum_minus. rewrite eval_aff_add, eval_scale, eval_lpSum,
    eval_cover_terms_unweighted.
  unfold eval_aff, aff_var. simpl. ring.
Qed.

(** C7 (corrected): for each demand unit [d] the backup model has the row
    [D<d>]: (sum of the covering facility variables) - [U_d] >= 1; hence in
    every feasible assignment in which the values of [d]'s covering
    facility variables sum to at most 1, [U_d = 0]. *)
Theorem backup_model_row_and_consequence (c : Coverage) (num_fac : Dict.t Q) (delineator : string)
    (use_serviceable_demand : bool) (s0 s : BState) (p : LpProblem) (d : string) (r : DemandRecord) :
  create_backup_model c num_fac delineator use_serviceable_demand s0 = (s, Ok p) ->
  In (d, r) c.(demand) ->
  (exists row, In (translate_name ("D" ++ d)%string, row) p.(constraints) /\
               row.(c_sense) = LpConstraintGE /\
               forall sigma, eval_aff sigma row.(c_expr)
                             == cover_sum sigma r.(d_coverage) - sigma (VDemand "U" d) - 1) /\
  (forall sigma, feasible p s.(created) sigma = true ->
                 cover_sum sigma r.(d_coverage) <= 1 -> sigma (VDemand "U" d) == 0).
Proof.
  intros Hrun Hin.
  pose proof (wpe_run _ _ _ _ _ _ (wpe_create_backup_model c num_fac delineator use_serviceable_demand s0) Hrun)
    as [Hp Hrow].
  destruct (Hrow d r Hin) as [HU HD].
  split.
  - eexists. split; [exact HD|]. split; [reflexivity|]. intros sigma. apply eval_backup_row.
  - intros sigma Hfeas Hle. unfold feasible in Hfeas. apply andb_prop in Hfeas as [Hc Hv].
    rewrite forallb_forall in Hc, Hv.
    pose proof (Hc _ HD) as Hsat.
    change (Qle_bool 0 (eval_aff sigma (cmp (sum_minus (cover_terms false r.(d_coverage))
      (mkLpVariable (VDemand "U" d) ("U" ++ delineator ++ d)%string (Some 0) (Some 1) LpInteger))
      LpConstraintGE 1).(c_expr)) = true) in Hsat.
    apply Qle_bool_iff in Hsat. rewrite eval_backup_row in Hsat. simpl in Hsat.
    pose proof (Hv _ HU) as Hb. unfold var_ok_b in Hb. simpl in Hb.
    apply andb_prop in Hb as [Hb _]. apply andb_prop in Hb as [Hb _]. apply Qle_bool_iff in Hb.
    lra.
Qed.




Lemma string_of_uint_inj a b : string_of_uint a = string_of_uint b -> a = b.
Proof.
  revert b. induction a; destruct b; simpl; intros H; try discriminate;
    try reflexivity; inversion H; f_equal; auto.
Qed.

Lemma auto_name_inj n m : auto_name n = auto_name m -> n = m.
Proof.
  unfold auto_name. simpl. intros H. inversion H.
  apply Unsigned.to_uint_inj, string_of_uint_inj. assumption.
Qed.

Lemma d_name_not_auto d k : translate_name ("D" ++ d) <> auto_name k.
Proof. simpl. discriminate. Qed.

Lemma d_names_nil p : p.(constraints) = [] -> d_names [] p.
Proof. intros H nm. rewrite H. intros []. Qed.

Lemma wpe_add_D (ds : Dict.t DemandRecord) pre x post c s :
  NoDup (map (fun dr => translate_name ("D" ++ fst dr)%string) ds) ->
  ds = pre ++ x :: post -> d_names pre s.(prob) ->
  wpe (add_constraint c (Some ("D" ++ fst x)%string))
    (fun _ s' => s'.(created) = s.(created) /\
                 s'.(prob).(constraints) = s.(prob).(constraints) ++ [(translate_name ("D" ++ fst x)%string, c)] /\
                 s'.(prob).(lastUnused) = s.(prob).(lastUnused) /\
                 d_names (pre ++ [x]) s'.(prob))
    (fun _ _ => False) s.
Proof.
  intros Hnd Hds Hn.
  eapply wpe_mono; [apply wpe_add_constraint_named| |].
  - intros _ s' [Hc [Hlu Hcs]]. split; [exact Hc|]. split; [exact Hcs|]. split; [exact Hlu|].
    intros nm Hnm. rewrite Hcs, map_app in Hnm. apply in_app_or in Hnm.
    rewrite map_app. destruct Hnm as [Hnm|[Hnm|[]]].
    + destruct (Hn nm Hnm) as [H|H].
      * left. apply in_or_app. left. exact H.
      * right. rewrite Hlu. exact H.
    + left. apply in_or_app. right. left. exact Hnm.
  - intros _ s' [_ Hin]. destruct (Hn _ Hin) as [H|[k [Hk _]]].
    + rewrite Hds, map_app in Hnd. apply NoDup_remove_2 in Hnd. apply Hnd.
      apply in_or_app. left. exact H.
    + exact (d_name_not_auto _ _ Hk).
Qed.

Lemma wpe_add_auto pre c s :
  d_names pre s.(prob) ->
  wpe (add_constraint c None)
    (fun _ s' => s'.(created) = s.(created) /\
                 s'.(prob).(constraints) = s.(prob).(constraints) ++ [(auto_name (S s.(prob).(lastUnused)), c)] /\
                 s'.(prob).(lastUnused) = S s.(prob).(lastUnused) /\
                 d_names pre s'.(prob))
    (fun _ _ => False) s.
Proof.
  intros Hn.
  assert (Hfresh : ~ In (auto_name (S s.(prob).(lastUnused))) (map fst s.(prob).(constraints))).
  { intros Hin. destruct (Hn _ Hin) as [H|[k [Hk Hle]]].
    - apply in_map_iff in H. destruct H as [dr [Hdr _]].
      exact (d_name_not_auto _ _ Hdr).
    - apply auto_name_inj in Hk. lia. }
  assert (Hi : unused_index (S (length (map fst s.(prob).(constraints)))) (S s.(prob).(lastUnused))
                 (map fst s.(prob).(constraints)) = S s.(prob).(lastUnused)).
  { cbn [unused_index]. destruct (existsb _ _) eqn:E; [|reflexivity].
    apply existsb_eqb_In in E. contradiction. }
  eapply wpe_mono; [apply wpe_add_constraint_unnamed| |].
  - cbv zeta. rewrite Hi. intros _ s' [Hc [Hlu Hcs]]. split; [exact Hc|]. split; [exact Hcs|].
    split; [exact Hlu|].
    intros nm Hnm. rewrite Hcs, map_app in Hnm. apply in_app_or in Hnm.
    destruct Hnm as [Hnm|[Hnm|[]]].
    + destruct (Hn nm Hnm) as [H|[k [Hk Hle]]]; [left; exact H|].
      right. exists k. split; [exact Hk|]. rewrite Hlu. lia.
    + right. exists (S s.(prob).(lastUnused)). split; [symmetry; exact Hnm|]. rewrite Hlu. lia.
  - cbv zeta. rewrite Hi. intros _ s' [_ Hin]. contradiction.
Qed.

Lemma cover_terms_empty w cov :
  (forall T fq, In (T, fq) cov -> fq = []) -> cover_terms w cov = [].
Proof.
  unfold cover_terms. induction cov as [|[T fq] r IH]; intros H; simpl; [reflexivity|].
  rewrite (H T fq (or_introl eq_refl)). simpl. apply IH. intros T' fq' H'. apply (H T'). right. exact H'.
Qed.

Lemma refs_complete (c : Coverage) fv d r :
  NoDup (Dict.keys c.(facilities)) -> coverage_refs_ok c -> fv_complete c.(facilities) fv ->
  In (d, r) c.(demand) ->
  forall T fq f, In (T, fq) r.(d_coverage) -> In f (Dict.keys fq) ->
    (exists mv v, Dict.get T fv = Some mv /\ Dict.get f mv = Some v) \/ False.
Proof.
  intros _ Hrefs Hc Hin T fq f HT Hf. left.
  destruct (Hrefs d r T fq f Hin HT Hf) as [fs [HTfs Hffs]].
  exact (Hc T fs f HTfs Hffs).
Qed.

Lemma in_mid {X} (pre post : list X) x : In x (pre ++ x :: post).
Proof. apply in_or_app. right. left. reflexivity. Qed.

Lemma wpe_create_lscp_model c delin s0 d r :
  c.(ctype) = "binary" -> c.(cmode) = "coverage" ->
  NoDup (Dict.keys c.(facilities)) -> coverage_refs_ok c ->
  NoDup (map (fun dr => translate_name ("D" ++ fst dr)%string) c.(demand)) ->
  In (d, r) c.(demand) -> (forall T fq, In (T, fq) r.(d_coverage) -> fq = []) ->
  wpe (create_lscp_model c delin)
    (fun p s => In (translate_name ("D" ++ d)%string,
                    mkLpConstraint (mkAff [(VDummy d, 1)] (-1)) LpConstraintGE) p.(constraints) /\
                In (lscp_dummy delin d) s.(created))
    (fun _ _ => False) s0.
Proof.
  intros Hty Hmo Hfnd Hrefs Hdnd Hin Hempty.
  unfold create_lscp_model.
  apply wpe_validateM; [intros _ | intros e; rewrite Hty, Hmo; discriminate].
  apply wpe_bind. eapply wpe_mono; [apply wpe_make_demand_vars| |auto].
  intros dv s1 [_ Hdv].
  apply wpe_bind. eapply wpe_mono; [apply wpe_make_facility_vars| |auto].
  intros fv s2 [_ [_ [Hlab Hcomp]]]. specialize (Hcomp Hfnd).
  apply wpe_new_problem. set (s3 := mkBState _ _).
  apply wpe_bind. eapply wpe_mono; [apply wpe_all_facility_terms; exact Hcomp| |auto].
  intros obj s4 ->.
  apply wpe_set_objective. set (s5 := mkBState _ _).
  unfold forM_. apply wpe_bind.
  eapply wpe_mono.
  { apply (wpe_foldM _ c.(demand) (fun pre _ s' => d_names pre s'.(prob) /\
             (In (d, r) pre ->
                In (translate_name ("D" ++ d)%string,
                    mkLpConstraint (mkAff [(VDummy d, 1)] (-1)) LpConstraintGE) s'.(prob).(constraints) /\
                In (lscp_dummy delin d) s'.(created))) (fun _ _ => False)).
    - intros pre [d' r'] post _ s6 Hdem [Hn6 Hrow6]. cbv beta. simpl fst. simpl snd.
      apply wpe_bind. eapply wpe_mono.
      { apply (wpe_coverage_terms false fv r'.(d_coverage) s6 False Hlab).
        apply (refs_complete c fv d' r'); auto. rewrite Hdem. apply in_mid. }
      2: (cbv beta; intros; tauto).
      intros ts s7 [-> ->].
      (* the terms, or the dummy when there are none *)
      apply wpe_bind.
      eapply (wpe_mono _ (fun ts' s8 =>
        ext s6 s8 /\ s8.(prob) = s6.(prob) /\
        ((d', r') = (d, r) -> ts' = [aff_var (lscp_dummy delin d)] /\ In (lscp_dummy delin d) s8.(created)))
        _ (fun _ _ => False)).
      { destruct (cover_terms false r'.(d_coverage)) as [|t ts] eqn:Hts.
        - unfold wpe, bind, new_var, ret. simpl. split; [|split; [reflexivity|]].
          + split; [eexists; reflexivity| exists []; rewrite app_nil_r; reflexivity].
          + intros Heq. inversion Heq; subst d' r'. split; [reflexivity|].
            apply in_or_app. right. left. reflexivity.
        - apply wpe_ret. split; [apply ext_refl|]. split; [reflexivity|].
          intros Heq. inversion Heq; subst d' r'.
          rewrite cover_terms_empty in Hts by exact Hempty. discriminate. }
      2: (cbv beta; intros; tauto).
      intros ts' s8 [H68 [Hp68 Hdum]].
      eapply wpe_mono.
      { apply (wpe_add_D c.(demand) pre (d', r') post); auto. rewrite Hp68. exact Hn6. }
      2: (cbv beta; intros; tauto).
      intros _ s9 [Hc9 [Hcs9 [_ Hn9]]]. split; [exact Hn9|].
      intros Hin'. apply in_app_or in Hin'. destruct Hin' as [Hin'|[Hin'|[]]].
      + destruct (Hrow6 Hin') as [HR HD]. split.
        * rewrite Hcs9, Hp68. apply in_or_app. left. exact HR.
        * rewrite Hc9. apply (ext_In_created s6); auto.
      + destruct (Hdum Hin') as [-> HD]. inversion Hin'; subst d' r'. split.
        * rewrite Hcs9. apply in_or_app. right. left. reflexivity.
        * rewrite Hc9. exact HD.
    - split; [apply d_names_nil; reflexivity| intros []]. }
  2: auto.
  intros _ s10 [_ Hrow10]. apply wpe_get_prob. apply Hrow10.
  (* [(d, r)] is one of the demand records *)
  exact Hin.
Qed.

Lemma wpe_ok {A} (m : M A) Q s :
  wpe m Q (fun _ _ => False) s -> exists s' a, m s = (s', Ok a) /\ Q a s'.
Proof. unfold wpe. destruct (m s) as [s' [a|e]]; [eauto | tauto]. Qed.

Lemma wpe_err {A} (m : M A) (e0 : pyerr) s :
  wpe m (fun _ _ => False) (fun e _ => e = e0) s -> snd (m s) = Err e0.
Proof. unfold wpe. destruct (m s) as [s' [a|e]]; simpl; [tauto | intros ->; reflexivity]. Qed.

Lemma sum_weights_run dv (ds : Dict.t DemandRecord) a s :
  (forall d r, In (d, r) ds -> exists q, raw_weight dv r = PyNum q) ->
  exists q, foldM (fun acc dr => w <- liftR (weight dv (snd dr)) ;; ret (acc + w)) a ds s = (s, Ok q) /\
            q == a + weight_sum dv ds.
Proof.
  revert a. induction ds as [|[d r] rest IH]; intros a Hnum; simpl.
  - exists a. split; [reflexivity|]. unfold weight_sum. simpl. ring.
  - destruct (Hnum d r (or_introl eq_refl)) as [q0 Hq0].
    destruct (IH (a + q0)) as [q [Hq Hqe]].
    { intros d' r' H. apply (Hnum d'). right. exact H. }
    exists q. unfold bind at 1. unfold weight at 1. rewrite Hq0. simpl.
    rewrite Hq. split; [reflexivity|]. rewrite Hqe. ring.
Qed.

Lemma threshold_constraint_zero dv ds dvars sw psi name s :
  ds <> [] -> (forall d r, In (d, r) ds -> exists q, raw_weight dv r = PyNum q) ->
  weight_sum dv ds == 0 ->
  threshold_constraint dv ds dvars sw psi name s = (s, Err ZeroDivisionError).
Proof.
  intros Hne Hnum Hz. destruct (sum_weights_run dv ds 0 s Hnum) as [q [Hq Hqe]].
  assert (H0 : Qeq_bool q 0 = true) by (apply Qeq_bool_iff; rewrite Hqe, Hz; reflexivity).
  unfold threshold_constraint. unfold bind at 1. rewrite Hq.
  destruct ds as [|x rest]; [contradiction|].
  cbn [foldM]. rewrite H0. reflexivity.
Qed.

Lemma wpe_weaken_err {A} (m : M A) Q E s :
  wpe m Q (fun _ _ => False) s -> wpe m Q E s.
Proof. intros H. eapply wpe_mono; [exact H| auto | intros ? ? []]. Qed.

Lemma wpe_create_threshold_zero c psi delin usd s0 :
  c.(ctype) = "binary" -> c.(cmode) = "coverage" -> out_of_range 0 100 psi = false ->
  NoDup (Dict.keys c.(facilities)) -> coverage_refs_ok c ->
  NoDup (map (fun dr => translate_name ("D" ++ fst dr)%string) c.(demand)) ->
  c.(demand) <> [] ->
  (forall d r, In (d, r) c.(demand) -> exists q, raw_weight (demand_var_of usd) r = PyNum q) ->
  weight_sum (demand_var_of usd) c.(demand) == 0 ->
  wpe (create_threshold_model c psi delin usd) (fun _ _ => False)
    (fun e _ => e = ZeroDivisionError) s0.
Proof.
  intros Hty Hmo Hpsi Hfnd Hrefs Hdnd Hne Hnum Hz.
  unfold create_threshold_model. cbv zeta.
  apply wpe_validateM; [intros _ | intros e; rewrite Hty, Hmo; discriminate].
  rewrite Hpsi. apply wpe_bind. apply wpe_ret.
  apply wpe_bind. eapply wpe_mono; [apply wpe_make_demand_vars| |intros ? ? []].
  intros dv s1 [_ Hdv].
  apply wpe_bind. eapply wpe_mono; [apply wpe_make_facility_vars| |intros ? ? []].
  intros fv s2 [_ [_ [Hlab Hcomp]]]. specialize (Hcomp Hfnd).
  apply wpe_new_problem.
  apply wpe_bind. eapply wpe_mono; [apply wpe_all_facility_terms; exact Hcomp| |intros ? ? []].
  intros obj s4 ->.
  apply wpe_set_objective.
  unfold forM_. apply wpe_bind.
  eapply wpe_mono.
  { apply (wpe_foldM _ c.(demand) (fun pre _ s' => d_names pre s'.(prob)) (fun _ _ => False)).
    - intros pre [d' r'] post _ s6 Hdem Hn6. cbv beta. simpl fst. simpl snd.
      apply wpe_bind. eapply wpe_mono.
      { apply (wpe_coverage_terms false fv r'.(d_coverage) s6 False Hlab).
        apply (refs_complete c fv d' r'); auto. rewrite Hdem. apply in_mid. }
      2: (cbv beta; intros; tauto).
      intros ts s7 [-> ->].
      apply (wpe_getM_some _ _ (mkLpVariable (VDemand "Y" d') ("Y" ++ delin ++ d')%string (Some 0) (Some 1) LpInteger)).
      { apply Hdv. rewrite Hdem. apply (In_keys _ r'). apply in_mid. }
      eapply wpe_mono; [apply (wpe_add_D c.(demand) pre (d', r') post); auto| |auto].
      intros _ s9 [_ [_ [_ Hn9]]]. exact Hn9.
    - apply d_names_nil. reflexivity. }
  2: (intros ? ? []).
  intros _ s10 _.
  apply wpe_bind. unfold wpe at 1. rewrite threshold_constraint_zero; auto.
Qed.

Lemma wpe_create_cc_threshold_zero c psi delin usd s0 :
  c.(ctype) = "partial" -> c.(cmode) = "coverage" -> out_of_range 0 100 psi = false ->
  NoDup (Dict.keys c.(facilities)) -> coverage_refs_ok c ->
  NoDup (map (fun dr => translate_name ("D" ++ fst dr)%string) c.(demand)) ->
  c.(demand) <> [] ->
  (forall d r, In (d, r) c.(demand) -> exists q, raw_weight (demand_var_of usd) r = PyNum q) ->
  weight_sum (demand_var_of usd) c.(demand) == 0 ->
  wpe (create_cc_threshold_model c psi delin usd) (fun _ _ => False)
    (fun e _ => e = ZeroDivisionError) s0.
Proof.
  intros Hty Hmo Hpsi Hfnd Hrefs Hdnd Hne Hnum Hz.
  unfold create_cc_threshold_model. cbv zeta.
  apply wpe_validateM; [intros _ | intros e; rewrite Hty, Hmo; discriminate].
  rewrite Hpsi. apply wpe_bind. apply wpe_ret.
  apply wpe_bind. eapply wpe_mono; [apply wpe_make_demand_vars| |intros ? ? []].
  intros dv s1 [_ Hdv].
  apply wpe_bind. eapply wpe_mono; [apply wpe_make_facility_vars| |intros ? ? []].
  intros fv s2 [_ [_ [Hlab Hcomp]]]. specialize (Hcomp Hfnd).
  apply wpe_new_problem.
  apply wpe_bind. eapply wpe_mono; [apply wpe_all_facility_terms; exact Hcomp| |intros ? ? []].
  intros obj s4 ->.
  apply wpe_set_objective.
  unfold forM_. apply wpe_bind.
  eapply wpe_mono.
  { apply (wpe_foldM _ c.(demand) (fun pre _ s' => d_names pre s'.(prob)) (fun _ _ => False)).
    - intros pre [d' r'] post _ s6 Hdem Hn6. cbv beta. simpl fst. simpl snd.
      apply wpe_bind. eapply wpe_mono.
      { apply (wpe_coverage_terms true fv r'.(d_coverage) s6 False Hlab).
        apply (refs_complete c fv d' r'); auto. rewrite Hdem. apply in_mid. }
      2: (cbv beta; intros; tauto).
      intros ts s7 [-> ->].
      apply (wpe_getM_some _ _ (mkLpVariable (VDemand "Y" d') ("Y" ++ delin ++ d')%string (Some 0) None LpContinuous)).
      { apply Hdv. rewrite Hdem. apply (In_keys _ r'). apply in_mid. }
      apply wpe_bind.
      eapply wpe_mono; [apply (wpe_add_D c.(demand) pre (d', r') post); auto| |auto].
      intros _ s9 [_ [_ [_ Hn9]]].
      eapply wpe_mono; [apply (wpe_add_auto (pre ++ [(d', r')])); exact Hn9| |auto].
      intros _ s10 [_ [_ [_ Hn10]]]. exact Hn10.
    - apply d_names_nil. reflexivity. }
  2: (intros ? ? []).
  intros _ s10 _.
  apply wpe_bind. unfold wpe at 1. rewrite threshold_constraint_zero; auto.
Qed.


Lemma rfold_inv {A X} (f : A -> X -> result A) (L : list X) (I : list X -> A -> Prop) :
  (forall pre x post a, L = pre ++ x :: post -> I pre a -> exists a', f a x = Ok a' /\ I (pre ++ [x]) a') ->
  forall a, I [] a -> exists a', rfold f a L = Ok a' /\ I L a'.
Proof.
  intros Hstep.
  assert (G : forall rest pre a, L = pre ++ rest -> I pre a -> exists a', rfold f a rest = Ok a' /\ I L a').
  { induction rest as [|x rest IH]; intros pre a HL HI; simpl.
    - exists a. rewrite app_nil_r in HL. subst. auto.
    - destruct (Hstep pre x rest a HL HI) as [a' [Hf HI']]. rewrite Hf. simpl.
      apply (IH (pre ++ [x]) a'); auto. rewrite <- app_assoc. exact HL. }
  intros a H. exact (G L [] a eq_refl H).
Qed.

Lemma get_app {V} (k : string) (a b : Dict.t V) :
  Dict.get k (a ++ b) = match Dict.get k a with Some v => Some v | None => Dict.get k b end.
Proof. induction a as [|[k1 v1] r IH]; simpl; [reflexivity|]. destruct (String.eqb k k1); auto. Qed.

Lemma get_None_iff {V} (k : string) (d : Dict.t V) : Dict.get k d = None <-> ~ In k (Dict.keys d).
Proof.
  induction d as [|[k1 v1] r IH]; simpl; [tauto|].
  destruct (String.eqb k k1) eqn:E.
  - apply String.eqb_eq in E. subst. split; [discriminate| intros H; exfalso; apply H; left; reflexivity].
  - apply String.eqb_neq in E. rewrite IH. split.
    + intros H [H'|H']; [congruence | auto].
    + intros H H'. apply H. right. exact H'.
Qed.

Lemma set_app_absent {V} (k : string) (v : V) (a b : Dict.t V) :
  ~ In k (Dict.keys a) -> Dict.set k v (a ++ b) = a ++ Dict.set k v b.
Proof.
  induction a as [|[k1 v1] r IH]; simpl; intros H; [reflexivity|].
  destruct (String.eqb k k1) eqn:E.
  - apply String.eqb_eq in E. subst. exfalso. apply H. left. reflexivity.
  - f_equal. apply IH. intros H'. apply H. right. exact H'.
Qed.

Lemma set_absent {V} (k : string) (v : V) (a : Dict.t V) :
  ~ In k (Dict.keys a) -> Dict.set k v a = a ++ [(k, v)].
Proof.
  intros H. rewrite <- (app_nil_r a) at 1. rewrite set_app_absent by exact H. reflexivity.
Qed.

Lemma set_last {V} (k : string) (v x : V) (a : Dict.t V) :
  ~ In k (Dict.keys a) -> Dict.set k v (a ++ [(k, x)]) = a ++ [(k, v)].
Proof.
  intros H. rewrite set_app_absent by exact H. simpl. rewrite String.eqb_refl. reflexivity.
Qed.

Lemma keys_app {V} (a b : Dict.t V) : Dict.keys (a ++ b) = Dict.keys a ++ Dict.keys b.
Proof. apply map_app. Qed.

Lemma mem_false {V} (k : string) (d : Dict.t V) : ~ In k (Dict.keys d) -> Dict.mem k d = false.
Proof. intros H. unfold Dict.mem. apply get_None_iff in H. rewrite H. reflexivity. Qed.

(** The conflict check passes when the names are new. *)
Lemma check_facility_items_ok items acc :
  NoDup (Dict.keys items) ->
  (forall k, In k (Dict.keys items) -> ~ In k (Dict.keys acc)) ->
  check_facility_items items acc = Ok (acc ++ items).
Proof.
  revert acc. induction items as [|it r IH]; intros acc Hnd Hdis; simpl.
  - rewrite app_nil_r. reflexivity.
  - inversion Hnd as [|? ? Hit Hnd']; subst.
    assert (E : existsb (item_eqb it) acc = false).
    { apply Bool.not_true_iff_false. intros H. apply existsb_exists in H.
      destruct H as [a [Ha Heq]]. unfold item_eqb in Heq. apply andb_prop in Heq as [Heq _].
      apply String.eqb_eq in Heq. apply (Hdis (fst it)); [left; reflexivity|].
      rewrite Heq. apply (in_map fst). exact Ha. }
    rewrite E. rewrite IH; auto.
    + rewrite <- app_assoc. reflexivity.
    + intros k Hk. rewrite keys_app. intros H. apply in_app_or in H. destruct H as [H|[H|[]]].
      * apply (Hdis k); auto. right. exact Hk.
      * subst. contradiction.
Qed.

Lemma set_eqb_true a b : (forall k, In k a <-> In k b) -> set_eqb a b = true.
Proof.
  intros H. unfold set_eqb. apply andb_true_intro. split; apply forallb_forall; intros k Hk;
    apply existsb_eqb_In; apply H; auto.
Qed.

Lemma merge_facilities_app mf cf :
  NoDup (Dict.keys cf) -> (forall T, In T (Dict.keys cf) -> ~ In T (Dict.keys mf)) ->
  merge_facilities mf cf = mf ++ cf.
Proof.
  unfold merge_facilities. revert mf. induction cf as [|[T fs] r IH]; intros mf Hnd Hdis; cbn [fold_left].
  - rewrite app_nil_r. reflexivity.
  - inversion Hnd as [|? ? HT Hnd']; subst.
    assert (HTm : ~ In T (Dict.keys mf)) by (apply Hdis; left; reflexivity).
    cbn [fst snd]. rewrite (mem_false (V := list (string * meta)) T mf HTm), (set_absent (V := list (string * meta)) _ _ _ HTm), (set_last (V := list (string * meta)) _ _ _ _ HTm).
    rewrite IH; auto.
    + rewrite <- app_assoc. reflexivity.
    + intros T' HT'. rewrite keys_app. intros H. apply in_app_or in H. destruct H as [H|[H|[]]].
      * apply (Hdis T'); auto. right. exact HT'.
      * simpl in H. subst. contradiction.
Qed.


Lemma set_get_same {V} (k : string) (v : V) (d : Dict.t V) :
  Dict.get k d = Some v -> Dict.set k v d = d.
Proof.
  induction d as [|[k1 v1] r IH]; simpl; [discriminate|].
  destruct (String.eqb k k1); [congruence|]. intros H. rewrite IH; auto.
Qed.

Lemma set_set {V} (k : string) (v w : V) (d : Dict.t V) :
  Dict.set k v (Dict.set k w d) = Dict.set k v d.
Proof.
  induction d as [|[k1 v1] r IH]; simpl.
  - rewrite String.eqb_refl. reflexivity.
  - destruct (String.eqb k k1) eqn:E; simpl; rewrite E; [reflexivity|]. rewrite IH. reflexivity.
Qed.

Lemma set_demand_rec_twice d x y m :
  set_demand_rec d x (set_demand_rec d y m) = set_demand_rec d x m.
Proof. unfold set_demand_rec. simpl. rewrite set_set. reflexivity. Qed.

Lemma get_app_last {V} (k : string) (x : V) (l : Dict.t V) :
  ~ In k (Dict.keys l) -> Dict.get k (l ++ [(k, x)]) = Some x.
Proof.
  intros H. rewrite get_app. apply get_None_iff in H. rewrite H. simpl.
  rewrite String.eqb_refl. reflexivity.
Qed.

Section MergeLoops.
Variable ct : string.
Hypothesis Hct : ct <> "Binary".

Lemma merge_entry_step cd d T m r0 l1 pre3 f v :
  Dict.get d m.(demand) = Some (set_dcov r0 (l1 ++ [(T, pre3)])) ->
  ~ In T (Dict.keys l1) -> ~ In f (Dict.keys pre3) ->
  merge_entry ct cd d T m (f, v) =
  Ok (set_demand_rec d (set_dcov r0 (l1 ++ [(T, pre3 ++ [(f, v)])])) m).
Proof.
  intros Hg HT Hf. unfold merge_entry, getr. rewrite Hg. cbn [rbind fst snd].
  unfold set_dcov. cbn [d_coverage d_demand serviceableDemand].
  rewrite (get_app_last _ _ _ HT). cbn [rbind].
  rewrite (set_absent _ _ _ Hf), (set_last _ _ _ _ HT).
  apply String.eqb_neq in Hct. rewrite Hct. reflexivity.
Qed.

Lemma merge_type_step cd d m r0 l1 T fq :
  Dict.get d m.(demand) = Some (set_dcov r0 l1) ->
  ~ In T (Dict.keys l1) -> NoDup (Dict.keys fq) ->
  merge_type ct cd d m (T, fq) = Ok (set_demand_rec d (set_dcov r0 (l1 ++ [(T, fq)])) m).
Proof.
  intros Hg HT Hnd. unfold merge_type, getr. rewrite Hg. cbn [rbind fst snd].
  unfold set_dcov at 1 2. cbn [d_coverage d_demand serviceableDemand].
  rewrite (mem_false _ _ HT), (set_absent _ _ _ HT).
  destruct (rfold_inv (merge_entry ct cd d T) fq
      (fun pre3 a => a = set_demand_rec d (set_dcov r0 (l1 ++ [(T, pre3)])) m))
    with (a := set_demand_rec d (set_dcov r0 (l1 ++ [(T, [])])) m) as [a [Ha ->]].
  - intros pre [f v] post a Hfq ->.
    eexists. split.
    + apply merge_entry_step.
      * unfold set_demand_rec. cbn [demand]. apply get_set_same.
      * exact HT.
      * rewrite Hfq in Hnd. unfold Dict.keys in Hnd. rewrite map_app in Hnd.
        apply NoDup_remove_2 in Hnd. intros H. apply Hnd. apply in_or_app. left. exact H.
    + apply set_demand_rec_twice.
  - unfold set_dcov. reflexivity.
  - exact Ha.
Qed.

Lemma merge_record_step cd d m r0 :
  Dict.get d m.(demand) = Some r0 ->
  NoDup (Dict.keys cd.(d_coverage)) ->
  (forall T, In T (Dict.keys cd.(d_coverage)) -> ~ In T (Dict.keys r0.(d_coverage))) ->
  (forall T fq, In (T, fq) cd.(d_coverage) -> NoDup (Dict.keys fq)) ->
  rfold (merge_type ct cd d) m cd.(d_coverage) =
  Ok (set_demand_rec d (set_dcov r0 (r0.(d_coverage) ++ cd.(d_coverage))) m).
Proof.
  intros Hg Hnd Hdis Hfq.
  destruct (rfold_inv (merge_type ct cd d) cd.(d_coverage)
      (fun pre2 a => a = set_demand_rec d (set_dcov r0 (r0.(d_coverage) ++ pre2)) m))
    with (a := m) as [a [Ha ->]].
  - intros pre [T fq] post a Hc ->.
    eexists. split.
    + apply merge_type_step.
      * unfold set_demand_rec. cbn [demand]. apply get_set_same.
      * rewrite keys_app. intros H. apply in_app_or in H. destruct H as [H|H].
        -- apply (Hdis T); auto. rewrite Hc. unfold Dict.keys. rewrite map_app.
           apply in_or_app. right. left. reflexivity.
        -- rewrite Hc in Hnd. unfold Dict.keys in Hnd. rewrite map_app in Hnd.
           apply NoDup_remove_2 in Hnd. apply Hnd. apply in_or_app. left. exact H.
      * apply (Hfq T fq). rewrite Hc. apply in_or_app. right. left. reflexivity.
    + rewrite set_demand_rec_twice, app_assoc. reflexivity.
  - rewrite app_nil_r. destruct r0 as [dd sv cv]. unfold set_dcov. cbn.
    destruct m as [t1 t2 t3 t4 t5]. unfold set_demand_rec. cbn in *.
    rewrite (set_get_same _ _ _ Hg). reflexivity.
  - exact Ha.
Qed.

End MergeLoops.

Lemma keys_get {V} (k : string) (d : Dict.t V) :
  In k (Dict.keys d) -> exists v, Dict.get k d = Some v.
Proof.
  intros H. destruct (Dict.get k d) as [v|] eqn:E; [eauto|].
  apply get_None_iff in E. contradiction.
Qed.

Lemma In_keys_pair {V} (k : string) (v : V) (d : Dict.t V) : In (k, v) d -> In k (Dict.keys d).
Proof. intros H. apply (in_map fst) in H. exact H. Qed.

Lemma nodup_mid_notin {V} (k : string) (v : V) (pre post : Dict.t V) :
  NoDup (Dict.keys (pre ++ (k, v) :: post)) -> ~ In k (Dict.keys pre).
Proof.
  unfold Dict.keys. rewrite map_app. intros H. apply NoDup_remove_2 in H.
  intros H'. apply H. apply in_or_app. left. exact H'.
Qed.

(** The demand loop of [merge_one]: every demand unit of [A] gets the
    coverage of [B] appended to its own. *)
Lemma merge_one_demand ct A B :
  ct <> "Binary" -> store_ok A -> store_ok B ->
  (forall T, In T (Dict.keys A.(facilities)) -> ~ In T (Dict.keys B.(facilities))) ->
  (forall d, In d (Dict.keys A.(demand)) <-> In d (Dict.keys B.(demand))) ->
  exists M, merge_one ct A B = Ok M /\
    M.(facilities) = A.(facilities) ++ B.(facilities) /\
    Dict.keys M.(demand) = Dict.keys A.(demand) /\
    forall d rA rB, Dict.get d A.(demand) = Some rA -> Dict.get d B.(demand) = Some rB ->
      Dict.get d M.(demand) = Some (set_dcov rA (rA.(d_coverage) ++ rB.(d_coverage))).
Proof.
  intros Hct [HfA [HdA HrA]] [HfB [HdB HrB]] Hdis Hkeys.
  unfold merge_one. rewrite merge_facilities_app.
  2: exact HfB.
  2: { intros T HT HT'. exact (Hdis T HT' HT). }
  destruct (rfold_inv
      (fun m dr => rfold (merge_type ct (snd dr) (fst dr)) m (snd dr).(d_coverage)) B.(demand)
      (fun pre a => a.(facilities) = A.(facilities) ++ B.(facilities) /\
         Dict.keys a.(demand) = Dict.keys A.(demand) /\
         forall d rA, Dict.get d A.(demand) = Some rA ->
           Dict.get d a.(demand) =
           Some (match Dict.get d pre with
                 | Some rB => set_dcov rA (rA.(d_coverage) ++ rB.(d_coverage))
                 | None => rA end)))
    with (a := set_facilities (A.(facilities) ++ B.(facilities)) A)
    as [M [HM [Hf [Hk Hg]]]].
  - intros pre [d0 cd0] post a HB [Haf [Hak Hag]]. cbn [fst snd].
    assert (Hin0 : In (d0, cd0) B.(demand)) by (rewrite HB; apply in_or_app; right; left; reflexivity).
    destruct (keys_get d0 A.(demand)) as [rA0 HA0].
    { apply Hkeys. exact (In_keys_pair _ _ _ Hin0). }
    assert (Hpre : Dict.get d0 pre = None).
    { apply get_None_iff. rewrite HB in HdB. exact (nodup_mid_notin _ _ _ _ HdB). }
    destruct (HrB d0 cd0 Hin0) as [Hcnd Hcov].
    eexists. split.
    + apply (merge_record_step ct Hct cd0 d0 a rA0).
      * rewrite (Hag d0 rA0 HA0), Hpre. reflexivity.
      * exact Hcnd.
      * intros T HT HTA. destruct (proj1 (in_map_iff fst _ _) HT) as [[T' fq] [HT' Hfq]].
        cbn in HT'. subst T'. destruct (Hcov T fq Hfq) as [HTB _].
        destruct (proj1 (in_map_iff fst _ _) HTA) as [[T' fq'] [HT' Hfq']].
        cbn in HT'. subst T'.
        destruct (HrA d0 rA0 (get_In _ _ _ HA0)) as [_ HcovA].
        destruct (HcovA T fq' Hfq') as [HTA' _].
        exact (Hdis T HTA' HTB).
      * intros T fq Hfq. exact (proj2 (Hcov T fq Hfq)).
    + unfold set_demand_rec. cbn [facilities demand]. split; [exact Haf|]. split.
      * rewrite keys_set_present; [exact Hak|]. rewrite (Hag d0 rA0 HA0). discriminate.
      * intros d rA HA. rewrite get_set, get_app. cbn [Dict.get].
        destruct (String.eqb d d0) eqn:E.
        -- apply String.eqb_eq in E. subst d. rewrite Hpre. rewrite HA in HA0.
           inversion HA0; subst. reflexivity.
        -- rewrite (Hag d rA HA). destruct (Dict.get d pre); reflexivity.
  - unfold set_facilities. cbn. split; [reflexivity|]. split; [reflexivity|].
    intros d rA HA. rewrite HA. reflexivity.
  - exists M. split; [exact HM|]. split; [exact Hf|]. split; [exact Hk|].
    intros d rA rB HA HB. rewrite (Hg d rA HA), HB. reflexivity.
Qed.

Lemma merge_two_run A B :
  A.(ctype) = B.(ctype) -> A.(cmode) = "coverage" -> B.(cmode) = "coverage" ->
  NoDup (Dict.keys A.(facilities)) -> NoDup (Dict.keys B.(facilities)) ->
  (forall T, In T (Dict.keys A.(facilities)) -> ~ In T (Dict.keys B.(facilities))) ->
  (forall d, In d (Dict.keys A.(demand)) <-> In d (Dict.keys B.(demand))) ->
  merge_coverages [A; B] = merge_one A.(ctype) A B.
Proof.
  intros Ht HmA HmB HfA HfB Hdis Hkeys.
  unfold merge_coverages. cbn [merge_check].
  unfold validate_coverage. rewrite HmA, HmB, <- Ht. cbn [existsb].
  rewrite !String.eqb_refl. cbn [negb orb].
  rewrite (check_facility_items_ok A.(facilities) []); [|exact HfA|intros k _ []].
  cbn [rbind]. rewrite (check_facility_items_ok B.(facilities)).
  2: exact HfB.
  2: { intros k Hk Hk'. apply (Hdis k); auto. }
  cbn [rbind merge_check snd fst app].
  assert (E : demand_keys_invalid [Dict.keys A.(demand); Dict.keys B.(demand)] = false).
  { unfold demand_keys_invalid. cbn [existsb].
    rewrite !set_eqb_true; try reflexivity; intros k; try tauto; firstorder. }
  rewrite E. cbn [rfold]. destruct (merge_one A.(ctype) A B); reflexivity.
Qed.

Lemma get_app_disjoint {V} (k : string) (a b : Dict.t V) :
  (forall x, In x (Dict.keys a) -> ~ In x (Dict.keys b)) ->
  Dict.get k (a ++ b) = Dict.get k (b ++ a).
Proof.
  intros Hd. rewrite !get_app.
  destruct (Dict.get k a) as [va|] eqn:Ea; destruct (Dict.get k b) as [vb|] eqn:Eb; auto.
  exfalso. apply (Hd k).
  - apply (In_keys_pair _ va). exact (get_In _ _ _ Ea).
  - apply (In_keys_pair _ vb). exact (get_In _ _ _ Eb).
Qed.

(** C4 (corrected): for two stores of the same type tag other than
    ["Binary"], in mode ["coverage"], with distinct keys, coverage types
    drawn from their own facility types, disjoint facility-type names and
    the same demand ids, both [merge([A, B])] and [merge([B, A])] succeed
    with the same facility lookups and the same coverage lookups; the
    serviceable demand of each demand unit is the first store's. *)
Theorem merge_two_orders (A B : Coverage) :
  A.(ctype) = B.(ctype) -> A.(ctype) <> "Binary" ->
  A.(cmode) = "coverage" -> B.(cmode) = "coverage" ->
  store_ok A -> store_ok B ->
  (forall T, In T (Dict.keys A.(facilities)) -> ~ In T (Dict.keys B.(facilities))) ->
  (forall d, In d (Dict.keys A.(demand)) <-> In d (Dict.keys B.(demand))) ->
  exists M1 M2, merge_coverages [A; B] = Ok M1 /\ merge_coverages [B; A] = Ok M2 /\
    (forall T, Dict.get T M1.(facilities) = Dict.get T M2.(facilities)) /\
    (forall d T, lookup_cov d T M1 = lookup_cov d T M2) /\
    (forall d, sd_of d M1 = sd_of d A /\ sd_of d M2 = sd_of d B).
Proof.
  intros Ht Hbin HmA HmB HA HB Hdis Hkeys.
  assert (Hdis' : forall T, In T (Dict.keys B.(facilities)) -> ~ In T (Dict.keys A.(facilities)))
    by (intros T H1 H2; exact (Hdis T H2 H1)).
  assert (Hkeys' : forall d, In d (Dict.keys B.(demand)) <-> In d (Dict.keys A.(demand)))
    by (intros d; symmetry; apply Hkeys).
  destruct (merge_one_demand A.(ctype) A B Hbin HA HB Hdis Hkeys) as [M1 [H1 [F1 [K1 G1]]]].
  destruct (merge_one_demand B.(ctype) B A ltac:(rewrite <- Ht; exact Hbin) HB HA Hdis' Hkeys')
    as [M2 [H2 [F2 [K2 G2]]]].
  pose proof HA as [HfA [HdA HrA]]. pose proof HB as [HfB [HdB HrB]].
  exists M1, M2. split; [rewrite merge_two_run; auto|].
  split; [rewrite merge_two_run; auto; rewrite HmB, HmA; auto|].
  assert (Hnone : forall d, Dict.get d A.(demand) = None ->
            Dict.get d M1.(demand) = None /\ Dict.get d M2.(demand) = None /\
            Dict.get d B.(demand) = None).
  { intros d Hd. apply get_None_iff in Hd. rewrite !get_None_iff, K1, K2.
    split; [exact Hd|]. split; intros H; apply Hd; apply Hkeys; exact H. }
  split; [|split].
  - intros T. rewrite F1, F2. apply get_app_disjoint. exact Hdis.
  - intros d T. unfold lookup_cov.
    destruct (Dict.get d A.(demand)) as [rA|] eqn:EA.
    + destruct (keys_get d B.(demand)) as [rB EB].
      { apply Hkeys. apply (In_keys_pair _ rA). exact (get_In _ _ _ EA). }
      rewrite (G1 d rA rB EA EB), (G2 d rB rA EB EA). unfold set_dcov. cbn [d_coverage].
      apply get_app_disjoint. intros x Hx Hx'.
      destruct (proj1 (in_map_iff fst _ _) Hx) as [[x1 q1] [E1 I1]].
      destruct (proj1 (in_map_iff fst _ _) Hx') as [[x2 q2] [E2 I2]]. cbn in E1, E2. subst x1 x2.
      apply (Hdis x).
      * exact (proj1 (proj2 (HrA d rA (get_In _ _ _ EA)) x q1 I1)).
      * exact (proj1 (proj2 (HrB d rB (get_In _ _ _ EB)) x q2 I2)).
    + destruct (Hnone d EA) as [N1 [N2 _]]. rewrite N1, N2. reflexivity.
  - intros d. unfold sd_of.
    destruct (Dict.get d A.(demand)) as [rA|] eqn:EA.
    + destruct (keys_get d B.(demand)) as [rB EB].
      { apply Hkeys. apply (In_keys_pair _ rA). exact (get_In _ _ _ EA). }
      rewrite (G1 d rA rB EA EB), (G2 d rB rA EB EA), EB. split; reflexivity.
    + destruct (Hnone d EA) as [N1 [N2 N3]]. rewrite N1, N2, N3. split; reflexivity.
Qed.




Ltac in_cases :=
  repeat match goal with
         | H : In _ (_ :: _) |- _ => destruct H as [H|H]
         | H : In _ [] |- _ => destruct H
         | H : _ \/ _ |- _ => destruct H as [H|H]
         | H : False |- _ => destruct H
         | H : _ = ?x |- _ => is_var x; subst x
         | H : (_, _) = (_, _) |- _ => inversion H; subst; clear H
         end.

Ltac nodup_tac := vm_compute; repeat constructor; vm_compute; intuition discriminate.

(** C8 (confirmed): on a valid binary store, a demand unit [d] whose
    coverage has no facility gets the row [D<d>]: [__dummy<delineator><d>
    >= 1], whose only term is the dummy integer variable with bounds 0 and
    0, and the run succeeds. *)
Theorem lscp_empty_coverage_dummy_row (c : Coverage) (delineator : string) (s0 : BState)
    (d : string) (r : DemandRecord) :
  c.(ctype) = "binary" -> c.(cmode) = "coverage" ->
  NoDup (Dict.keys c.(facilities)) -> coverage_refs_ok c ->
  NoDup (map (fun dr => translate_name ("D" ++ fst dr)%string) c.(demand)) ->
  In (d, r) c.(demand) -> (forall T fq, In (T, fq) r.(d_coverage) -> fq = []) ->
  exists s p,
    create_lscp_model c delineator s0 = (s, Ok p) /\
    In (translate_name ("D" ++ d)%string,
        mkLpConstraint (mkAff [(VDummy d, 1)] (-1)) LpConstraintGE) p.(constraints) /\
    In (mkLpVariable (VDummy d) ("__dummy" ++ delineator ++ d)%string (Some 0) (Some 0) LpInteger)
       s.(created).
Proof.
  intros Ht Hm Hf Hr Hn Hin Hc.
  destruct (wpe_ok _ _ _ (wpe_create_lscp_model c delineator s0 d r Ht Hm Hf Hr Hn Hin Hc))
    as [s [p [Hrun [H1 H2]]]].
  exists s, p. split; [exact Hrun|]. split; [exact H1| exact H2].
Qed.

Lemma lscp_empty_coverage_dummy_row_witness :
  exists s p,
    create_lscp_model ex_lscp_empty "$" init_state = (s, Ok p) /\
    In (translate_name ("D" ++ "b")%string,
        mkLpConstraint (mkAff [(VDummy "b", 1)] (-1)) LpConstraintGE) p.(constraints) /\
    In (mkLpVariable (VDummy "b") ("__dummy" ++ "$" ++ "b")%string (Some 0) (Some 0) LpInteger)
       s.(created).
Proof.
  apply (lscp_empty_coverage_dummy_row ex_lscp_empty "$" init_state "b"
           (mkDemandRecord 1 (PyNum 1) [])).
  - reflexivity.
  - reflexivity.
  - nodup_tac.
  - intros d r T fq f H1 H2 H3. cbn in H1. in_cases; cbn in H2; in_cases; cbn in H3; in_cases.
    exists [("f1", "site 1")]. split; [left; reflexivity | left; reflexivity].
  - nodup_tac.
  - right. left. reflexivity.
  - intros T fq H. destruct H.
Defined.

(** C10 (corrected): on an otherwise valid store with at least one demand
    unit, numeric chosen weights summing to zero and [0 <= psi <= 100],
    [create_threshold_model] (binary) and [create_cc_threshold_model]
    (partial) raise [ZeroDivisionError]. *)
Theorem threshold_zero_weight_sum (c : Coverage) (psi : Q) (delineator : string)
    (use_serviceable_demand : bool) (s0 : BState) :
  c.(cmode) = "coverage" -> 0 <= psi <= 100 ->
  NoDup (Dict.keys c.(facilities)) -> coverage_refs_ok c ->
  NoDup (map (fun dr => translate_name ("D" ++ fst dr)%string) c.(demand)) ->
  c.(demand) <> [] ->
  (forall d r, In (d, r) c.(demand) ->
     exists q, raw_weight (demand_var_of use_serviceable_demand) r = PyNum q) ->
  weight_sum (demand_var_of use_serviceable_demand) c.(demand) == 0 ->
  (c.(ctype) = "binary" ->
     snd (create_threshold_model c psi delineator use_serviceable_demand s0) = Err ZeroDivisionError) /\
  (c.(ctype) = "partial" ->
     snd (create_cc_threshold_model c psi delineator use_serviceable_demand s0) = Err ZeroDivisionError).
Proof.
  intros Hm Hpsi Hf Hr Hn Hne Hw Hs. apply out_of_range_iff in Hpsi. split; intros Ht.
  - apply wpe_err. apply wpe_create_threshold_zero; assumption.
  - apply wpe_err. apply wpe_create_cc_threshold_zero; assumption.
Qed.

Lemma threshold_zero_weight_sum_witness :
  snd (create_threshold_model (ex_zero_weight "binary") 50 "$" false init_state) = Err ZeroDivisionError /\
  snd (create_cc_threshold_model (ex_zero_weight "partial") 50 "$" false init_state) = Err ZeroDivisionError.
Proof.
  split.
  - apply (threshold_zero_weight_sum (ex_zero_weight "binary") 50 "$" false init_state).
    + reflexivity.
    + split; vm_compute; discriminate.
    + nodup_tac.
    + intros d r T fq f H1 H2 H3. cbn in H1. in_cases; cbn in H2; in_cases; cbn in H3; in_cases.
      exists [("f1", "site 1")]. split; [left; reflexivity | left; reflexivity].
    + nodup_tac.
    + discriminate.
    + intros d r H. cbn in H. in_cases. exists 0. reflexivity.
    + reflexivity.
    + reflexivity.
  - apply (threshold_zero_weight_sum (ex_zero_weight "partial") 50 "$" false init_state).
    + reflexivity.
    + split; vm_compute; discriminate.
    + nodup_tac.
    + intros d r T fq f H1 H2 H3. cbn in H1. in_cases; cbn in H2; in_cases; cbn in H3; in_cases.
      exists [("f1", "site 1")]. split; [left; reflexivity | left; reflexivity].
    + nodup_tac.
    + discriminate.
    + intros d r H. cbn in H. in_cases. exists 0. reflexivity.
    + reflexivity.
    + reflexivity.
Defined.

Lemma threshold_psi_range_witness :
  create_cc_threshold_model ex_partial 150 "$" false init_state =
    (init_state, Err (ValueError "psi weight must be between 100 and 0")) /\
  snd (create_threshold_model ex_backup 50 "$" false init_state)
    <> Err (ValueError "psi weight must be between 100 and 0").
Proof.
  split.
  - apply (proj1 (threshold_psi_range ex_partial 150 "$" false init_state)).
    + right. reflexivity.
    + reflexivity.
    + reflexivity.
  - apply (proj2 (threshold_psi_range ex_backup 50 "$" false init_state)).
    split; vm_compute; discriminate.
Defined.

Lemma update_serviceable_demand_missing_id_witness :
  exists c',
    update_serviceable_demand ex_upd_store ex_upd_sd = (c', Some (KeyError "b")) /\
    c'.(ctype) = ex_upd_store.(ctype) /\ c'.(cmode) = ex_upd_store.(cmode) /\
    c'.(facilities) = ex_upd_store.(facilities) /\
    c'.(totalServiceableDemand) = ex_upd_store.(totalServiceableDemand) /\
    Dict.keys c'.(demand) = Dict.keys ex_upd_store.(demand) /\
    (forall d r r', In d ["a"] -> Dict.get d ex_upd_store.(demand) = Some r ->
       Dict.get d ex_upd_sd.(demand) = Some r' ->
       Dict.get d c'.(demand) = Some (set_sd r r'.(serviceableDemand))) /\
    (forall d, ~ In d ["a"] -> Dict.get d c'.(demand) = Dict.get d ex_upd_store.(demand)).
Proof.
  apply (update_serviceable_demand_missing_id ex_upd_store ex_upd_sd ["a"] [] "b").
  - reflexivity.
  - intros d H. in_cases. eexists. eexists. split; reflexivity.
  - reflexivity.
Defined.

Lemma backup_model_row_and_consequence_witness :
  exists s p,
    create_backup_model ex_backup [("total", 2)] "$" false init_state = (s, Ok p) /\
    (exists row, In (translate_name ("D" ++ "d")%string, row) p.(constraints) /\
                 row.(c_sense) = LpConstraintGE /\
                 forall sigma, eval_aff sigma row.(c_expr)
                   == cover_sum sigma [("F", [("f1", 1)])] - sigma (VDemand "U" "d") - 1) /\
    (forall sigma, feasible p s.(created) sigma = true ->
       cover_sum sigma [("F", [("f1", 1)])] <= 1 -> sigma (VDemand "U" "d") == 0).
Proof.
  exists_run.
  eapply (backup_model_row_and_consequence ex_backup [("total", 2)] "$" false init_state _ _ "d"
            (mkDemandRecord 10 (PyNum 10) [("F", [("f1", 1)])])).
  - vm_compute. reflexivity.
  - left. reflexivity.
Defined.

Lemma merge_two_orders_witness :
  exists M1 M2, merge_coverages [ex_par_A; ex_par_B] = Ok M1 /\
    merge_coverages [ex_par_B; ex_par_A] = Ok M2 /\
    (forall T, Dict.get T M1.(facilities) = Dict.get T M2.(facilities)) /\
    (forall d T, lookup_cov d T M1 = lookup_cov d T M2) /\
    (forall d, sd_of d M1 = sd_of d ex_par_A /\ sd_of d M2 = sd_of d ex_par_B).
Proof.
  apply merge_two_orders.
  - reflexivity.
  - discriminate.
  - reflexivity.
  - reflexivity.
  - split; [nodup_tac|]. split; [nodup_tac|]. intros d r H. cbn in H. in_cases.
    split; [nodup_tac|]. intros T fq H. cbn in H. in_cases. split; [left; reflexivity|nodup_tac].
  - split; [nodup_tac|]. split; [nodup_tac|]. intros d r H. cbn in H. in_cases.
    split; [nodup_tac|]. intros T fq H. cbn in H. in_cases. split; [left; reflexivity|nodup_tac].
  - intros T H1 H2. cbn in H1, H2. in_cases. discriminate.
  - intros d. cbn. tauto.
Defined.

(** * Further properties of the builders, the store update and the merge *)

Lemma keeps_refl s : keeps s s.
Proof. split; [apply ext_refl | split; reflexivity]. Qed.

Lemma keeps_trans s1 s2 s3 : keeps s1 s2 -> keeps s2 s3 -> keeps s1 s3.
Proof.
  intros [H1 [O1 P1]] [H2 [O2 P2]]. split; [exact (ext_trans _ _ _ H1 H2)|]. split; congruence.
Qed.

Lemma keeps_bind {A B} (m : M A) (k : A -> M B) :
  keeps_m m -> (forall a, keeps_m (k a)) -> keeps_m (bind m k).
Proof.
  intros Hm Hk s. apply wpe_bind. eapply wpe_mono; [apply Hm| |auto].
  intros a s' Hs'. eapply wpe_mono; [apply Hk| |auto].
  intros b s'' H. exact (keeps_trans _ _ _ Hs' H).
Qed.

Lemma keeps_foldM {A X} (f : A -> X -> M A) a (l : list X) :
  (forall a x, keeps_m (f a x)) -> keeps_m (foldM f a l).
Proof.
  intros Hf. revert a. induction l as [|x r IH]; intros a; simpl.
  - intros s. apply wpe_ret. apply keeps_refl.
  - apply keeps_bind; auto.
Qed.

Lemma keeps_ret {A} (a : A) : keeps_m (ret a).
Proof. intros s; apply wpe_ret, keeps_refl. Qed.

Lemma keeps_liftR {A} (r : result A) : keeps_m (liftR r).
Proof. intros s; destruct r; unfold wpe; simpl; auto using keeps_refl. Qed.

Lemma keeps_new_var i n lo up c : keeps_m (new_var i n lo up c).
Proof.
  intros s. split; [apply ext_new_var | unfold new_var; simpl; split; reflexivity].
Qed.

Lemma keeps_add_constraint c n : keeps_m (add_constraint c n).
Proof.
  intros s. pose proof (ext_add_constraint c n s) as He. unfold wpe in *. unfold add_constraint in *.
  destruct (match n with Some _ => _ | None => _ end) as [nm lu].
  destruct (existsb _ _); simpl in *; auto.
  split; [exact He | split; reflexivity].
Qed.

Ltac keeps_step :=
  match goal with
  | |- keeps_m (bind _ _) => apply keeps_bind; intros
  | |- keeps_m (foldM _ _ _) => apply keeps_foldM; intros
  | |- keeps_m (forM_ _ _) => unfold forM_; apply keeps_foldM; intros
  | |- keeps_m (ret _) => apply keeps_ret
  | |- keeps_m (getM _ _) => apply keeps_liftR
  | |- keeps_m (liftR _) => apply keeps_liftR
  | |- keeps_m (new_var _ _ _ _ _) => apply keeps_new_var
  | |- keeps_m (add_constraint _ _) => apply keeps_add_constraint
  | |- keeps_m (if ?b then _ else _) => destruct b
  | |- keeps_m (get2 _ _ _) => unfold get2
  | |- keeps_m (coverage_terms _ _ _) => unfold coverage_terms
  | |- keeps_m (facility_count_constraints _ _ _) => unfold facility_count_constraints
  | |- keeps_m (all_facility_terms _ _) => unfold all_facility_terms
  | |- keeps_m _ => progress cbv beta zeta
  end.

Lemma keeps_facility_count_constraints facs fv nf : keeps_m (facility_count_constraints facs fv nf).
Proof. repeat keeps_step. Qed.

Lemma wpe_bind_keeps {A B} (m : M A) (k : A -> M B) Q s :
  keeps_m m -> (forall a s', keeps s s' -> wpe (k a) Q (fun _ _ => True) s') ->
  wpe (bind m k) Q (fun _ _ => True) s.
Proof.
  intros Hm Hk. apply wpe_bind. eapply wpe_mono; [apply Hm| |auto].
  intros a s' H. apply Hk. exact H.
Qed.

Lemma facility_vids_app a b : facility_vids (a ++ b) = facility_vids a ++ facility_vids b.
Proof. unfold facility_vids. apply flat_map_app. Qed.

Lemma wpe_fac_row T (fs : Dict.t meta) fv acc s :
  fv_labelled fv ->
  wpe (foldM (fun acc2 fm => v <- get2 T (fst fm) fv ;; ret (acc2 ++ [aff_var v])) acc fs)
    (fun ts s' => s' = s /\ ts = acc ++ map (fun fm => mkAff [(VFac T (fst fm), 1)] 0) fs)
    (fun _ s' => s' = s) s.
Proof.
  intros Hlab.
  apply (wpe_foldM _ fs (fun pre ts s' => s' = s /\
           ts = acc ++ map (fun fm => mkAff [(VFac T (fst fm), 1)] 0) pre)).
  - intros pre [f m] post a s1 _ [-> ->]. simpl. apply wpe_get2.
    + intros mv v HT Hf. apply wpe_ret. split; [reflexivity|].
      rewrite map_app, app_assoc. unfold aff_var. rewrite (Hlab T mv f v HT Hf). reflexivity.
    + intros _ e. reflexivity.
  - split; [reflexivity|]. rewrite app_nil_r. reflexivity.
Qed.

Lemma wpe_all_facility_terms_ok facs fv s :
  fv_labelled fv ->
  wpe (all_facility_terms facs fv)
    (fun ts s' => s' = s /\ ts = map (fun i => mkAff [(i, 1)] 0) (facility_vids facs))
    (fun _ s' => s' = s) s.
Proof.
  intros Hlab. unfold all_facility_terms.
  apply (wpe_foldM _ facs (fun pre ts s' => s' = s /\
           ts = map (fun i => mkAff [(i, 1)] 0) (facility_vids pre))).
  - intros pre [T fs] post a s1 _ [-> ->]. simpl.
    eapply wpe_mono; [apply (wpe_fac_row T fs fv _ s Hlab)| |auto].
    intros ts s' [-> ->]. split; [reflexivity|].
    rewrite facility_vids_app, map_app. unfold facility_vids at 2. simpl.
    rewrite app_nil_r, !map_map. reflexivity.
  - split; reflexivity.
Qed.

Lemma fac_terms_single T (fs : Dict.t meta) :
  map (fun i => mkAff [(i, 1)] 0) (facility_vids [(T, fs)]) =
  map (fun fm => mkAff [(VFac T (fst fm), 1)] 0) fs.
Proof. unfold facility_vids. simpl. rewrite app_nil_r, map_map. reflexivity. Qed.

Lemma wpe_add_named_keeps c n s :
  wpe (add_constraint c (Some n))
    (fun _ s' => keeps s s' /\ s'.(prob).(constraints) = s.(prob).(constraints) ++ [(translate_name n, c)])
    (fun _ _ => True) s.
Proof.
  unfold wpe, add_constraint. simpl.
  destruct (existsb _ _); simpl; [exact I|].
  split; [|reflexivity]. split; [|split; reflexivity].
  split; [exists []; rewrite app_nil_r; reflexivity | eexists; reflexivity].
Qed.

Lemma wpe_add_unnamed_keeps c s :
  wpe (add_constraint c None)
    (fun _ s' => keeps s s' /\ exists nm, s'.(prob).(constraints) = s.(prob).(constraints) ++ [(nm, c)])
    (fun _ _ => True) s.
Proof.
  unfold wpe, add_constraint. simpl.
  destruct (existsb _ _); simpl; [exact I|].
  split; [|eexists; reflexivity]. split; [|split; reflexivity].
  split; [exists []; rewrite app_nil_r; reflexivity | eexists; reflexivity].
Qed.

Lemma keeps_In_constraints s s' nc :
  keeps s s' -> In nc s.(prob).(constraints) -> In nc s'.(prob).(constraints).
Proof. intros [H _]. apply ext_In_constraints. exact H. Qed.

Lemma keeps_In_created s s' v :
  keeps s s' -> In v s.(created) -> In v s'.(created).
Proof. intros [H _]. apply ext_In_created. exact H. Qed.

Lemma In_last_app {X} (l : list X) x : In x (l ++ [x]).
Proof. apply in_or_app. right. left. reflexivity. Qed.

Lemma wpe_facility_count_constraints facs fv nf s :
  fv_labelled fv ->
  wpe (facility_count_constraints facs fv nf)
    (fun _ s' => keeps s s' /\ facility_limits facs nf s'.(prob)) (fun _ _ => True) s.
Proof.
  intros Hlab. unfold facility_count_constraints.
  apply wpe_bind. eapply wpe_mono; [apply (wpe_all_facility_terms_ok facs fv s Hlab)| |auto].
  intros ts s1 [-> ->].
  unfold getM, getr. destruct (Dict.get "total" nf) as [total|] eqn:Htot; [|exact I].
  unfold bind at 1. cbn [liftR ret].
  apply wpe_bind. eapply wpe_mono; [apply wpe_add_named_keeps| |auto].
  intros _ s2 [K12 Hcs2].
  assert (Hrow : In ("NumTotalFacilities",
               cmp (lpSum (map (fun i => mkAff [(i, 1)] 0) (facility_vids facs))) LpConstraintLE total)
               s2.(prob).(constraints)) by (rewrite Hcs2; apply In_last_app).
  unfold forM_.
  eapply wpe_mono.
  { apply (wpe_foldM _ facs (fun pre _ s' => keeps s2 s' /\
       forall T fs, In (T, fs) pre -> Dict.mem T nf = true -> T <> "total" ->
         exists n, Dict.get T nf = Some n /\
           In (translate_name ("Num" ++ T), cmp (lpSum (map (fun i => mkAff [(i, 1)] 0) (facility_vids [(T, fs)])))
                                              LpConstraintLE n) s'.(prob).(constraints))
       (fun _ _ => True)).
    - intros pre [T fs] post _ s3 _ [K23 Hrows]. cbn [fst snd].
      destruct (Dict.mem T nf && negb (String.eqb T "total")) eqn:Hm.
      + apply andb_prop in Hm as [Hm Hnt].
        apply wpe_bind. eapply wpe_mono; [apply (wpe_fac_row T fs fv [] s3 Hlab)| |auto].
        intros ts s4 [-> ->].
        unfold Dict.mem in Hm. destruct (Dict.get T nf) as [n|] eqn:Hn; [|discriminate].
        unfold bind at 1. cbn [liftR ret].
        eapply wpe_mono; [apply wpe_add_named_keeps| |auto].
        intros _ s5 [K35 Hcs5]. split; [exact (keeps_trans _ _ _ K23 K35)|].
        intros T' fs' Hin Hm' Hnt'. apply in_app_or in Hin. destruct Hin as [Hin|[Hin|[]]].
        * destruct (Hrows T' fs' Hin Hm' Hnt') as [n' [Hn' Hr]]. exists n'. split; [exact Hn'|].
          exact (keeps_In_constraints _ _ _ K35 Hr).
        * inversion Hin; subst T' fs'. exists n. split; [exact Hn|]. rewrite Hcs5, fac_terms_single.
          apply In_last_app.
      + apply wpe_ret. split; [exact K23|].
        intros T' fs' Hin Hm' Hnt'. apply in_app_or in Hin. destruct Hin as [Hin|[Hin|[]]].
        * exact (Hrows T' fs' Hin Hm' Hnt').
        * inversion Hin; subst T' fs'. rewrite Hm' in Hm. simpl in Hm.
          apply String.eqb_neq in Hnt'. rewrite Hnt' in Hm. discriminate.
    - split; [apply keeps_refl | intros T fs []]. }
  2: auto.
  intros _ s6 [K26 Hrows6]. split; [exact (keeps_trans _ _ _ K12 K26)|].
  split; [|exact Hrows6].
  exists total. split; [exact Htot|]. exact (keeps_In_constraints _ _ _ K26 Hrow).
Qed.

Lemma fold_sum_app {X} (g : X -> Q) a b :
  fold_right (fun x acc => g x + acc) 0 (a ++ b) ==
  fold_right (fun x acc => g x + acc) 0 a + fold_right (fun x acc => g x + acc) 0 b.
Proof. induction a as [|x r IH]; simpl; [ring|]. rewrite IH. ring. Qed.

Lemma eval_var (sigma : vid -> Q) i : eval_aff sigma (mkAff [(i, 1)] 0) == sigma i.
Proof. unfold eval_aff. simpl. ring. Qed.

Lemma wpe_weighted_demand_terms_ok dv (ds : Dict.t DemandRecord) dvars prefix s :
  (forall d, In d (Dict.keys ds) -> exists v, Dict.get d dvars = Some v /\ v.(v_id) = VDemand prefix d) ->
  wpe (weighted_demand_terms dv ds dvars)
    (fun ts s' => s' = s /\ (forall d r, In (d, r) ds -> exists q, raw_weight dv r = PyNum q) /\
       forall sigma, fold_right (fun e acc => eval_aff sigma e + acc) 0 ts == demand_value sigma dv prefix ds)
    (fun _ _ => True) s.
Proof.
  intros Hdv. unfold weighted_demand_terms.
  apply (wpe_foldM _ ds (fun pre ts s' => s' = s /\
           (forall d r, In (d, r) pre -> exists q, raw_weight dv r = PyNum q) /\
           forall sigma, fold_right (fun e acc => eval_aff sigma e + acc) 0 ts == demand_value sigma dv prefix pre)).
  - intros pre [d r] post ts s1 Hds [-> [Hnum Hval]]. cbn [fst snd].
    unfold weight. destruct (raw_weight dv r) as [q|m] eqn:Hw; [|exact I].
    unfold bind at 1. cbn [liftR ret].
    destruct (Hdv d) as [v [Hv Hid]].
    { rewrite Hds. unfold Dict.keys. rewrite map_app. apply in_or_app. right. left. reflexivity. }
    apply (wpe_getM_some _ _ v); [exact Hv|]. apply wpe_ret.
    split; [reflexivity|]. split.
    + intros d' r' Hin. apply in_app_or in Hin. destruct Hin as [Hin|[Hin|[]]]; [exact (Hnum d' r' Hin)|].
      inversion Hin; subst. exists q. exact Hw.
    + intros sigma. rewrite fold_sum_app, Hval. unfold demand_value. rewrite fold_sum_app.
      simpl. rewrite Hw. simpl. rewrite eval_scale. unfold aff_var. rewrite Hid, eval_var. ring.
  - split; [reflexivity|]. split; [intros d r []|]. intros sigma. reflexivity.
Qed.

Lemma wpe_create_mclp_model c nf delin usd s0 :
  wpe (create_mclp_model c nf delin usd)
    (fun p s => p = s.(prob) /\ p.(p_sense) = LpMaximize /\
       (forall d r, In (d, r) c.(demand) -> exists q, raw_weight (demand_var_of usd) r = PyNum q) /\
       (forall sigma, eval_aff sigma p.(objective) == demand_value sigma (demand_var_of usd) "Y" c.(demand)) /\
       (forall d r, In (d, r) c.(demand) ->
          In (mclp_Y delin d) s.(created) /\
          In (translate_name ("D" ++ d)%string,
              cmp (aff_add (lpSum (cover_terms false r.(d_coverage))) (aff_var (mclp_Y delin d)) (-1))
                  LpConstraintGE 0) p.(constraints)) /\
       facility_limits c.(facilities) nf p)
    (fun _ _ => True) s0.
Proof.
  unfold create_mclp_model. cbv zeta.
  apply wpe_validateM; [intros _ | auto].
  apply wpe_bind. eapply wpe_mono; [apply wpe_make_demand_vars| |auto].
  intros dv s1 [Hs1 Hdv].
  apply wpe_bind. eapply wpe_mono; [apply wpe_make_facility_vars| |auto].
  intros fv s2 [_ [[l2 Hl2] [Hlab _]]].
  apply wpe_new_problem.
  set (s3 := mkBState _ _).
  apply wpe_bind. eapply wpe_mono.
  { apply (wpe_weighted_demand_terms_ok (demand_var_of usd) c.(demand) dv "Y" s3).
    intros d Hd. eexists. split; [exact (Hdv d Hd)|reflexivity]. }
  2: auto.
  intros obj s4 [-> [Hnum Hobj]].
  apply wpe_set_objective. set (s5 := mkBState _ _).
  assert (HY : forall d r, In (d, r) c.(demand) -> In (mclp_Y delin d) s5.(created)).
  { intros d r Hin. unfold s5, s3. simpl.
    rewrite Hl2, Hs1. simpl. apply in_or_app. left. apply in_or_app. right.
    apply (in_map (fun dr => mkLpVariable (VDemand "Y" (fst dr)) ("Y" ++ delin ++ fst dr)%string
                               (Some 0) (Some 1) LpInteger)) in Hin. exact Hin. }
  unfold forM_. apply wpe_bind.
  eapply wpe_mono.
  { apply (wpe_foldM _ c.(demand) (fun pre _ s' => keeps s5 s' /\
             forall d r, In (d, r) pre ->
               In (translate_name ("D" ++ d)%string,
                   cmp (aff_add (lpSum (cover_terms false r.(d_coverage))) (aff_var (mclp_Y delin d)) (-1))
                       LpConstraintGE 0) s'.(prob).(constraints)) (fun _ _ => True)).
    - intros pre [d r] post _ s6 Hdem [K56 Hrows]. cbv beta. simpl fst. simpl snd.
      apply wpe_bind. eapply wpe_mono.
      { apply (wpe_coverage_terms false fv r.(d_coverage) s6 True Hlab). intros; right; exact I. }
      2: auto.
      intros ts s7 [-> ->].
      apply (wpe_getM_some _ _ (mclp_Y delin d)).
      { apply Hdv. rewrite Hdem. unfold Dict.keys. rewrite map_app. apply in_or_app. right. left. reflexivity. }
      eapply wpe_mono; [apply wpe_add_named_keeps| |auto].
      intros _ s8 [K68 Hcs8]. split; [exact (keeps_trans _ _ _ K56 K68)|].
      intros d' r' Hin'. rewrite Hcs8. apply in_app_or in Hin'. apply in_or_app.
      destruct Hin' as [Hin'|[Hin'|[]]].
      + left. apply Hrows. exact Hin'.
      + inversion Hin'; subst. right. left. reflexivity.
    - split; [apply keeps_refl| intros d r []]. }
  2: auto.
  intros _ s9 [K59 Hrows9].
  apply wpe_bind. eapply wpe_mono; [apply (wpe_facility_count_constraints _ _ nf s9 Hlab)| |auto].
  intros _ s10 [K910 Hlim].
  apply wpe_get_prob. split; [reflexivity|].
  pose proof (keeps_trans _ _ _ K59 K910) as K510. destruct K510 as [E510 [O510 P510]].
  split; [rewrite P510; reflexivity|]. split; [exact Hnum|]. split.
  { intros sigma. rewrite O510. simpl. rewrite eval_lpSum. apply Hobj. }
  split; [|exact Hlim].
  intros d r Hin. split.
  - apply (ext_In_created s5); [exact E510 | exact (HY d r Hin)].
  - exact (keeps_In_constraints _ _ _ K910 (Hrows9 d r Hin)).
Qed.

Lemma feasible_row p vs sigma nc :
  feasible p vs sigma = true -> In nc p.(constraints) -> sat_b sigma (snd nc) = true.
Proof.
  unfold feasible. intros H Hin. apply andb_prop in H as [H _]. rewrite forallb_forall in H. auto.
Qed.

Lemma feasible_var p vs sigma v :
  feasible p vs sigma = true -> In v vs -> var_ok_b sigma v = true.
Proof.
  unfold feasible. intros H Hin. apply andb_prop in H as [_ H]. rewrite forallb_forall in H. auto.
Qed.

Lemma binary_var_values sigma i n :
  var_ok_b sigma (mkLpVariable i n (Some 0) (Some 1) LpInteger) = true ->
  sigma i == 0 \/ sigma i == 1.
Proof.
  unfold var_ok_b. simpl. intros H.
  apply andb_prop in H as [H Hint]. apply andb_prop in H as [Hlo Hup].
  apply Qle_bool_iff in Hlo, Hup. unfold is_integral in Hint. apply Qeq_bool_iff in Hint.
  assert (Hz0 : (0 <= Qfloor (sigma i))%Z).
  { rewrite Zle_Qle, Hint. exact Hlo. }
  assert (Hz1 : (Qfloor (sigma i) <= 1)%Z).
  { rewrite Zle_Qle, Hint. exact Hup. }
  destruct (Z.eq_dec (Qfloor (sigma i)) 0) as [E|E].
  - left. rewrite <- Hint, E. reflexivity.
  - right. assert (E1 : Qfloor (sigma i) = 1%Z) by lia. rewrite <- Hint, E1. reflexivity.
Qed.

Lemma ge_row_holds sigma e :
  sat_b sigma (cmp e LpConstraintGE 0) = true -> 0 <= eval_aff sigma e.
Proof.
  intros H. change (Qle_bool 0 (eval_aff sigma (cmp e LpConstraintGE 0).(c_expr)) = true) in H. apply Qle_bool_iff in H. rewrite eval_cmp in H. lra.
Qed.

Lemma le_row_holds sigma e rhs :
  sat_b sigma (cmp e LpConstraintLE rhs) = true -> eval_aff sigma e <= rhs.
Proof.
  intros H. change (Qle_bool (eval_aff sigma (cmp e LpConstraintLE rhs).(c_expr)) 0 = true) in H. apply Qle_bool_iff in H. rewrite eval_cmp in H. lra.
Qed.

Lemma eval_mclp_row (sigma : vid -> Q) cov v :
  eval_aff sigma (aff_add (lpSum (cover_terms false cov)) (aff_var v) (-1))
  == cover_sum sigma cov - sigma v.(v_id).
Proof.
  rewrite eval_aff_add, eval_lpSum, eval_cover_terms_unweighted.
  unfold aff_var. rewrite eval_var. ring.
Qed.

Lemma eval_fac_terms (sigma : vid -> Q) l :
  eval_aff sigma (lpSum (map (fun i => mkAff [(i, 1)] 0) l)) == vsum sigma l.
Proof.
  rewrite eval_lpSum. unfold vsum. induction l as [|i r IH]; simpl; [reflexivity|].
  rewrite IH, eval_var. reflexivity.
Qed.

Lemma wpe_bind_any {A B} (m : M A) (k : A -> M B) Q s :
  (forall a s', wpe (k a) Q (fun _ _ => True) s') -> wpe (bind m k) Q (fun _ _ => True) s.
Proof. intros H. unfold wpe, bind. destruct (m s) as [s' [a|e]]; auto. exact (H a s'). Qed.

Lemma limits_bounds facs nf p vs : facility_limits facs nf p -> facility_bounds facs nf p vs.
Proof.
  intros [[total [Ht Hr]] Hty]. split.
  - exists total. split; [exact Ht|]. intros sigma Hf.
    pose proof (le_row_holds _ _ _ (feasible_row _ _ _ _ Hf Hr)) as H. rewrite eval_fac_terms in H. exact H.
  - intros T fs Hin Hm Hnt. destruct (Hty T fs Hin Hm Hnt) as [n [Hn Hr2]].
    exists n. split; [exact Hn|]. intros sigma Hf.
    pose proof (le_row_holds _ _ _ (feasible_row _ _ _ _ Hf Hr2)) as H. rewrite eval_fac_terms in H. exact H.
Qed.

Ltac skip_until_fv :=
  repeat (match goal with
          | |- wpe (bind (make_facility_vars _ _ _ _) _) _ _ _ => fail 1
          | |- wpe (bind _ _) _ _ _ => apply wpe_bind_any; intros
          end).

Ltac skip_until_fcc :=
  repeat (match goal with
          | |- wpe (bind (facility_count_constraints _ _ _) _) _ _ _ => fail 1
          | |- wpe (bind _ _) _ _ _ => apply wpe_bind_any; intros
          end).

Ltac limits_tac :=
  cbv zeta; skip_until_fv;
  apply wpe_bind; eapply wpe_mono; [apply wpe_make_facility_vars| |auto];
  let Hlab := fresh "Hlab" in
  intros ? ? [_ [_ [Hlab _]]];
  skip_until_fcc;
  apply wpe_bind; eapply wpe_mono; [apply (wpe_facility_count_constraints _ _ _ _ Hlab)| |auto];
  let Hlim := fresh "Hlim" in
  intros ? ? [_ Hlim]; apply wpe_get_prob; exact Hlim.

Lemma wpe_mclp_limits c nf delin usd s0 :
  wpe (create_mclp_model c nf delin usd) (fun p _ => facility_limits c.(facilities) nf p) (fun _ _ => True) s0.
Proof. unfold create_mclp_model. limits_tac. Qed.

Lemma wpe_mclp_cc_limits c nf delin usd s0 :
  wpe (create_mclp_cc_model c nf delin usd) (fun p _ => facility_limits c.(facilities) nf p) (fun _ _ => True) s0.
Proof. unfold create_mclp_cc_model. limits_tac. Qed.

Lemma wpe_backup_limits c nf delin usd s0 :
  wpe (create_backup_model c nf delin usd) (fun p _ => facility_limits c.(facilities) nf p) (fun _ _ => True) s0.
Proof. unfold create_backup_model. limits_tac. Qed.

Lemma wpe_bclpcc_limits c nf bw delin usd s0 :
  wpe (create_bclpcc_model c nf bw delin usd) (fun p _ => facility_limits c.(facilities) nf p) (fun _ _ => True) s0.
Proof. unfold create_bclpcc_model. limits_tac. Qed.

(** X1: when [create_mclp_model], [create_mclp_cc_model],
    [create_backup_model] or [create_bclpcc_model] returns a problem,
    [num_fac["total"]] exists and every assignment feasible for the problem
    and the variables created sites at most that many facilities in all;
    for every facility type of the store listed in [num_fac] (other than
    ["total"]) it sites at most [num_fac[type]] facilities of that type. *)
Theorem num_fac_limits (c : Coverage) (num_fac : Dict.t Q) (bw : Q) (delineator : string)
    (use_serviceable_demand : bool) (s0 s : BState) (p : LpProblem) :
  (create_mclp_model c num_fac delineator use_serviceable_demand s0 = (s, Ok p) \/
   create_mclp_cc_model c num_fac delineator use_serviceable_demand s0 = (s, Ok p) \/
   create_backup_model c num_fac delineator use_serviceable_demand s0 = (s, Ok p) \/
   create_bclpcc_model c num_fac bw delineator use_serviceable_demand s0 = (s, Ok p)) ->
  facility_bounds c.(facilities) num_fac p s.(created).
Proof.
  intros H. apply limits_bounds.
  destruct H as [H|[H|[H|H]]].
  - exact (wpe_run _ _ _ _ _ _ (wpe_mclp_limits c num_fac delineator use_serviceable_demand s0) H).
  - exact (wpe_run _ _ _ _ _ _ (wpe_mclp_cc_limits c num_fac delineator use_serviceable_demand s0) H).
  - exact (wpe_run _ _ _ _ _ _ (wpe_backup_limits c num_fac delineator use_serviceable_demand s0) H).
  - exact (wpe_run _ _ _ _ _ _ (wpe_bclpcc_limits c num_fac bw delineator use_serviceable_demand s0) H).
Qed.

Lemma wpe_create_mclp_cc_model c nf delin usd s0 :
  wpe (create_mclp_cc_model c nf delin usd)
    (fun p s => p = s.(prob) /\ p.(p_sense) = LpMaximize /\
       (forall d r, In (d, r) c.(demand) -> exists q, raw_weight (demand_var_of usd) r = PyNum q) /\
       (forall sigma, eval_aff sigma p.(objective) == demand_value sigma (demand_var_of usd) "Y" c.(demand)) /\
       (forall d r, In (d, r) c.(demand) ->
          In (mclp_cc_Y delin d) s.(created) /\
          In (translate_name ("D" ++ d)%string,
              cmp (sum_minus (cover_terms true r.(d_coverage)) (mclp_cc_Y delin d)) LpConstraintGE 0)
             p.(constraints) /\
          exists nm, In (nm, cmp_val (aff_var (mclp_cc_Y delin d)) LpConstraintLE
                                  (raw_weight (demand_var_of usd) r)) p.(constraints)))
    (fun _ _ => True) s0.
Proof.
  unfold create_mclp_cc_model. cbv zeta.
  apply wpe_validateM; [intros _ | auto].
  apply wpe_bind. eapply wpe_mono; [apply wpe_make_demand_vars| |auto].
  intros dv s1 [Hs1 Hdv].
  apply wpe_bind. eapply wpe_mono; [apply wpe_make_facility_vars| |auto].
  intros fv s2 [_ [[l2 Hl2] [Hlab _]]].
  apply wpe_new_problem.
  set (s3 := mkBState _ _).
  apply wpe_bind. eapply wpe_mono.
  { apply (wpe_weighted_demand_terms_ok (demand_var_of usd) c.(demand) dv "Y" s3).
    intros d Hd. eexists. split; [exact (Hdv d Hd)|reflexivity]. }
  2: auto.
  intros obj s4 [-> [Hnum Hobj]].
  apply wpe_set_objective. set (s5 := mkBState _ _).
  assert (HY : forall d r, In (d, r) c.(demand) -> In (mclp_cc_Y delin d) s5.(created)).
  { intros d r Hin. unfold s5, s3. simpl.
    rewrite Hl2, Hs1. simpl. apply in_or_app. left. apply in_or_app. right.
    apply (in_map (fun dr => mkLpVariable (VDemand "Y" (fst dr)) ("Y" ++ delin ++ fst dr)%string
                               (Some 0) None LpContinuous)) in Hin. exact Hin. }
  unfold forM_. apply wpe_bind.
  eapply wpe_mono.
  { apply (wpe_foldM _ c.(demand) (fun pre _ s' => keeps s5 s' /\
             forall d r, In (d, r) pre ->
               In (translate_name ("D" ++ d)%string,
                   cmp (sum_minus (cover_terms true r.(d_coverage)) (mclp_cc_Y delin d)) LpConstraintGE 0)
                  s'.(prob).(constraints) /\
               exists nm, In (nm, cmp_val (aff_var (mclp_cc_Y delin d)) LpConstraintLE
                                    (raw_weight (demand_var_of usd) r)) s'.(prob).(constraints))
             (fun _ _ => True)).
    - intros pre [d r] post _ s6 Hdem [K56 Hrows]. cbv beta. simpl fst. simpl snd.
      apply wpe_bind. eapply wpe_mono.
      { apply (wpe_coverage_terms true fv r.(d_coverage) s6 True Hlab). intros; right; exact I. }
      2: auto.
      intros ts s7 [-> ->].
      apply (wpe_getM_some _ _ (mclp_cc_Y delin d)).
      { apply Hdv. rewrite Hdem. unfold Dict.keys. rewrite map_app. apply in_or_app. right. left. reflexivity. }
      apply wpe_bind. eapply wpe_mono; [apply wpe_add_named_keeps| |auto].
      intros _ s8 [K68 Hcs8].
      eapply wpe_mono; [apply wpe_add_unnamed_keeps| |auto].
      intros _ s9 [K89 [nm Hcs9]]. split; [exact (keeps_trans _ _ _ K56 (keeps_trans _ _ _ K68 K89))|].
      intros d' r' Hin'. apply in_app_or in Hin'. destruct Hin' as [Hin'|[Hin'|[]]].
      + destruct (Hrows d' r' Hin') as [HD [nm' HW]]. split.
        * exact (keeps_In_constraints _ _ _ (keeps_trans _ _ _ K68 K89) HD).
        * exists nm'. exact (keeps_In_constraints _ _ _ (keeps_trans _ _ _ K68 K89) HW).
      + inversion Hin'; subst d' r'. split.
        * apply (keeps_In_constraints _ _ _ K89). rewrite Hcs8. apply In_last_app.
        * exists nm. rewrite Hcs9. apply In_last_app.
    - split; [apply keeps_refl| intros d r []]. }
  2: auto.
  intros _ s9 [K59 Hrows9].
  apply wpe_bind_keeps; [apply keeps_facility_count_constraints|]. intros _ s10 K910.
  apply wpe_get_prob. split; [reflexivity|].
  pose proof (keeps_trans _ _ _ K59 K910) as K510. destruct K510 as [E510 [O510 P510]].
  split; [rewrite P510; reflexivity|]. split; [exact Hnum|]. split.
  { intros sigma. rewrite O510. simpl. rewrite eval_lpSum. apply Hobj. }
  intros d r Hin. destruct (Hrows9 d r Hin) as [HD [nm HW]]. split; [|split].
  - apply (ext_In_created s5); [exact E510 | exact (HY d r Hin)].
  - exact (keeps_In_constraints _ _ _ K910 HD).
  - exists nm. exact (keeps_In_constraints _ _ _ K910 HW).
Qed.

Lemma eval_cover_terms_weighted (sigma : vid -> Q) cov :
  fold_right (fun e acc => eval_aff sigma e + acc) 0 (cover_terms true cov) == weighted_cover_sum sigma cov.
Proof.
  unfold cover_terms, weighted_cover_sum.
  induction cov as [|[T fq] r IH]; [reflexivity|].
  cbn [flat_map fold_right]. rewrite fold_sum_app, IH. cbn [fst snd].
  apply Qplus_comp; [|reflexivity].
  induction fq as [|[f q] fr IHf]; [reflexivity|].
  cbn [map fold_right fst snd]. rewrite IHf, eval_scale, eval_var. reflexivity.
Qed.

Lemma eval_sum_minus (sigma : vid -> Q) ts v :
  eval_aff sigma (sum_minus ts v) == fold_right (fun e acc => eval_aff sigma e + acc) 0 ts - sigma v.(v_id).
Proof.
  unfold sum_minus. rewrite eval_aff_add, eval_scale, eval_lpSum. unfold aff_var. rewrite eval_var. ring.
Qed.

(** X2: in a problem returned by [create_mclp_model], every demand unit
    [d] has the row [D<d>] of sense [>=] whose value is the sum of the
    siting variables of the facilities covering [d] minus [Y_d]; a feasible
    assignment gives [Y_d] the value 0 or 1, at most that sum. *)
Theorem mclp_demand_row (c : Coverage) (num_fac : Dict.t Q) (delineator : string)
    (use_serviceable_demand : bool) (s0 s : BState) (p : LpProblem) (d : string) (r : DemandRecord) :
  create_mclp_model c num_fac delineator use_serviceable_demand s0 = (s, Ok p) ->
  In (d, r) c.(demand) ->
  (exists row, In (translate_name ("D" ++ d)%string, row) p.(constraints) /\
               row.(c_sense) = LpConstraintGE /\
               forall sigma, eval_aff sigma row.(c_expr) == cover_sum sigma r.(d_coverage) - sigma (VDemand "Y" d)) /\
  (forall sigma, feasible p s.(created) sigma = true ->
     (sigma (VDemand "Y" d) == 0 \/ sigma (VDemand "Y" d) == 1) /\
     sigma (VDemand "Y" d) <= cover_sum sigma r.(d_coverage)).
Proof.
  intros Hrun Hin.
  pose proof (wpe_run _ _ _ _ _ _ (wpe_create_mclp_model c num_fac delineator use_serviceable_demand s0) Hrun)
    as [_ [_ [_ [_ [Hrow _]]]]].
  destruct (Hrow d r Hin) as [HY HD].
  split.
  - eexists. split; [exact HD|]. split; [reflexivity|]. intros sigma.
    rewrite eval_cmp, eval_mclp_row. simpl. ring.
  - intros sigma Hf. split.
    + exact (binary_var_values _ _ _ (feasible_var _ _ _ _ Hf HY)).
    + pose proof (ge_row_holds _ _ (feasible_row _ _ _ _ Hf HD)) as H.
      rewrite eval_mclp_row in H. simpl in H. lra.
Qed.

(** X3: in a problem returned by [create_mclp_cc_model], the weight [w] of
    every demand unit [d] is a number; [d] has the row [D<d>] of sense [>=]
    (coverage-weighted sum of the covering siting variables minus [Y_d]) and
    a row [Y_d - w <= 0]; a feasible assignment has
    [0 <= Y_d <= weighted sum] and [Y_d <= w]. *)
Theorem mclp_cc_demand_rows (c : Coverage) (num_fac : Dict.t Q) (delineator : string)
    (use_serviceable_demand : bool) (s0 s : BState) (p : LpProblem) (d : string) (r : DemandRecord) :
  create_mclp_cc_model c num_fac delineator use_serviceable_demand s0 = (s, Ok p) ->
  In (d, r) c.(demand) ->
  exists q, raw_weight (demand_var_of use_serviceable_demand) r = PyNum q /\
  (exists row, In (translate_name ("D" ++ d)%string, row) p.(constraints) /\
               row.(c_sense) = LpConstraintGE /\
               forall sigma, eval_aff sigma row.(c_expr)
                             == weighted_cover_sum sigma r.(d_coverage) - sigma (VDemand "Y" d)) /\
  (exists nm row, In (nm, row) p.(constraints) /\ row.(c_sense) = LpConstraintLE /\
               forall sigma, eval_aff sigma row.(c_expr) == sigma (VDemand "Y" d) - q) /\
  (forall sigma, feasible p s.(created) sigma = true ->
     0 <= sigma (VDemand "Y" d) /\
     sigma (VDemand "Y" d) <= weighted_cover_sum sigma r.(d_coverage) /\
     sigma (VDemand "Y" d) <= q).
Proof.
  intros Hrun Hin.
  pose proof (wpe_run _ _ _ _ _ _ (wpe_create_mclp_cc_model c num_fac delineator use_serviceable_demand s0) Hrun)
    as [_ [_ [Hnum [_ Hrow]]]].
  destruct (Hnum d r Hin) as [q Hq].
  destruct (Hrow d r Hin) as [HY [HD [nm HW]]].
  rewrite Hq in HW. cbn [cmp_val] in HW.
  exists q. split; [exact Hq|]. split; [|split].
  - eexists. split; [exact HD|]. split; [reflexivity|]. intros sigma.
    rewrite eval_cmp, eval_sum_minus, eval_cover_terms_weighted. simpl. ring.
  - exists nm. eexists. split; [exact HW|]. split; [reflexivity|]. intros sigma.
    rewrite eval_cmp. unfold aff_var. rewrite eval_var. reflexivity.
  - intros sigma Hf. split; [|split].
    + pose proof (feasible_var _ _ _ _ Hf HY) as Hb. unfold var_ok_b in Hb. simpl in Hb.
      apply andb_prop in Hb as [Hb _]. apply andb_prop in Hb as [Hb _]. apply Qle_bool_iff in Hb. exact Hb.
    + pose proof (ge_row_holds _ _ (feasible_row _ _ _ _ Hf HD)) as H.
      rewrite eval_sum_minus, eval_cover_terms_weighted in H. simpl in H. lra.
    + pose proof (le_row_holds _ _ _ (feasible_row _ _ _ _ Hf HW)) as H.
      unfold aff_var in H. rewrite eval_var in H. exact H.
Qed.

Lemma wpe_sum_weights dv (ds : Dict.t DemandRecord) s :
  wpe (foldM (fun acc dr => w <- liftR (weight dv (snd dr)) ;; ret (acc + w)) 0 ds)
    (fun q s' => s' = s /\ q == weight_sum dv ds /\
                 forall d r, In (d, r) ds -> exists q', raw_weight dv r = PyNum q')
    (fun _ _ => True) s.
Proof.
  apply (wpe_foldM _ ds (fun pre q s' => s' = s /\ q == weight_sum dv pre /\
           forall d r, In (d, r) pre -> exists q', raw_weight dv r = PyNum q')).
  - intros pre [d r] post a s1 _ [-> [Ha Hnum]]. cbn [fst snd].
    unfold weight. destruct (raw_weight dv r) as [q|m] eqn:Hw; [|exact I].
    unfold bind at 1. cbn [liftR ret]. apply wpe_ret. split; [reflexivity|]. split.
    + rewrite Ha. unfold weight_sum. rewrite !fold_sum_app. simpl. rewrite Hw. ring.
    + intros d' r' Hin. apply in_app_or in Hin. destruct Hin as [Hin|[Hin|[]]]; [exact (Hnum d' r' Hin)|].
      inversion Hin; subst. eauto.
  - split; [reflexivity|]. split; [reflexivity|]. intros d r [].
Qed.

Lemma wpe_threshold_constraint dv (ds : Dict.t DemandRecord) dvars prefix (scale : bool) psi name s :
  (forall d, In d (Dict.keys ds) -> exists v, Dict.get d dvars = Some v /\ v.(v_id) = VDemand prefix d) ->
  wpe (threshold_constraint dv ds dvars scale psi name)
    (fun _ s' => keeps s s' /\
       (forall d r, In (d, r) ds -> exists q, raw_weight dv r = PyNum q) /\
       (ds <> [] -> ~ weight_sum dv ds == 0) /\
       exists nm row, In (nm, row) s'.(prob).(constraints) /\
         match name with Some n => nm = translate_name n | None => True end /\
         row.(c_sense) = LpConstraintGE /\
         forall sigma, eval_aff sigma row.(c_expr) ==
           100 / weight_sum dv ds * (if scale then demand_value sigma dv prefix ds
                                     else demand_sum sigma prefix ds) - psi)
    (fun _ _ => True) s.
Proof.
  intros Hdv. unfold threshold_constraint.
  apply wpe_bind. eapply wpe_mono; [apply wpe_sum_weights| |auto].
  intros W s1 [-> [HW Hnum]].
  apply wpe_bind. eapply wpe_mono.
  { apply (wpe_foldM _ ds (fun pre ts s' => s' = s /\ (pre = [] \/ Qeq_bool W 0 = false) /\
       forall sigma, fold_right (fun e acc => eval_aff sigma e + acc) 0 ts ==
         100 / W * (if scale then demand_value sigma dv prefix pre else demand_sum sigma prefix pre))
       (fun _ _ => True)).
    - intros pre [d r] post ts s2 Hds [-> [_ Hval]]. cbn [fst snd].
      destruct (Qeq_bool W 0) eqn:HW0; [exact I|].
      unfold bind at 1. cbn [ret].
      destruct (Hdv d) as [v [Hv Hid]].
      { rewrite Hds. unfold Dict.keys. rewrite map_app. apply in_or_app. right. left. reflexivity. }
      destruct scale.
      + destruct (Hnum d r) as [q Hq]; [rewrite Hds; apply in_mid|].
        unfold weight. rewrite Hq. unfold bind at 1. cbn [liftR ret].
        unfold bind at 1. cbn [ret].
        apply (wpe_getM_some _ _ v); [exact Hv|]. apply wpe_ret.
        split; [reflexivity|]. split; [right; reflexivity|]. intros sigma.
        rewrite fold_sum_app, Hval. unfold demand_value. rewrite fold_sum_app. simpl.
        rewrite Hq. simpl. rewrite eval_scale. unfold aff_var. rewrite Hid, eval_var. ring.
      + unfold bind at 1. cbn [ret].
        apply (wpe_getM_some _ _ v); [exact Hv|]. apply wpe_ret.
        split; [reflexivity|]. split; [right; reflexivity|]. intros sigma.
        rewrite fold_sum_app, Hval. unfold demand_sum. rewrite fold_sum_app. simpl.
        rewrite eval_scale. unfold aff_var. rewrite Hid, eval_var. ring.
    - split; [reflexivity|]. split; [left; reflexivity|]. intros sigma.
      destruct scale; simpl; ring. }
  2: auto.
  intros ts s3 [-> [Hne Hval]].
  destruct name as [n|].
  - eapply wpe_mono; [apply wpe_add_named_keeps| |auto].
    intros _ s4 [K Hcs]. split; [exact K|]. split; [exact Hnum|]. split.
    + intros Hds HW0. destruct Hne as [Hne|Hne]; [contradiction|].
      rewrite HW, HW0 in Hne. discriminate.
    + exists (translate_name n). eexists. split; [rewrite Hcs; apply In_last_app|].
      split; [reflexivity|]. split; [reflexivity|]. intros sigma.
      rewrite eval_cmp, eval_lpSum, Hval, HW. reflexivity.
  - eapply wpe_mono; [apply wpe_add_unnamed_keeps| |auto].
    intros _ s4 [K [nm Hcs]]. split; [exact K|]. split; [exact Hnum|]. split.
    + intros Hds HW0. destruct Hne as [Hne|Hne]; [contradiction|].
      rewrite HW, HW0 in Hne. discriminate.
    + exists nm. eexists. split; [rewrite Hcs; apply In_last_app|].
      split; [exact I|]. split; [reflexivity|]. intros sigma.
      rewrite eval_cmp, eval_lpSum, Hval, HW. reflexivity.
Qed.

Lemma wpe_create_threshold_model c psi delin usd s0 :
  wpe (create_threshold_model c psi delin usd)
    (fun p s => p = s.(prob) /\ p.(p_sense) = LpMinimize /\
       (forall sigma, eval_aff sigma p.(objective) == vsum sigma (facility_vids c.(facilities))) /\
       (forall d r, In (d, r) c.(demand) ->
          In (mclp_Y delin d) s.(created) /\
          In (translate_name ("D" ++ d)%string,
              cmp (sum_minus (cover_terms false r.(d_coverage)) (mclp_Y delin d)) LpConstraintGE 0)
             p.(constraints)) /\
       (c.(demand) <> [] -> ~ weight_sum (demand_var_of usd) c.(demand) == 0) /\
       exists nm row, In (nm, row) p.(constraints) /\ row.(c_sense) = LpConstraintGE /\
         forall sigma, eval_aff sigma row.(c_expr) ==
           100 / weight_sum (demand_var_of usd) c.(demand) *
             demand_value sigma (demand_var_of usd) "Y" c.(demand) - psi)
    (fun _ _ => True) s0.
Proof.
  unfold create_threshold_model. cbv zeta.
  apply wpe_validateM; [intros _ | auto].
  apply wpe_bind_any. intros _ s0'.
  apply wpe_bind. eapply wpe_mono; [apply wpe_make_demand_vars| |auto].
  intros dv s1 [Hs1 Hdv].
  apply wpe_bind. eapply wpe_mono; [apply wpe_make_facility_vars| |auto].
  intros fv s2 [_ [[l2 Hl2] [Hlab _]]].
  apply wpe_new_problem.
  set (s3 := mkBState _ _).
  apply wpe_bind. eapply wpe_mono; [apply (wpe_all_facility_terms_ok _ _ s3 Hlab)| |auto].
  intros obj s4 [-> ->].
  apply wpe_set_objective. set (s5 := mkBState _ _).
  assert (HY : forall d r, In (d, r) c.(demand) -> In (mclp_Y delin d) s5.(created)).
  { intros d r Hin. unfold s5, s3. simpl.
    rewrite Hl2, Hs1. simpl. apply in_or_app. left. apply in_or_app. right.
    apply (in_map (fun dr => mkLpVariable (VDemand "Y" (fst dr)) ("Y" ++ delin ++ fst dr)%string
                               (Some 0) (Some 1) LpInteger)) in Hin. exact Hin. }
  unfold forM_. apply wpe_bind.
  eapply wpe_mono.
  { apply (wpe_foldM _ c.(demand) (fun pre _ s' => keeps s5 s' /\
             forall d r, In (d, r) pre ->
               In (translate_name ("D" ++ d)%string,
                   cmp (sum_minus (cover_terms false r.(d_coverage)) (mclp_Y delin d)) LpConstraintGE 0)
                  s'.(prob).(constraints)) (fun _ _ => True)).
    - intros pre [d r] post _ s6 Hdem [K56 Hrows]. cbv beta. simpl fst. simpl snd.
      apply wpe_bind. eapply wpe_mono.
      { apply (wpe_coverage_terms false fv r.(d_coverage) s6 True Hlab). intros; right; exact I. }
      2: auto.
      intros ts s7 [-> ->].
      apply (wpe_getM_some _ _ (mclp_Y delin d)).
      { apply Hdv. rewrite Hdem. unfold Dict.keys. rewrite map_app. apply in_or_app. right. left. reflexivity. }
      eapply wpe_mono; [apply wpe_add_named_keeps| |auto].
      intros _ s8 [K68 Hcs8]. split; [exact (keeps_trans _ _ _ K56 K68)|].
      intros d' r' Hin'. rewrite Hcs8. apply in_app_or in Hin'. apply in_or_app.
      destruct Hin' as [Hin'|[Hin'|[]]].
      + left. apply Hrows. exact Hin'.
      + inversion Hin'; subst. right. left. reflexivity.
    - split; [apply keeps_refl| intros d r []]. }
  2: auto.
  intros _ s9 [K59 Hrows9].
  apply wpe_bind. eapply wpe_mono.
  { apply (wpe_threshold_constraint (demand_var_of usd) c.(demand) dv "Y" true psi None s9).
    intros d Hd. eexists. split; [exact (Hdv d Hd)|reflexivity]. }
  2: auto.
  intros _ s10 [K910 [_ [Hne [nm [row [Hrow [_ [Hsense Hval]]]]]]]].
  apply wpe_get_prob. split; [reflexivity|].
  pose proof (keeps_trans _ _ _ K59 K910) as K510. destruct K510 as [E510 [O510 P510]].
  split; [rewrite P510; reflexivity|]. split.
  { intros sigma. rewrite O510. simpl. apply eval_fac_terms. }
  split; [|split; [exact Hne|]].
  - intros d r Hin. split.
    + apply (ext_In_created s5); [exact E510 | exact (HY d r Hin)].
    + exact (keeps_In_constraints _ _ _ K910 (Hrows9 d r Hin)).
  - exists nm, row. auto.
Qed.

Lemma wpe_create_cc_threshold_model c psi delin usd s0 :
  wpe (create_cc_threshold_model c psi delin usd)
    (fun p s => p = s.(prob) /\ p.(p_sense) = LpMinimize /\
       (forall sigma, eval_aff sigma p.(objective) == vsum sigma (facility_vids c.(facilities))) /\
       (forall d r, In (d, r) c.(demand) -> exists q, raw_weight (demand_var_of usd) r = PyNum q) /\
       (forall d r, In (d, r) c.(demand) ->
          In (mclp_cc_Y delin d) s.(created) /\
          In (translate_name ("D" ++ d)%string,
              cmp (sum_minus (cover_terms true r.(d_coverage)) (mclp_cc_Y delin d)) LpConstraintGE 0)
             p.(constraints) /\
          exists nm, In (nm, cmp_val (aff_var (mclp_cc_Y delin d)) LpConstraintLE
                                  (raw_weight (demand_var_of usd) r)) p.(constraints)) /\
       (c.(demand) <> [] -> ~ weight_sum (demand_var_of usd) c.(demand) == 0) /\
       exists row, In ("Threshold", row) p.(constraints) /\ row.(c_sense) = LpConstraintGE /\
         forall sigma, eval_aff sigma row.(c_expr) ==
           100 / weight_sum (demand_var_of usd) c.(demand) * demand_sum sigma "Y" c.(demand) - psi)
    (fun _ _ => True) s0.
Proof.
  unfold create_cc_threshold_model. cbv zeta.
  apply wpe_validateM; [intros _ | auto].
  apply wpe_bind_any. intros _ s0'.
  apply wpe_bind. eapply wpe_mono; [apply wpe_make_demand_vars| |auto].
  intros dv s1 [Hs1 Hdv].
  apply wpe_bind. eapply wpe_mono; [apply wpe_make_facility_vars| |auto].
  intros fv s2 [_ [[l2 Hl2] [Hlab _]]].
  apply wpe_new_problem.
  set (s3 := mkBState _ _).
  apply wpe_bind. eapply wpe_mono; [apply (wpe_all_facility_terms_ok _ _ s3 Hlab)| |auto].
  intros obj s4 [-> ->].
  apply wpe_set_objective. set (s5 := mkBState _ _).
  assert (HY : forall d r, In (d, r) c.(demand) -> In (mclp_cc_Y delin d) s5.(created)).
  { intros d r Hin. unfold s5, s3. simpl.
    rewrite Hl2, Hs1. simpl. apply in_or_app. left. apply in_or_app. right.
    apply (in_map (fun dr => mkLpVariable (VDemand "Y" (fst dr)) ("Y" ++ delin ++ fst dr)%string
                               (Some 0) None LpContinuous)) in Hin. exact Hin. }
  unfold forM_. apply wpe_bind.
  eapply wpe_mono.
  { apply (wpe_foldM _ c.(demand) (fun pre _ s' => keeps s5 s' /\
             forall d r, In (d, r) pre ->
               In (translate_name ("D" ++ d)%string,
                   cmp (sum_minus (cover_terms true r.(d_coverage)) (mclp_cc_Y delin d)) LpConstraintGE 0)
                  s'.(prob).(constraints) /\
               exists nm, In (nm, cmp_val (aff_var (mclp_cc_Y delin d)) LpConstraintLE
                                    (raw_weight (demand_var_of usd) r)) s'.(prob).(constraints))
             (fun _ _ => True)).
    - intros pre [d r] post _ s6 Hdem [K56 Hrows]. cbv beta. simpl fst. simpl snd.
      apply wpe_bind. eapply wpe_mono.
      { apply (wpe_coverage_terms true fv r.(d_coverage) s6 True Hlab). intros; right; exact I. }
      2: auto.
      intros ts s7 [-> ->].
      apply (wpe_getM_some _ _ (mclp_cc_Y delin d)).
      { apply Hdv. rewrite Hdem. unfold Dict.keys. rewrite map_app. apply in_or_app. right. left. reflexivity. }
      apply wpe_bind. eapply wpe_mono; [apply wpe_add_named_keeps| |auto].
      intros _ s8 [K68 Hcs8].
      eapply wpe_mono; [apply wpe_add_unnamed_keeps| |auto].
      intros _ s9 [K89 [nm Hcs9]]. split; [exact (keeps_trans _ _ _ K56 (keeps_trans _ _ _ K68 K89))|].
      intros d' r' Hin'. apply in_app_or in Hin'. destruct Hin' as [Hin'|[Hin'|[]]].
      + destruct (Hrows d' r' Hin') as [HD [nm' HW]]. split.
        * exact (keeps_In_constraints _ _ _ (keeps_trans _ _ _ K68 K89) HD).
        * exists nm'. exact (keeps_In_constraints _ _ _ (keeps_trans _ _ _ K68 K89) HW).
      + inversion Hin'; subst d' r'. split.
        * apply (keeps_In_constraints _ _ _ K89). rewrite Hcs8. apply In_last_app.
        * exists nm. rewrite Hcs9. apply In_last_app.
    - split; [apply keeps_refl| intros d r []]. }
  2: auto.
  intros _ s9 [K59 Hrows9].
  apply wpe_bind. eapply wpe_mono.
  { apply (wpe_threshold_constraint (demand_var_of usd) c.(demand) dv "Y" false psi (Some "Threshold") s9).
    intros d Hd. eexists. split; [exact (Hdv d Hd)|reflexivity]. }
  2: auto.
  intros _ s10 [K910 [Hnum [Hne [nm [row [Hrow [Hnm [Hsense Hval]]]]]]]].
  apply wpe_get_prob. split; [reflexivity|].
  pose proof (keeps_trans _ _ _ K59 K910) as K510. destruct K510 as [E510 [O510 P510]].
  split; [rewrite P510; reflexivity|]. split.
  { intros sigma. rewrite O510. simpl. apply eval_fac_terms. }
  split; [exact Hnum|].
  split; [|split; [exact Hne|]].
  - intros d r Hin. destruct (Hrows9 d r Hin) as [HD [nm' HW]]. split; [|split].
    + apply (ext_In_created s5); [exact E510 | exact (HY d r Hin)].
    + exact (keeps_In_constraints _ _ _ K910 HD).
    + exists nm'. exact (keeps_In_constraints _ _ _ K910 HW).
  - exists row. subst nm. split; [exact Hrow|]. auto.
Qed.

Lemma ge_sat sigma row :
  row.(c_sense) = LpConstraintGE -> sat_b sigma row = true -> 0 <= eval_aff sigma row.(c_expr).
Proof. intros Hs H. unfold sat_b in H. rewrite Hs in H. apply Qle_bool_iff. exact H. Qed.

Lemma wpe_new_var_bind {B} i n lo up ct (k : LpVariable -> M B) Q E s :
  wpe (k (mkLpVariable i n lo up ct)) Q E (mkBState (s.(created) ++ [mkLpVariable i n lo up ct]) s.(prob)) ->
  wpe (bind (new_var i n lo up ct) k) Q E s.
Proof. unfold wpe, bind, new_var. auto. Qed.

Lemma wpe_create_lscp_model_rows c delin s0 :
  wpe (create_lscp_model c delin)
    (fun p s => p = s.(prob) /\ p.(p_sense) = LpMinimize /\
       (forall sigma, eval_aff sigma p.(objective) == vsum sigma (facility_vids c.(facilities))) /\
       (forall d r, In (d, r) c.(demand) ->
          In (translate_name ("D" ++ d)%string,
              cmp (lpSum (match cover_terms false r.(d_coverage) with
                          | [] => [aff_var (lscp_dummy delin d)]
                          | ts => ts end)) LpConstraintGE 1) p.(constraints)))
    (fun _ _ => True) s0.
Proof.
  unfold create_lscp_model.
  apply wpe_validateM; [intros _ | auto].
  apply wpe_bind_any. intros dv s1.
  apply wpe_bind. eapply wpe_mono; [apply wpe_make_facility_vars| |auto].
  intros fv s2 [_ [_ [Hlab _]]].
  apply wpe_new_problem.
  set (s3 := mkBState _ _).
  apply wpe_bind. eapply wpe_mono; [apply (wpe_all_facility_terms_ok _ _ s3 Hlab)| |auto].
  intros obj s4 [-> ->].
  apply wpe_set_objective. set (s5 := mkBState _ _).
  unfold forM_. apply wpe_bind.
  eapply wpe_mono.
  { apply (wpe_foldM _ c.(demand) (fun pre _ s' => keeps s5 s' /\
             forall d r, In (d, r) pre ->
               In (translate_name ("D" ++ d)%string,
                   cmp (lpSum (match cover_terms false r.(d_coverage) with
                               | [] => [aff_var (lscp_dummy delin d)]
                               | ts => ts end)) LpConstraintGE 1) s'.(prob).(constraints))
             (fun _ _ => True)).
    - intros pre [d r] post _ s6 Hdem [K56 Hrows]. cbv beta. simpl fst. simpl snd.
      apply wpe_bind. eapply wpe_mono.
      { apply (wpe_coverage_terms false fv r.(d_coverage) s6 True Hlab). intros; right; exact I. }
      2: auto.
      intros ts s7 [-> ->].
      assert (Hadd : forall ts' s8, keeps s6 s8 ->
                ts' = match cover_terms false r.(d_coverage) with
                      | [] => [aff_var (lscp_dummy delin d)] | ts => ts end ->
                wpe (add_constraint (cmp (lpSum ts') LpConstraintGE 1) (Some ("D" ++ d)%string))
                  (fun _ s' => keeps s5 s' /\
                     forall d' r', In (d', r') (pre ++ [(d, r)]) ->
                       In (translate_name ("D" ++ d')%string,
                           cmp (lpSum (match cover_terms false r'.(d_coverage) with
                                       | [] => [aff_var (lscp_dummy delin d')]
                                       | ts => ts end)) LpConstraintGE 1) s'.(prob).(constraints))
                  (fun _ _ => True) s8).
      { intros ts' s8 K68 ->.
        eapply wpe_mono; [apply wpe_add_named_keeps| |auto].
        intros _ s9 [K89 Hcs9]. split; [exact (keeps_trans _ _ _ K56 (keeps_trans _ _ _ K68 K89))|].
        intros d' r' Hin'. apply in_app_or in Hin'. destruct Hin' as [Hin'|[Hin'|[]]].
        - exact (keeps_In_constraints _ _ _ (keeps_trans _ _ _ K68 K89) (Hrows d' r' Hin')).
        - inversion Hin'; subst d' r'. rewrite Hcs9. apply In_last_app. }
      apply wpe_bind.
      destruct (cover_terms false r.(d_coverage)) as [|t ts] eqn:Ht.
      + apply wpe_new_var_bind. apply wpe_ret. apply (Hadd _ _).
        * split; [split; [eexists; reflexivity | exists []; rewrite app_nil_r; reflexivity]|].
          split; reflexivity.
        * reflexivity.
      + apply wpe_ret. apply (Hadd _ _ (keeps_refl _)). reflexivity.
    - split; [apply keeps_refl| intros d r []]. }
  2: auto.
  intros _ s9 [K59 Hrows9].
  apply wpe_get_prob. split; [reflexivity|].
  destruct K59 as [E59 [O59 P59]].
  split; [rewrite P59; reflexivity|]. split; [|exact Hrows9].
  intros sigma. rewrite O59. simpl. apply eval_fac_terms.
Qed.



(** X6: in a problem returned by [create_lscp_model], a demand unit [d]
    covered by at least one facility has the row [D<d>]: sum of the covering
    siting variables [>= 1]; a feasible assignment sites at least one
    facility covering [d]. *)
Theorem lscp_demand_covered (c : Coverage) (delineator : string) (s0 s : BState) (p : LpProblem)
    (d : string) (r : DemandRecord) :
  create_lscp_model c delineator s0 = (s, Ok p) ->
  In (d, r) c.(demand) -> covering_vids r.(d_coverage) <> [] ->
  (exists row, In (translate_name ("D" ++ d)%string, row) p.(constraints) /\
               row.(c_sense) = LpConstraintGE /\
               forall sigma, eval_aff sigma row.(c_expr) == cover_sum sigma r.(d_coverage) - 1) /\
  (forall sigma, feasible p s.(created) sigma = true -> 1 <= cover_sum sigma r.(d_coverage)).
Proof.
  intros Hrun Hin Hne.
  pose proof (wpe_run _ _ _ _ _ _ (wpe_create_lscp_model_rows c delineator s0) Hrun)
    as [_ [_ [_ Hrows]]].
  pose proof (Hrows d r Hin) as HD.
  assert (Hct : exists t ts, cover_terms false r.(d_coverage) = t :: ts).
  { rewrite cover_terms_unweighted. destruct (covering_vids r.(d_coverage)); [contradiction|]. simpl. eauto. }
  destruct Hct as [t [ts Hct]].
  assert (Hval : forall sigma, eval_aff sigma (cmp (lpSum (t :: ts)) LpConstraintGE 1).(c_expr)
                               == cover_sum sigma r.(d_coverage) - 1).
  { intros sigma. rewrite eval_cmp, eval_lpSum, <- Hct, eval_cover_terms_unweighted. reflexivity. }
  rewrite Hct in HD.
  split.
  - eexists. split; [exact HD|]. split; [reflexivity|]. exact Hval.
  - intros sigma Hf. pose proof (ge_sat _ (cmp (lpSum (t :: ts)) LpConstraintGE 1) eq_refl (feasible_row _ _ _ _ Hf HD)) as H.
    rewrite Hval in H. lra.
Qed.

(** X7: [create_lscp_model], [create_threshold_model] and
    [create_cc_threshold_model] build a minimisation problem whose objective
    is the sum of the siting variables of all facilities of the store. *)
Theorem facility_count_objectives (c : Coverage) (psi : Q) (delineator : string)
    (use_serviceable_demand : bool) (s0 s : BState) (p : LpProblem) :
  (create_lscp_model c delineator s0 = (s, Ok p) \/
   create_threshold_model c psi delineator use_serviceable_demand s0 = (s, Ok p) \/
   create_cc_threshold_model c psi delineator use_serviceable_demand s0 = (s, Ok p)) ->
  p.(p_sense) = LpMinimize /\
  forall sigma, eval_aff sigma p.(objective) == vsum sigma (facility_vids c.(facilities)).
Proof.
  intros [H|[H|H]].
  - destruct (wpe_run _ _ _ _ _ _ (wpe_create_lscp_model_rows c delineator s0) H) as [_ [Hs [Ho _]]]. auto.
  - destruct (wpe_run _ _ _ _ _ _ (wpe_create_threshold_model c psi delineator use_serviceable_demand s0) H)
      as [_ [Hs [Ho _]]]. auto.
  - destruct (wpe_run _ _ _ _ _ _ (wpe_create_cc_threshold_model c psi delineator use_serviceable_demand s0) H)
      as [_ [Hs [Ho _]]]. auto.
Qed.

Lemma wpe_backup_objective c nf delin usd s0 :
  wpe (create_backup_model c nf delin usd)
    (fun p s => p.(p_sense) = LpMaximize /\
       (forall d r, In (d, r) c.(demand) -> exists q, raw_weight (demand_var_of usd) r = PyNum q) /\
       (forall sigma, eval_aff sigma p.(objective) == demand_value sigma (demand_var_of usd) "U" c.(demand)))
    (fun _ _ => True) s0.
Proof.
  unfold create_backup_model. cbv zeta.
  apply wpe_validateM; [intros _ | auto].
  apply wpe_bind. eapply wpe_mono; [apply wpe_make_demand_vars| |auto].
  intros dv s1 [_ Hdv].
  apply wpe_bind_any. intros fv s2.
  apply wpe_new_problem.
  set (s3 := mkBState _ _).
  apply wpe_bind. eapply wpe_mono.
  { apply (wpe_weighted_demand_terms_ok (demand_var_of usd) c.(demand) dv "U" s3).
    intros d Hd. eexists. split; [exact (Hdv d Hd)|reflexivity]. }
  2: auto.
  intros obj s4 [-> [Hnum Hobj]].
  apply wpe_set_objective. set (s5 := mkBState _ _).
  apply wpe_bind_keeps; [repeat keeps_step|]. intros _ s6 K56.
  apply wpe_bind_keeps; [apply keeps_facility_count_constraints|]. intros _ s7 K67.
  apply wpe_get_prob. destruct (keeps_trans _ _ _ K56 K67) as [_ [O P]].
  split; [rewrite P; reflexivity|]. split; [exact Hnum|].
  intros sigma. rewrite O. simpl. rewrite eval_lpSum. apply Hobj.
Qed.

(** X8: [create_mclp_model] and [create_mclp_cc_model] (over [Y]) and
    [create_backup_model] (over [U]) build a maximisation problem whose
    objective is [sum_d w_d * var_d], every weight [w_d] being a number. *)
Theorem weighted_coverage_objectives (c : Coverage) (num_fac : Dict.t Q) (delineator : string)
    (use_serviceable_demand : bool) (s0 s : BState) (p : LpProblem) (prefix : string) :
  (create_mclp_model c num_fac delineator use_serviceable_demand s0 = (s, Ok p) /\ prefix = "Y" \/
   create_mclp_cc_model c num_fac delineator use_serviceable_demand s0 = (s, Ok p) /\ prefix = "Y" \/
   create_backup_model c num_fac delineator use_serviceable_demand s0 = (s, Ok p) /\ prefix = "U") ->
  p.(p_sense) = LpMaximize /\
  (forall d r, In (d, r) c.(demand) -> exists q, raw_weight (demand_var_of use_serviceable_demand) r = PyNum q) /\
  (forall sigma, eval_aff sigma p.(objective) ==
                 demand_value sigma (demand_var_of use_serviceable_demand) prefix c.(demand)).
Proof.
  intros [[H ->]|[[H ->]|[H ->]]].
  - destruct (wpe_run _ _ _ _ _ _ (wpe_create_mclp_model c num_fac delineator use_serviceable_demand s0) H)
      as [_ [Hs [Hn [Ho _]]]]. auto.
  - destruct (wpe_run _ _ _ _ _ _ (wpe_create_mclp_cc_model c num_fac delineator use_serviceable_demand s0) H)
      as [_ [Hs [Hn [Ho _]]]]. auto.
  - exact (wpe_run _ _ _ _ _ _ (wpe_backup_objective c num_fac delineator use_serviceable_demand s0) H).
Qed.

Lemma validate_one_tag ty mode tag :
  validate_coverage ty mode ["coverage"] [tag] =
  if String.eqb ty tag then (if String.eqb mode "coverage" then None else Some (ValueError "Expected modes"))
  else Some (ValueError "Expected types").
Proof. unfold validate_coverage. simpl. rewrite !orb_false_r. destruct (String.eqb ty tag); simpl; [destruct (String.eqb mode "coverage")|]; reflexivity. Qed.

Lemma tag_error ty mode tag e :
  (ty <> tag /\ e = ValueError "Expected types") \/
  (ty = tag /\ mode <> "coverage" /\ e = ValueError "Expected modes") ->
  validate_coverage ty mode ["coverage"] [tag] = Some e.
Proof.
  rewrite validate_one_tag. intros [[Hty ->]|[-> [Hm ->]]].
  - apply String.eqb_neq in Hty. rewrite Hty. reflexivity.
  - rewrite String.eqb_refl. apply String.eqb_neq in Hm. rewrite Hm. reflexivity.
Qed.

Lemma validateM_err {B} ty mode ms ts e (k : unit -> M B) s :
  validate_coverage ty mode ms ts = Some e -> bind (validateM ty mode ms ts) k s = (s, Err e).
Proof. intros H. unfold bind, validateM. rewrite H. reflexivity. Qed.

(** X9: a builder given a store whose type tag is not its own raises
    [ValueError "Expected types"], and one given its own tag with a mode
    other than ["coverage"] raises [ValueError "Expected modes"], in both
    cases with the state unchanged (no variable, no problem). *)
Theorem builders_reject_wrong_store (c : Coverage) (tc : TraumaCoverage) (num_fac : Dict.t Q)
    (psi bw : Q) (num_ad num_tc : Z) (delineator : string) (use_serviceable_demand : bool)
    (s0 : BState) (e : pyerr) :
  ((c.(ctype) <> "binary" /\ e = ValueError "Expected types") \/
   (c.(ctype) = "binary" /\ c.(cmode) <> "coverage" /\ e = ValueError "Expected modes") ->
   create_mclp_model c num_fac delineator use_serviceable_demand s0 = (s0, Err e) /\
   create_threshold_model c psi delineator use_serviceable_demand s0 = (s0, Err e) /\
   create_backup_model c num_fac delineator use_serviceable_demand s0 = (s0, Err e) /\
   create_lscp_model c delineator s0 = (s0, Err e)) /\
  ((c.(ctype) <> "partial" /\ e = ValueError "Expected types") \/
   (c.(ctype) = "partial" /\ c.(cmode) <> "coverage" /\ e = ValueError "Expected modes") ->
   create_mclp_cc_model c num_fac delineator use_serviceable_demand s0 = (s0, Err e) /\
   create_cc_threshold_model c psi delineator use_serviceable_demand s0 = (s0, Err e) /\
   create_bclpcc_model c num_fac bw delineator use_serviceable_demand s0 = (s0, Err e)) /\
  ((tc.(ttype) <> "traumah" /\ e = ValueError "Expected types") \/
   (tc.(ttype) = "traumah" /\ tc.(tmode) <> "coverage" /\ e = ValueError "Expected modes") ->
   create_traumah_model tc num_ad num_tc delineator s0 = (s0, Err e)).
Proof.
  split; [|split]; intros H; apply tag_error in H.
  - unfold create_mclp_model, create_threshold_model, create_backup_model, create_lscp_model.
    cbv zeta. rewrite !(validateM_err _ _ _ _ _ _ _ H). auto.
  - unfold create_mclp_cc_model, create_cc_threshold_model, create_bclpcc_model.
    cbv zeta. rewrite !(validateM_err _ _ _ _ _ _ _ H). auto.
  - unfold create_traumah_model. apply (validateM_err _ _ _ _ _ _ _ H).
Qed.

Section Avoids.
Variable e0 : pyerr.
Hypothesis Hkey : forall k, KeyError k <> e0.
Hypothesis Htype : forall msg, TypeError msg <> e0.
Hypothesis Hpulp : forall msg, PulpError msg <> e0.
Hypothesis Htypes : ValueError "Expected types" <> e0.
Hypothesis Hmodes : ValueError "Expected modes" <> e0.

Lemma av_bind {A B} (m : M A) (k : A -> M B) :
  avoids e0 m -> (forall a, avoids e0 (k a)) -> avoids e0 (bind m k).
Proof.
  intros Hm Hk s. apply wpe_bind. eapply wpe_mono; [apply Hm| |auto].
  intros a s' _. apply Hk.
Qed.

Lemma av_foldM {A X} (f : A -> X -> M A) a (l : list X) :
  (forall a x, avoids e0 (f a x)) -> avoids e0 (foldM f a l).
Proof.
  intros Hf. revert a. induction l as [|x r IH]; intros a s; simpl.
  - apply wpe_ret; auto.
  - apply (av_bind _ _ (Hf a x) IH).
Qed.

Lemma av_ret {A} (a : A) : avoids e0 (ret a).
Proof. intros s; apply wpe_ret; auto. Qed.

Lemma av_getM {V} k (d : Dict.t V) : avoids e0 (getM k d).
Proof.
  intros s. unfold getM, getr. destruct (Dict.get k d); unfold wpe; simpl; auto.
Qed.

Lemma av_weight dv r : avoids e0 (liftR (weight dv r)).
Proof.
  intros s. unfold weight. destruct (raw_weight dv r); unfold wpe; simpl; auto.
Qed.

Lemma av_new_var i n lo up c : avoids e0 (new_var i n lo up c).
Proof. intros s; unfold wpe, new_var; auto. Qed.

Lemma av_new_problem n sn : avoids e0 (new_problem n sn).
Proof. intros s; unfold wpe, new_problem; auto. Qed.

Lemma av_set_objective e : avoids e0 (set_objective e).
Proof. intros s; unfold wpe, set_objective; auto. Qed.

Lemma av_get_prob : avoids e0 get_prob.
Proof. intros s; unfold wpe, get_prob; auto. Qed.

Lemma av_add_constraint c n : avoids e0 (add_constraint c n).
Proof.
  intros s; unfold wpe, add_constraint.
  destruct n as [n|]; destruct (existsb _ _); auto.
Qed.

Lemma av_validateM t m ms ts : avoids e0 (validateM t m ms ts).
Proof.
  unfold validateM, validate_coverage.
  destruct (negb _); [intros s; apply wpe_raise; auto|].
  destruct (negb _); [intros s; apply wpe_raise; auto| apply av_ret].
Qed.

End Avoids.

Ltac av_step :=
  match goal with
  | |- avoids _ (bind _ _) => apply av_bind; intros
  | |- avoids _ (foldM _ _ _) => apply av_foldM; intros
  | |- avoids _ (forM_ _ _) => unfold forM_; apply av_foldM; intros
  | |- avoids _ (ret _) => apply av_ret
  | |- avoids _ (getM _ _) => apply av_getM; discriminate
  | |- avoids _ (liftR (weight _ _)) => apply av_weight; discriminate
  | |- avoids _ (new_var _ _ _ _ _) => apply av_new_var
  | |- avoids _ (new_problem _ _) => apply av_new_problem
  | |- avoids _ (set_objective _) => apply av_set_objective
  | |- avoids _ get_prob => apply av_get_prob
  | |- avoids _ (add_constraint _ _) => apply av_add_constraint; discriminate
  | |- avoids _ (validateM _ _ _ _) => apply av_validateM; discriminate
  | |- avoids _ (if ?b then _ else _) => destruct b
  | |- avoids _ (get2 _ _ _) => unfold get2
  | |- avoids _ (make_demand_vars _ _ _ _ _ _) => unfold make_demand_vars
  | |- avoids _ (make_facility_vars _ _ _ _) => unfold make_facility_vars
  | |- avoids _ (all_facility_terms _ _) => unfold all_facility_terms
  | |- avoids _ (coverage_terms _ _ _) => unfold coverage_terms
  | |- avoids _ (facility_count_constraints _ _ _) => unfold facility_count_constraints
  | |- avoids _ _ => progress cbv beta zeta
  end.

Lemma bclpcc_avoids_weight_error c nf bw delin usd :
  out_of_range 0 1 bw = false ->
  avoids (ValueError "Backup weight must be between 0 and 1") (create_bclpcc_model c nf bw delin usd).
Proof. intros H. unfold create_bclpcc_model. rewrite H. repeat av_step. Qed.

(** X10: on a partial store in mode ["coverage"], [create_bclpcc_model]
    raises [ValueError "Backup weight must be between 0 and 1"] with the
    state unchanged when [backup_weight < 0] or [backup_weight > 1]; with
    [0 <= backup_weight <= 1] it never raises that error. *)
Theorem bclpcc_backup_weight_range (c : Coverage) (num_fac : Dict.t Q) (bw : Q) (delineator : string)
    (use_serviceable_demand : bool) (s : BState) :
  ((bw < 0 \/ 1 < bw) -> c.(ctype) = "partial" -> c.(cmode) = "coverage" ->
     create_bclpcc_model c num_fac bw delineator use_serviceable_demand s =
       (s, Err (ValueError "Backup weight must be between 0 and 1"))) /\
  (0 <= bw <= 1 ->
     snd (create_bclpcc_model c num_fac bw delineator use_serviceable_demand s)
       <> Err (ValueError "Backup weight must be between 0 and 1")).
Proof.
  split.
  - intros Hout Ht Hm.
    assert (H : out_of_range 0 1 bw = true).
    { destruct (out_of_range 0 1 bw) eqn:E; auto.
      apply out_of_range_iff in E. exfalso. destruct Hout; destruct E; apply (Qlt_not_le _ _ H); auto. }
    unfold create_bclpcc_model, bind, validateM. rewrite Ht, Hm, H. reflexivity.
  - intros Hin. apply out_of_range_iff in Hin.
    pose proof (bclpcc_avoids_weight_error c num_fac bw delineator use_serviceable_demand Hin s) as H.
    unfold wpe in H. destruct (create_bclpcc_model _ _ _ _ _ s) as [s1 [a|e]]; simpl.
    + discriminate.
    + intros HH. inversion HH; subst. apply H. reflexivity.
Qed.

Lemma wpe_traumah_vars delin (ds : Dict.t TraumaDemand) s :
  wpe (foldM (fun acc dr =>
            let d := fst dr in
            y <- new_var (VDemand "Y" d) ("Y" ++ delin ++ d) (Some 0) (Some 1) LpInteger ;;
            v <- new_var (VDemand "V" d) ("V" ++ delin ++ d) (Some 0) (Some 1) LpInteger ;;
            u <- new_var (VDemand "U" d) ("U" ++ delin ++ d) (Some 0) (Some 1) LpInteger ;;
            ret (Dict.set d y (fst (fst acc)), Dict.set d v (snd (fst acc)), Dict.set d u (snd acc)))
          ([], [], []) ds)
    (fun vars _ => forall d, In d (Dict.keys ds) -> exists v, Dict.get d (fst (fst vars)) = Some v)
    (fun _ _ => False) s.
Proof.
  apply (wpe_foldM _ ds (fun pre vars _ => forall d, In d (Dict.keys pre) ->
                                     exists v, Dict.get d (fst (fst vars)) = Some v)).
  - intros pre x post a s1 _ HI. unfold wpe, bind, new_var, ret; simpl.
    intros d Hd. unfold Dict.keys in Hd. rewrite map_app in Hd. apply in_app_or in Hd.
    rewrite get_set. destruct (String.eqb d (fst x)) eqn:E; eauto.
    destruct Hd as [Hd|[Hd|[]]]; [apply HI; exact Hd|].
    subst. rewrite String.eqb_refl in E. discriminate.
  - simpl. tauto.
Qed.

Lemma wpe_traumah_missing c na nt delin s target :
  c.(ttype) = "traumah" -> c.(tmode) = "coverage" ->
  ((Dict.get "AirDepot" c.(tfacilities) = None /\ target = KeyError "AirDepot") \/
   (Dict.get "AirDepot" c.(tfacilities) <> None /\ Dict.get "TraumaCenter" c.(tfacilities) = None /\
    target = KeyError "TraumaCenter")) ->
  wpe (create_traumah_model c na nt delin) (fun _ _ => False) (fun e _ => e = target) s.
Proof.
  intros Ht Hm Hcase. unfold create_traumah_model.
  apply wpe_validateM.
  2:{ intros e He. unfold validate_coverage in He. rewrite Ht, Hm in He. simpl in He. discriminate. }
  intros _. apply wpe_bind. eapply wpe_mono; [apply wpe_traumah_vars| |tauto].
  intros vars s1 Hvars. cbv zeta.
  apply wpe_bind. eapply wpe_mono; [apply wpe_make_facility_vars| |tauto].
  intros fv s2 _.
  destruct Hcase as [[HAD ->]|[HAD [HTC ->]]].
  - unfold wpe, bind at 1, getM, getr. rewrite HAD. reflexivity.
  - destruct (Dict.get "AirDepot" c.(tfacilities)) as [ads|] eqn:EAD; [|congruence].
    apply (wpe_getM_some _ _ _ _ _ _ _ EAD).
    destruct ads as [|am ads'].
    + unfold foldM at 1. unfold bind at 1, ret at 1.
      apply wpe_new_problem. apply wpe_bind.
      set (s3 := mkBState _ _).
      eapply wpe_mono.
      { apply (wpe_foldM _ c.(tdemand) (fun _ _ s' => s' = s3)); [|reflexivity].
        intros pre x post a s' HL ->.
        destruct (Hvars (fst x)) as [v Hv].
        { unfold Dict.keys. rewrite HL, map_app. apply in_or_app. right. left. reflexivity. }
        apply (wpe_getM_some _ _ _ _ _ _ _ Hv). apply wpe_ret. reflexivity. }
      2:{ intros e s' F. exact F. }
      intros obj s' ->. apply wpe_set_objective.
      apply (wpe_getM_some _ _ _ _ _ _ _ EAD). unfold foldM at 1. unfold bind at 1, ret at 1.
      unfold wpe, bind at 1, add_constraint. simpl.
      unfold getM, getr. rewrite HTC. reflexivity.
    + unfold foldM at 1. unfold bind at 1, bind at 1. unfold wpe, bind at 1, getM, getr. rewrite HTC. reflexivity.
Qed.

(** X11: on a TraumaH store in mode ["coverage"], [create_traumah_model]
    raises [KeyError "AirDepot"] when the store has no facility type
    ["AirDepot"], and [KeyError "TraumaCenter"] when it has ["AirDepot"] but
    no ["TraumaCenter"]. *)
Theorem traumah_missing_facility_type (c : TraumaCoverage) (num_ad num_tc : Z) (delineator : string)
    (s : BState) :
  c.(ttype) = "traumah" -> c.(tmode) = "coverage" ->
  (Dict.get "AirDepot" c.(tfacilities) = None ->
     snd (create_traumah_model c num_ad num_tc delineator s) = Err (KeyError "AirDepot")) /\
  (Dict.mem "AirDepot" c.(tfacilities) = true -> Dict.get "TraumaCenter" c.(tfacilities) = None ->
     snd (create_traumah_model c num_ad num_tc delineator s) = Err (KeyError "TraumaCenter")).
Proof.
  intros Ht Hm.
  assert (G : forall target,
            ((Dict.get "AirDepot" c.(tfacilities) = None /\ target = KeyError "AirDepot") \/
             (Dict.get "AirDepot" c.(tfacilities) <> None /\
              Dict.get "TraumaCenter" c.(tfacilities) = None /\ target = KeyError "TraumaCenter")) ->
            snd (create_traumah_model c num_ad num_tc delineator s) = Err target).
  { intros target H. pose proof (wpe_traumah_missing c num_ad num_tc delineator s target Ht Hm H) as W.
    unfold wpe in W. destruct (create_traumah_model c num_ad num_tc delineator s) as [s' [a|e]];
      [contradiction|simpl; congruence]. }
  split.
  - intros H. apply G. left. auto.
  - intros Hmem H. apply G. right. unfold Dict.mem in Hmem.
    destruct (Dict.get "AirDepot" c.(tfacilities)); [|discriminate]. split; [discriminate|auto].
Qed.



Lemma validate_single_none ty mode t :
  validate_coverage ty mode ["coverage"] [t] = None -> ty = t /\ mode = "coverage".
Proof.
  unfold validate_coverage. simpl. rewrite !orb_false_r.
  destruct (String.eqb ty t) eqn:E1; simpl; [|discriminate].
  destruct (String.eqb mode "coverage") eqn:E2; simpl; [|discriminate].
  intros _. apply String.eqb_eq in E1, E2. auto.
Qed.

Lemma merge_check_inv cs : forall t ft dk0 r,
  merge_check cs (Some t) ft dk0 = Ok r ->
  (forall c, In c cs -> c.(ctype) = t /\ c.(cmode) = "coverage") /\
  snd r = dk0 ++ map (fun c => Dict.keys c.(demand)) cs.
Proof.
  induction cs as [|c cs IH]; intros t ft dk0 r H; simpl in H.
  - inversion H; subst. simpl. rewrite app_nil_r. split; [intros _ []|reflexivity].
  - destruct (validate_coverage c.(ctype) c.(cmode) ["coverage"] [t]) eqn:V; [discriminate|].
    apply validate_single_none in V.
    destruct (check_facility_items c.(facilities) ft) as [ft'|e]; simpl in H; [|discriminate].
    destruct (IH _ _ _ _ H) as [Hall Hdk]. split.
    + intros c' [<-|Hc]; auto.
    + rewrite Hdk, <- app_assoc. reflexivity.
Qed.

Lemma set_eqb_sound a b : set_eqb a b = true -> forall k, In k a <-> In k b.
Proof.
  unfold set_eqb. intros H. apply andb_prop in H as [H1 H2].
  rewrite forallb_forall in H1, H2. intros k. split; intros Hk.
  - apply existsb_eqb_In. apply H1. exact Hk.
  - apply existsb_eqb_In. apply H2. exact Hk.
Qed.

Lemma demand_keys_valid dk : demand_keys_invalid dk = false ->
  forall a b, In a dk -> In b dk -> set_eqb a b = true.
Proof.
  unfold demand_keys_invalid. intros H a b Ha Hb.
  destruct (set_eqb a b) eqn:E; auto. exfalso.
  assert (T : existsb (fun keys => existsb (fun keys2 => negb (set_eqb keys keys2)) dk) dk = true).
  { apply existsb_exists. exists a. split; auto. apply existsb_exists. exists b. rewrite E. auto. }
  congruence.
Qed.

(** X15: whenever [merge_coverages] succeeds, every input store has the
    type tag of the first store, the mode ["coverage"] and the same set of
    demand ids as the first store. *)
Theorem merge_coverages_uniform (c0 : Coverage) (rest : list Coverage) (m : Coverage) :
  merge_coverages (c0 :: rest) = Ok m ->
  forall c, In c (c0 :: rest) ->
    c.(ctype) = c0.(ctype) /\ c.(cmode) = "coverage" /\
    (forall d, In d (Dict.keys c.(demand)) <-> In d (Dict.keys c0.(demand))).
Proof.
  intros H c Hc. unfold merge_coverages in H.
  destruct (merge_check (c0 :: rest) None [] []) as [chk|e] eqn:Hchk; simpl in H; [|discriminate].
  destruct (demand_keys_invalid (snd chk)) eqn:Hdk; [discriminate|].
  simpl in Hchk.
  destruct (validate_coverage c0.(ctype) c0.(cmode) ["coverage"] [c0.(ctype)]) eqn:V; [discriminate|].
  destruct (check_facility_items c0.(facilities) []) as [ft|e]; simpl in Hchk; [|discriminate].
  destruct (merge_check_inv _ _ _ _ _ Hchk) as [Hall Hsnd].
  assert (Hall' : forall c, In c (c0 :: rest) -> c.(ctype) = c0.(ctype) /\ c.(cmode) = "coverage").
  { intros c' [<-|Hc']; auto. apply validate_single_none in V. destruct V; auto. }
  destruct (Hall' c Hc) as [Ht Hm]. split; [exact Ht|]. split; [exact Hm|].
  apply set_eqb_sound. apply (demand_keys_valid _ Hdk); rewrite Hsnd; simpl.
  - destruct Hc as [<-|Hc]; [left; reflexivity|right].
    apply (in_map (fun c1 : Coverage => Dict.keys c1.(demand))). exact Hc.
  - left. reflexivity.
Qed.

(** X14: [merge_coverages([])] raises [IndexError]; [merge_coverages([A])]
    raises [ValueError "Expected modes"] when the mode of [A] is not
    ["coverage"], and otherwise returns [A] itself unless the facility check
    of [A] raises. *)
Theorem merge_coverages_short (A : Coverage) :
  merge_coverages [] = Err IndexError /\
  (A.(cmode) <> "coverage" -> merge_coverages [A] = Err (ValueError "Expected modes")) /\
  (A.(cmode) = "coverage" ->
     merge_coverages [A] = match check_facility_items A.(facilities) [] with
                           | Ok _ => Ok A
                           | Err e => Err e
                           end).
Proof.
  split; [reflexivity|]. split.
  - intros Hm. unfold merge_coverages. simpl. unfold validate_coverage. simpl.
    rewrite String.eqb_refl. simpl.
    destruct (String.eqb A.(cmode) "coverage") eqn:E; [apply String.eqb_eq in E; contradiction|].
    reflexivity.
  - intros Hm. unfold merge_coverages. simpl. unfold validate_coverage. simpl.
    rewrite String.eqb_refl, Hm. simpl.
    destruct (check_facility_items A.(facilities) []); simpl; [|reflexivity].
    unfold demand_keys_invalid. simpl.
    rewrite (set_eqb_true (Dict.keys A.(demand)) (Dict.keys A.(demand))) by tauto. reflexivity.
Qed.

Lemma rfold_header {X} (f : Coverage -> X -> result Coverage) :
  (forall a x a', f a x = Ok a' -> same_header a a') ->
  forall l a a', rfold f a l = Ok a' -> same_header a a'.
Proof.
  intros Hf. induction l as [|x l IH]; intros a a' H; simpl in H.
  - inversion H; subst. unfold same_header; auto.
  - destruct (f a x) as [a1|e] eqn:E; simpl in H; [|discriminate].
    destruct (Hf _ _ _ E) as [? [? ?]]. destruct (IH _ _ H) as [? [? ?]].
    unfold same_header; repeat split; congruence.
Qed.

Lemma merge_one_header ct A B M : merge_one ct A B = Ok M -> same_header A M.
Proof.
  unfold merge_one. intros H.
  apply rfold_header in H; [destruct H as [? [? ?]]; unfold same_header; auto|].
  intros a [d cd] a' Ha. cbn [fst snd] in Ha.
  revert Ha. apply rfold_header. intros b [T fq] b' Hb.
  unfold merge_type in Hb. destruct (getr d b.(demand)) as [r|e]; simpl in Hb; [|discriminate].
  apply rfold_header in Hb.
  - destruct (Dict.mem T r.(d_coverage)); [exact Hb|].
    destruct Hb as [? [? ?]]. unfold same_header; auto.
  - intros c [f v] c' Hc. unfold merge_entry in Hc.
    destruct (getr d c.(demand)) as [r1|e]; simpl in Hc; [|discriminate].
    destruct (getr T r1.(d_coverage)) as [mT|e]; simpl in Hc; [|discriminate].
    destruct (_ && _).
    + destruct (getr "demand" cd.(d_coverage)); simpl in Hc; [|discriminate].
      destruct (getr d _); simpl in Hc; [|discriminate].
      inversion Hc; subst. unfold same_header; auto.
    + inversion Hc; subst. unfold same_header; auto.
Qed.

(** X16: merging two stores of the same type tag other than ["Binary"],
    in mode ["coverage"], well formed, with disjoint facility types and the
    same demand ids, succeeds: the result has the first store's type, mode,
    total and demand ids, the facilities of the first store followed by
    those of the second, and for every demand unit the first store's record
    with the second store's coverage entries appended to its own. *)
Theorem merge_two_concatenates (A B : Coverage) :
  A.(ctype) = B.(ctype) -> A.(ctype) <> "Binary" ->
  A.(cmode) = "coverage" -> B.(cmode) = "coverage" ->
  store_ok A -> store_ok B ->
  (forall T, In T (Dict.keys A.(facilities)) -> ~ In T (Dict.keys B.(facilities))) ->
  (forall d, In d (Dict.keys A.(demand)) <-> In d (Dict.keys B.(demand))) ->
  exists M, merge_coverages [A; B] = Ok M /\
    M.(ctype) = A.(ctype) /\ M.(cmode) = A.(cmode) /\
    M.(totalServiceableDemand) = A.(totalServiceableDemand) /\
    M.(facilities) = A.(facilities) ++ B.(facilities) /\
    Dict.keys M.(demand) = Dict.keys A.(demand) /\
    forall d rA rB, Dict.get d A.(demand) = Some rA -> Dict.get d B.(demand) = Some rB ->
      Dict.get d M.(demand) = Some (set_dcov rA (rA.(d_coverage) ++ rB.(d_coverage))).
Proof.
  intros Ht Hbin HmA HmB HA HB Hdis Hkeys.
  destruct (merge_one_demand A.(ctype) A B Hbin HA HB Hdis Hkeys) as [M [H1 [F1 [K1 G1]]]].
  pose proof HA as [HfA _]. pose proof HB as [HfB _].
  destruct (merge_one_header _ _ _ _ H1) as [Ht' [Hm' Htot']].
  exists M. rewrite merge_two_run; auto. split; [exact H1|].
  repeat split; auto.
Qed.

Lemma wpe_traumah_vars_ids delin (ds : Dict.t TraumaDemand) s :
  wpe (foldM (fun acc dr =>
            let d := fst dr in
            y <- new_var (VDemand "Y" d) ("Y" ++ delin ++ d) (Some 0) (Some 1) LpInteger ;;
            v <- new_var (VDemand "V" d) ("V" ++ delin ++ d) (Some 0) (Some 1) LpInteger ;;
            u <- new_var (VDemand "U" d) ("U" ++ delin ++ d) (Some 0) (Some 1) LpInteger ;;
            ret (Dict.set d y (fst (fst acc)), Dict.set d v (snd (fst acc)), Dict.set d u (snd acc)))
          ([], [], []) ds)
    (fun vars _ => forall d, In d (Dict.keys ds) ->
       Dict.get d (fst (fst vars)) = Some (trauma_var "Y" delin d) /\
       Dict.get d (snd (fst vars)) = Some (trauma_var "V" delin d) /\
       Dict.get d (snd vars) = Some (trauma_var "U" delin d))
    (fun _ _ => False) s.
Proof.
  apply (wpe_foldM _ ds (fun pre vars _ => forall d, In d (Dict.keys pre) ->
       Dict.get d (fst (fst vars)) = Some (trauma_var "Y" delin d) /\
       Dict.get d (snd (fst vars)) = Some (trauma_var "V" delin d) /\
       Dict.get d (snd vars) = Some (trauma_var "U" delin d))).
  - intros pre x post a s1 _ HI. unfold wpe, bind, new_var, ret; simpl.
    intros d Hd. unfold Dict.keys in Hd. rewrite map_app in Hd. apply in_app_or in Hd.
    rewrite !get_set. destruct (String.eqb d (fst x)) eqn:E.
    + apply String.eqb_eq in E. subst d. unfold trauma_var. auto.
    + destruct Hd as [Hd|[Hd|[]]]; [apply HI; exact Hd|].
      subst. rewrite String.eqb_refl in E. discriminate.
  - simpl. tauto.
Qed.

Lemma keeps_raise {A} e : keeps_m (@raise A e).
Proof. intros s. unfold wpe, raise. exact I. Qed.

Lemma keeps_pair_endpoint fv T adtc i : keeps_m (pair_endpoint fv T adtc i).
Proof.
  unfold pair_endpoint, py_index. apply keeps_bind; [apply keeps_liftR|intros m].
  apply keeps_bind; [|intros k; apply keeps_liftR].
  destruct (nth_error _ _); [apply keeps_ret|apply keeps_raise].
Qed.

Lemma eq_row_holds sigma e rhs :
  sat_b sigma (cmp e LpConstraintEQ rhs) = true -> eval_aff sigma e == rhs.
Proof.
  intros H. change (Qeq_bool (eval_aff sigma (cmp e LpConstraintEQ rhs).(c_expr)) 0 = true) in H.
  apply Qeq_bool_iff in H. rewrite eval_cmp in H. lra.
Qed.

Lemma wpe_create_traumah_model c na nt delin s0 :
  wpe (create_traumah_model c na nt delin)
    (fun p s => p = s.(prob) /\ p.(p_sense) = LpMaximize /\
       (forall sigma, eval_aff sigma p.(objective) == trauma_objective sigma c.(tdemand)) /\
       (forall ads, Dict.get "AirDepot" c.(tfacilities) = Some ads ->
          In (translate_name "NumAirDepot",
              cmp (lpSum (map (fun i => mkAff [(i, 1)] 0) (facility_vids [("AirDepot", ads)])))
                  LpConstraintEQ (inject_Z na)) p.(constraints)) /\
       (forall tcs, Dict.get "TraumaCenter" c.(tfacilities) = Some tcs ->
          In (translate_name "NumTraumaCenter",
              cmp (lpSum (map (fun i => mkAff [(i, 1)] 0) (facility_vids [("TraumaCenter", tcs)])))
                  LpConstraintEQ (inject_Z nt)) p.(constraints)) /\
       (forall d r, In (d, r) c.(tdemand) ->
          In (translate_name ("AIR_GROUND_" ++ d),
              cmp (aff_add (aff_add (aff_var (trauma_var "Y" delin d)) (aff_var (trauma_var "V" delin d)) (-1))
                           (aff_var (trauma_var "U" delin d)) (-1)) LpConstraintLE 0) p.(constraints)))
    (fun _ _ => True) s0.
Proof.
  unfold create_traumah_model.
  apply wpe_validateM; [intros _ | auto].
  apply wpe_bind. eapply wpe_mono; [apply wpe_traumah_vars_ids| |auto].
  intros vars s1 Hvars. cbv zeta.
  apply wpe_bind. eapply wpe_mono; [apply wpe_make_facility_vars| |auto].
  intros fv s2 [_ [_ [Hlab _]]].
  destruct (Dict.get "AirDepot" c.(tfacilities)) as [ads|] eqn:EAD;
    [|unfold wpe, bind at 1, getM, getr; rewrite EAD; exact I].
  apply (wpe_getM_some _ _ _ _ _ _ _ EAD).
  apply wpe_bind_any. intros adtc s3.
  apply wpe_new_problem. set (s4 := mkBState _ _).
  apply wpe_bind. eapply wpe_mono.
  { apply (wpe_foldM _ c.(tdemand) (fun pre ts s' => s' = s4 /\
             forall sigma, fold_right (fun e acc => eval_aff sigma e + acc) 0 ts == trauma_objective sigma pre)
             (fun _ _ => True)).
    - intros pre [d r] post ts s' HL [-> Hts]. cbn [fst snd].
      destruct (Hvars d) as [HY _].
      { unfold Dict.keys. rewrite HL, map_app. apply in_or_app. right. left. reflexivity. }
      apply (wpe_getM_some _ _ _ _ _ _ _ HY). apply wpe_ret. split; [reflexivity|].
      intros sigma. rewrite fold_sum_app, Hts. unfold trauma_objective. rewrite fold_sum_app.
      simpl. rewrite eval_scale. unfold aff_var, trauma_var. simpl. rewrite eval_var. ring.
    - split; [reflexivity|]. intros sigma. reflexivity. }
  2: auto.
  intros obj s' [-> Hobj].
  apply wpe_set_objective. set (s5 := mkBState _ _).
  apply (wpe_getM_some _ _ _ _ _ _ _ EAD).
  apply wpe_bind. eapply wpe_mono; [apply (wpe_fac_row "AirDepot" ads fv [] s5 Hlab)| |auto].
  intros ts s' [-> ->]. simpl app.
  apply wpe_bind. eapply wpe_mono; [apply wpe_add_named_keeps| |auto].
  intros _ s6 [K56 Hcs6].
  destruct (Dict.get "TraumaCenter" c.(tfacilities)) as [tcs|] eqn:ETC;
    [|unfold wpe, bind at 1, getM, getr; rewrite ETC; exact I].
  apply (wpe_getM_some _ _ _ _ _ _ _ ETC).
  apply wpe_bind. eapply wpe_mono; [apply (wpe_fac_row "TraumaCenter" tcs fv [] s6 Hlab)| |auto].
  intros ts s' [-> ->]. simpl app.
  apply wpe_bind. eapply wpe_mono; [apply wpe_add_named_keeps| |auto].
  intros _ s7 [K67 Hcs7].
  unfold forM_ at 1. apply wpe_bind. eapply wpe_mono.
  { apply (wpe_foldM _ c.(tdemand) (fun pre _ s' => keeps s7 s' /\
             forall d r, In (d, r) pre ->
               In (translate_name ("AIR_GROUND_" ++ d),
                   cmp (aff_add (aff_add (aff_var (trauma_var "Y" delin d)) (aff_var (trauma_var "V" delin d)) (-1))
                                (aff_var (trauma_var "U" delin d)) (-1)) LpConstraintLE 0) s'.(prob).(constraints))
             (fun _ _ => True)).
    - intros pre [d r] post _ s' HL [K7 Hrows]. cbn [fst snd].
      destruct (Hvars d) as [HY [HV HU]].
      { unfold Dict.keys. rewrite HL, map_app. apply in_or_app. right. left. reflexivity. }
      apply (wpe_getM_some _ _ _ _ _ _ _ HY). apply (wpe_getM_some _ _ _ _ _ _ _ HV).
      apply (wpe_getM_some _ _ _ _ _ _ _ HU).
      eapply wpe_mono; [apply wpe_add_named_keeps| |auto].
      intros _ s8 [K8 Hcs8]. split; [exact (keeps_trans _ _ _ K7 K8)|].
      intros d' r' Hin'. rewrite Hcs8. apply in_app_or in Hin'. apply in_or_app.
      destruct Hin' as [Hin'|[Hin'|[]]].
      + left. apply (Hrows d' r'). exact Hin'.
      + inversion Hin'; subst. right. left. reflexivity.
    - split; [apply keeps_refl|intros d r []]. }
  2: auto.
  intros _ s9 [K79 Hrows9].
  apply wpe_bind_keeps.
  { repeat keeps_step. }
  intros _ s10 K910.
  apply wpe_bind_keeps.
  { repeat keeps_step. }
  intros _ s11 K1011.
  apply wpe_bind_keeps.
  { repeat (keeps_step || apply keeps_pair_endpoint). }
  intros _ s12 K1112.
  apply wpe_get_prob.
  assert (K912 : keeps s9 s12) by (eapply keeps_trans; [exact K910|exact (keeps_trans _ _ _ K1011 K1112)]).
  assert (K512 : keeps s5 s12).
  { eapply keeps_trans; [exact K56|]. eapply keeps_trans; [exact K67|]. eapply keeps_trans; [exact K79|exact K912]. }
  destruct K512 as [_ [O512 P512]].
  split; [reflexivity|]. split; [rewrite P512; reflexivity|]. split.
  { intros sigma. rewrite O512. simpl. rewrite eval_lpSum. apply Hobj. }
  split; [|split].
  - intros ads' Hads. inversion Hads; subst ads'.
    apply (keeps_In_constraints s6); [eapply keeps_trans; [exact K67|eapply keeps_trans; [exact K79|exact K912]]|].
    rewrite Hcs6, fac_terms_single. apply In_last_app.
  - intros tcs' Htcs. inversion Htcs; subst tcs'.
    apply (keeps_In_constraints s7); [eapply keeps_trans; [exact K79|exact K912]|].
    rewrite Hcs7, fac_terms_single. apply In_last_app.
  - intros d r Hin. apply (keeps_In_constraints s9); [exact K912|]. apply (Hrows9 d r Hin).
Qed.

(** X12: a problem returned by [create_traumah_model] maximises
    [sum_d demand_d * Y_d]; a feasible assignment sites exactly [num_ad] air
    depots and [num_tc] trauma centers and has [Y_d <= V_d + U_d] for every
    demand unit [d]. *)
Theorem traumah_model_rows (c : TraumaCoverage) (num_ad num_tc : Z) (delineator : string)
    (s0 s : BState) (p : LpProblem) :
  create_traumah_model c num_ad num_tc delineator s0 = (s, Ok p) ->
  p.(p_sense) = LpMaximize /\
  (forall sigma, eval_aff sigma p.(objective) == trauma_objective sigma c.(tdemand)) /\
  forall sigma, feasible p s.(created) sigma = true ->
    (forall ads, Dict.get "AirDepot" c.(tfacilities) = Some ads ->
       vsum sigma (facility_vids [("AirDepot", ads)]) == inject_Z num_ad) /\
    (forall tcs, Dict.get "TraumaCenter" c.(tfacilities) = Some tcs ->
       vsum sigma (facility_vids [("TraumaCenter", tcs)]) == inject_Z num_tc) /\
    (forall d r, In (d, r) c.(tdemand) ->
       sigma (VDemand "Y" d) <= sigma (VDemand "V" d) + sigma (VDemand "U" d)).
Proof.
  intros Hrun. pose proof (wpe_create_traumah_model c num_ad num_tc delineator s0) as W.
  unfold wpe in W. rewrite Hrun in W.
  destruct W as [-> [Hsense [Hobj [HAD [HTC Hrows]]]]].
  split; [exact Hsense|]. split; [exact Hobj|].
  intros sigma Hf. split; [|split].
  - intros ads Hads. pose proof (eq_row_holds sigma _ _ (feasible_row _ _ _ _ Hf (HAD ads Hads))) as H.
    rewrite eval_fac_terms in H. exact H.
  - intros tcs Htcs. pose proof (eq_row_holds sigma _ _ (feasible_row _ _ _ _ Hf (HTC tcs Htcs))) as H.
    rewrite eval_fac_terms in H. exact H.
  - intros d r Hin. pose proof (le_row_holds sigma _ _ (feasible_row _ _ _ _ Hf (Hrows d r Hin))) as H.
    rewrite !eval_aff_add in H. unfold aff_var, trauma_var in H. simpl v_id in H.
    rewrite !eval_var in H. lra.
Qed.

(** ** Concrete runs of the further properties *)

(** [exists_run], handing the final state and problem to [k]. *)
Ltac exists_run_then k :=
  lazymatch goal with
  | |- exists s p, ?m ?s0 = (s, Ok p) /\ _ =>
      let r := eval vm_compute in (m s0) in
      lazymatch r with
      | (?s', Ok ?p') => exists s', p'; split; [vm_compute; reflexivity | k s' p']
      end
  end.

(** [exists_merge], handing the merged store to [k]. *)
Ltac exists_merge_then k :=
  lazymatch goal with
  | |- exists M, ?e = Ok M /\ _ =>
      let r := eval vm_compute in e in
      lazymatch r with
      | Ok ?m => exists m; split; [vm_compute; reflexivity | k m]
      end
  end.

Lemma num_fac_limits_witness :
  exists s p,
    create_mclp_model ex_backup [("total", 2)] "$" false init_state = (s, Ok p) /\
    facility_bounds ex_backup.(facilities) [("total", 2)] p s.(created).
Proof.
  exists_run.
  apply (num_fac_limits ex_backup [("total", 2)] 0 "$" false init_state).
  left. vm_compute. reflexivity.
Defined.

Lemma mclp_demand_row_witness :
  exists s p,
    create_mclp_model ex_backup [("total", 1)] "$" false init_state = (s, Ok p) /\
    (exists row, In (translate_name ("D" ++ "d")%string, row) p.(constraints) /\
                 row.(c_sense) = LpConstraintGE /\
                 forall sigma, eval_aff sigma row.(c_expr)
                   == cover_sum sigma [("F", [("f1", 1)])] - sigma (VDemand "Y" "d")) /\
    (forall sigma, feasible p s.(created) sigma = true ->
       (sigma (VDemand "Y" "d") == 0 \/ sigma (VDemand "Y" "d") == 1) /\
       sigma (VDemand "Y" "d") <= cover_sum sigma [("F", [("f1", 1)])]).
Proof.
  exists_run.
  eapply (mclp_demand_row ex_backup [("total", 1)] "$" false init_state _ _ "d"
            (mkDemandRecord 10 (PyNum 10) [("F", [("f1", 1)])])).
  - vm_compute. reflexivity.
  - left. reflexivity.
Defined.

Lemma mclp_cc_demand_rows_witness :
  exists s p,
    create_mclp_cc_model ex_partial [("total", 1)] "$" false init_state = (s, Ok p) /\
    exists q, raw_weight (demand_var_of false) (mkDemandRecord 10 (PyNum 10) [("F", [("f1", 1#2)])])
                = PyNum q /\
    (exists row, In (translate_name ("D" ++ "a")%string, row) p.(constraints) /\
                 row.(c_sense) = LpConstraintGE /\
                 forall sigma, eval_aff sigma row.(c_expr)
                   == weighted_cover_sum sigma [("F", [("f1", 1#2)])] - sigma (VDemand "Y" "a")) /\
    (exists nm row, In (nm, row) p.(constraints) /\ row.(c_sense) = LpConstraintLE /\
                 forall sigma, eval_aff sigma row.(c_expr) == sigma (VDemand "Y" "a") - q) /\
    (forall sigma, feasible p s.(created) sigma = true ->
       0 <= sigma (VDemand "Y" "a") /\
       sigma (VDemand "Y" "a") <= weighted_cover_sum sigma [("F", [("f1", 1#2)])] /\
       sigma (VDemand "Y" "a") <= q).
Proof.
  exists_run.
  eapply (mclp_cc_demand_rows ex_partial [("total", 1)] "$" false init_state _ _ "a"
            (mkDemandRecord 10 (PyNum 10) [("F", [("f1", 1#2)])])).
  - vm_compute. reflexivity.
  - left. reflexivity.
Defined.



Lemma lscp_demand_covered_witness :
  exists s p,
    create_lscp_model ex_backup "$" init_state = (s, Ok p) /\
    (exists row, In (translate_name ("D" ++ "d")%string, row) p.(constraints) /\
                 row.(c_sense) = LpConstraintGE /\
                 forall sigma, eval_aff sigma row.(c_expr) == cover_sum sigma [("F", [("f1", 1)])] - 1) /\
    (forall sigma, feasible p s.(created) sigma = true -> 1 <= cover_sum sigma [("F", [("f1", 1)])]).
Proof.
  exists_run.
  eapply (lscp_demand_covered ex_backup "$" init_state _ _ "d"
            (mkDemandRecord 10 (PyNum 10) [("F", [("f1", 1)])])).
  - vm_compute. reflexivity.
  - left. reflexivity.
  - vm_compute. discriminate.
Defined.

Lemma facility_count_objectives_witness :
  exists s p,
    create_lscp_model ex_backup "$" init_state = (s, Ok p) /\
    p.(p_sense) = LpMinimize /\
    forall sigma, eval_aff sigma p.(objective) == vsum sigma (facility_vids ex_backup.(facilities)).
Proof.
  exists_run_then ltac:(fun s p =>
    apply (facility_count_objectives ex_backup 50 "$" false init_state s p);
    left; vm_compute; reflexivity).
Defined.

Lemma weighted_coverage_objectives_witness :
  exists s p,
    create_backup_model ex_backup [("total", 1)] "$" false init_state = (s, Ok p) /\
    p.(p_sense) = LpMaximize /\
    (forall d r, In (d, r) ex_backup.(demand) -> exists q, raw_weight (demand_var_of false) r = PyNum q) /\
    (forall sigma, eval_aff sigma p.(objective) ==
                   demand_value sigma (demand_var_of false) "U" ex_backup.(demand)).
Proof.
  exists_run_then ltac:(fun s p =>
    apply (weighted_coverage_objectives ex_backup [("total", 1)] "$" false init_state s p "U");
    right; right; split; [vm_compute; reflexivity|reflexivity]).
Defined.

Lemma builders_reject_wrong_store_witness :
  (create_mclp_model ex_partial [("total", 1)] "$" false init_state =
     (init_state, Err (ValueError "Expected types")) /\
   create_threshold_model ex_partial 50 "$" false init_state =
     (init_state, Err (ValueError "Expected types")) /\
   create_backup_model ex_partial [("total", 1)] "$" false init_state =
     (init_state, Err (ValueError "Expected types")) /\
   create_lscp_model ex_partial "$" init_state = (init_state, Err (ValueError "Expected types"))) /\
  (create_mclp_cc_model (mkCoverage "partial" "serviceable" [] [] 0) [("total", 1)] "$" false init_state =
     (init_state, Err (ValueError "Expected modes")) /\
   create_cc_threshold_model (mkCoverage "partial" "serviceable" [] [] 0) 50 "$" false init_state =
     (init_state, Err (ValueError "Expected modes")) /\
   create_bclpcc_model (mkCoverage "partial" "serviceable" [] [] 0) [("total", 1)] (1#2) "$" false
     init_state = (init_state, Err (ValueError "Expected modes"))).
Proof.
  split.
  - apply (proj1 (builders_reject_wrong_store ex_partial ex_traumah [("total", 1)] 50 (1#2) 1 1 "$" false
                    init_state (ValueError "Expected types"))).
    left. split; [discriminate|reflexivity].
  - apply (proj1 (proj2 (builders_reject_wrong_store (mkCoverage "partial" "serviceable" [] [] 0)
                           ex_traumah [("total", 1)] 50 (1#2) 1 1 "$" false init_state
                           (ValueError "Expected modes")))).
    right. split; [reflexivity|]. split; [discriminate|reflexivity].
Defined.

Lemma bclpcc_backup_weight_range_witness :
  create_bclpcc_model ex_partial [("total", 1)] 2 "$" false init_state =
    (init_state, Err (ValueError "Backup weight must be between 0 and 1")) /\
  snd (create_bclpcc_model ex_partial [("total", 1)] (1#2) "$" false init_state)
    <> Err (ValueError "Backup weight must be between 0 and 1").
Proof.
  split.
  - apply (proj1 (bclpcc_backup_weight_range ex_partial [("total", 1)] 2 "$" false init_state)).
    + right. reflexivity.
    + reflexivity.
    + reflexivity.
  - apply (proj2 (bclpcc_backup_weight_range ex_partial [("total", 1)] (1#2) "$" false init_state)).
    split; vm_compute; discriminate.
Defined.

Lemma traumah_missing_facility_type_witness :
  snd (create_traumah_model (mkTraumaCoverage "traumah" "coverage" [("TraumaCenter", [("t1", "center 1")])]
                               ex_traumah.(tdemand)) 1 1 "$" init_state) = Err (KeyError "AirDepot") /\
  snd (create_traumah_model (mkTraumaCoverage "traumah" "coverage" [("AirDepot", [("a1", "depot 1")])]
                               ex_traumah.(tdemand)) 1 1 "$" init_state) = Err (KeyError "TraumaCenter").
Proof.
  split.
  - apply (proj1 (traumah_missing_facility_type
                    (mkTraumaCoverage "traumah" "coverage" [("TraumaCenter", [("t1", "center 1")])]
                       ex_traumah.(tdemand)) 1 1 "$" init_state eq_refl eq_refl)).
    reflexivity.
  - apply (proj2 (traumah_missing_facility_type
                    (mkTraumaCoverage "traumah" "coverage" [("AirDepot", [("a1", "depot 1")])]
                       ex_traumah.(tdemand)) 1 1 "$" init_state eq_refl eq_refl)).
    + reflexivity.
    + reflexivity.
Defined.

Lemma traumah_model_rows_witness :
  exists s p,
    create_traumah_model ex_traumah 1 1 "$" init_state = (s, Ok p) /\
    p.(p_sense) = LpMaximize /\
    (forall sigma, eval_aff sigma p.(objective) == trauma_objective sigma ex_traumah.(tdemand)) /\
    forall sigma, feasible p s.(created) sigma = true ->
      (forall ads, Dict.get "AirDepot" ex_traumah.(tfacilities) = Some ads ->
         vsum sigma (facility_vids [("AirDepot", ads)]) == inject_Z 1) /\
      (forall tcs, Dict.get "TraumaCenter" ex_traumah.(tfacilities) = Some tcs ->
         vsum sigma (facility_vids [("TraumaCenter", tcs)]) == inject_Z 1) /\
      (forall d r, In (d, r) ex_traumah.(tdemand) ->
         sigma (VDemand "Y" d) <= sigma (VDemand "V" d) + sigma (VDemand "U" d)).
Proof.
  exists_run.
  apply (traumah_model_rows ex_traumah 1 1 "$" init_state).
  vm_compute. reflexivity.
Defined.


Lemma merge_coverages_short_witness :
  merge_coverages [] = Err IndexError /\
  merge_coverages [mkCoverage "binary" "serviceable" [] [] 0] = Err (ValueError "Expected modes") /\
  merge_coverages [ex_backup] = match check_facility_items ex_backup.(facilities) [] with
                                | Ok _ => Ok ex_backup
                                | Err e => Err e
                                end.
Proof.
  split; [exact (proj1 (merge_coverages_short ex_backup))|]. split.
  - apply (proj1 (proj2 (merge_coverages_short (mkCoverage "binary" "serviceable" [] [] 0)))).
    discriminate.
  - apply (proj2 (proj2 (merge_coverages_short ex_backup))). reflexivity.
Defined.

Lemma merge_coverages_uniform_witness :
  exists m, merge_coverages [ex_par_A; ex_par_B] = Ok m /\
    forall c, In c [ex_par_A; ex_par_B] ->
      c.(ctype) = ex_par_A.(ctype) /\ c.(cmode) = "coverage" /\
      (forall d, In d (Dict.keys c.(demand)) <-> In d (Dict.keys ex_par_A.(demand))).
Proof.
  exists_merge_then ltac:(fun m =>
    apply (merge_coverages_uniform ex_par_A [ex_par_B] m); vm_compute; reflexivity).
Defined.

Lemma merge_two_concatenates_witness :
  exists M, merge_coverages [ex_par_A; ex_par_B] = Ok M /\
    M.(ctype) = ex_par_A.(ctype) /\ M.(cmode) = ex_par_A.(cmode) /\
    M.(totalServiceableDemand) = ex_par_A.(totalServiceableDemand) /\
    M.(facilities) = ex_par_A.(facilities) ++ ex_par_B.(facilities) /\
    Dict.keys M.(demand) = Dict.keys ex_par_A.(demand) /\
    forall d rA rB, Dict.get d ex_par_A.(demand) = Some rA -> Dict.get d ex_par_B.(demand) = Some rB ->
      Dict.get d M.(demand) = Some (set_dcov rA (rA.(d_coverage) ++ rB.(d_coverage))).
Proof.
  apply merge_two_concatenates.
  - reflexivity.
  - discriminate.
  - reflexivity.
  - reflexivity.
  - split; [nodup_tac|]. split; [nodup_tac|]. intros d r H. cbn in H. in_cases.
    split; [nodup_tac|]. intros T fq H. cbn in H. in_cases. split; [left; reflexivity|nodup_tac].
  - split; [nodup_tac|]. split; [nodup_tac|]. intros d r H. cbn in H. in_cases.
    split; [nodup_tac|]. intros T fq H. cbn in H. in_cases. split; [left; reflexivity|nodup_tac].
  - intros T H1 H2. cbn in H1, H2. in_cases. discriminate.
  - intros d. cbn. tauto.
Defined.
